(** * deep-vector-quantization: the quantizers and the VQVAE module of model.py

    A shallow embedding of [model.py].  Tensors are nested lists in row-major
    order; the element type is abstract ([Scalar]) because a torch tensor is
    polymorphic in its dtype.  Three instances are used below: the real
    numbers (arithmetic without rounding), IEEE binary64 ([torch.float64])
    and IEEE binary32 ([torch.float32], the default). *)

From Stdlib Require Import String Ascii DecimalString.
From Stdlib Require Import QArith.
From Stdlib Require Import List ListSet ZArith Lia Bool Arith Permutation Sorted.
From Stdlib Require Import Reals Lra.
From Stdlib Require Import Floats.
Import ListNotations.
Close Scope Q_scope.

Set Implicit Arguments.
Set Warnings "-register-all".

(** ** Scalars: the arithmetic of a tensor's dtype *)

Class Scalar (A : Type) := {
  s_of_Z : Z -> A;
  s_add : A -> A -> A;
  s_sub : A -> A -> A;
  s_mul : A -> A -> A;
  s_div : A -> A -> A;
  s_neg : A -> A;
  s_ltb : A -> A -> bool;
  s_eqb : A -> A -> bool
}.

(** [exp] and [log], for the dtypes that have them. *)
Class Transcendental (A : Type) := {
  s_exp : A -> A;
  s_log : A -> A
}.

#[export] Instance R_scalar : Scalar R := {
  s_of_Z := IZR;
  s_add := Rplus;
  s_sub := Rminus;
  s_mul := Rmult;
  s_div := Rdiv;
  s_neg := Ropp;
  s_ltb := fun a b => if Rlt_dec a b then true else false;
  s_eqb := fun a b => if Req_dec_T a b then true else false
}.

#[export] Instance R_transcendental : Transcendental R := {
  s_exp := exp;
  s_log := ln
}.

(** The binary64 value of an integer below [2^63] in absolute value. *)
Definition float_of_Z (z : Z) : float :=
  match z with
  | Z0 => PrimFloat.zero
  | Zpos _ => PrimFloat.of_uint63 (Uint63.of_Z z)
  | Zneg p => PrimFloat.opp (PrimFloat.of_uint63 (Uint63.of_Z (Zpos p)))
  end.

#[export] Instance float_scalar : Scalar float := {
  s_of_Z := float_of_Z;
  s_add := PrimFloat.add;
  s_sub := PrimFloat.sub;
  s_mul := PrimFloat.mul;
  s_div := PrimFloat.div;
  s_neg := PrimFloat.opp;
  s_ltb := PrimFloat.ltb;
  s_eqb := PrimFloat.eqb
}.

(** ** Tensors as nested lists *)

Definition T2 (A : Type) := list (list A).
Definition T3 (A : Type) := list (list (list A)).
Definition T4 (A : Type) := list (list (list (list A))).

(** [tabulate n f] is the list [f 0; ...; f (n-1)]. *)
Definition tabulate {X : Type} (n : nat) (f : nat -> X) : list X :=
  map f (seq 0 n).

Definition get3 {X : Type} (d : X) (t : T3 X) (i j k : nat) : X :=
  nth k (nth j (nth i t []) []) d.

Definition get4 {X : Type} (d : X) (t : T4 X) (i j k l : nat) : X :=
  nth l (nth k (nth j (nth i t []) []) []) d.

(** [t.size()] of a 4-d tensor. *)
Definition size4 {X : Type} (t : T4 X) : nat * nat * nat * nat :=
  (length t,
   length (hd [] t),
   length (hd [] (hd [] t)),
   length (hd [] (hd [] (hd [] t)))).

(** A nested list that is a tensor of the given shape. *)
Definition has_shape2 {X : Type} (n m : nat) (t : T2 X) : Prop :=
  length t = n /\ Forall (fun r => length r = m) t.

Definition has_shape3 {X : Type} (n m p : nat) (t : T3 X) : Prop :=
  length t = n /\ Forall (has_shape2 m p) t.

Definition has_shape4 {X : Type} (n m p q : nat) (t : T4 X) : Prop :=
  length t = n /\ Forall (has_shape3 m p q) t.

(** The per-axis sizes of a [B, H, W, D] tensor, flattened from outside. *)
Definition uniform4 {X : Type} (Hh W D : nat) (t : T4 X) : Prop :=
  Forall (fun p => length p = Hh) t /\
  Forall (fun r => length r = W) (concat t) /\
  Forall (fun v => length v = D) (concat (concat t)).

(** [t.permute(0, 2, 3, 1)] of a tensor of shape [B, C, H, W]: entry
    [(b, h, w, c)] of the result is entry [(b, c, h, w)] of [t]. *)
Definition permute_0231 {X : Type} (d : X) (shape : nat * nat * nat * nat)
  (t : T4 X) : T4 X :=
  let '(B, C, H, W) := shape in
  tabulate B (fun b => tabulate H (fun h => tabulate W (fun w =>
    tabulate C (fun c => get4 d t b c h w)))).

(** [t.permute(0, 3, 1, 2)] of a tensor of shape [B, H, W, C]: entry
    [(b, c, h, w)] of the result is entry [(b, h, w, c)] of [t]. *)
Definition permute_0312 {X : Type} (d : X) (shape : nat * nat * nat * nat)
  (t : T4 X) : T4 X :=
  let '(B, H, W, C) := shape in
  tabulate B (fun b => tabulate C (fun c => tabulate H (fun h =>
    tabulate W (fun w => get4 d t b h w c)))).

(** [t.reshape(-1, D)] of a contiguous tensor of shape [B, H, W, D]: its
    [B*H*W] vectors in row-major order. *)
Definition reshape_rows {X : Type} (t : T4 X) : T2 X :=
  concat (concat t).

(** [v.view(B, H, W)] of a vector of [B*H*W] entries. *)
Definition view3 {X : Type} (d : X) (B H W : nat) (v : list X) : T3 X :=
  tabulate B (fun b => tabulate H (fun h => tabulate W (fun w =>
    nth ((b * H + h) * W + w) v d))).

Definition map4 {X Y : Type} (f : X -> Y) (t : T4 X) : T4 Y :=
  map (map (map (map f))) t.

Fixpoint zip_with {X Y Z : Type} (f : X -> Y -> Z) (xs : list X) (ys : list Y)
  : list Z :=
  match xs, ys with
  | x :: xs', y :: ys' => f x y :: zip_with f xs' ys'
  | _, _ => []
  end.

Definition zip_with4 {X Y Z : Type} (f : X -> Y -> Z) (s : T4 X) (t : T4 Y)
  : T4 Z :=
  zip_with (zip_with (zip_with (zip_with f))) s t.

(** All the elements of a 4-d tensor, in storage order. *)
Definition elements4 {X : Type} (t : T4 X) : list X :=
  concat (concat (concat t)).

Definition elements3 {X : Type} (t : T3 X) : list X :=
  concat (concat t).

Section TensorOps.
Context {A : Type} `{Scalar A}.

Definition s_zero : A := s_of_Z 0.
Definition s_one : A := s_of_Z 1.
Definition s_of_nat (n : nat) : A := s_of_Z (Z.of_nat n).

(** [x.pow(2)] on one element. *)
Definition s_pow2 (x : A) : A := s_mul x x.

(** [torch.sum] over a list of elements. *)
Fixpoint s_sum (l : list A) : A :=
  match l with
  | [] => s_zero
  | x :: l' => s_add x (s_sum l')
  end.

(** [t.mean()]: the sum of all the elements over their number. *)
Definition mean_list (l : list A) : A :=
  s_div (s_sum l) (s_of_nat (length l)).

Definition mean4 (t : T4 A) : A := mean_list (elements4 t).
Definition mean3 (t : T3 A) : A := mean_list (elements3 t).

(** Row-wise [x.pow(2).sum(1, keepdim=True)]: one entry per row. *)
Definition sumsq (x : list A) : A := s_sum (map s_pow2 x).

Definition dot (x y : list A) : A := s_sum (zip_with s_mul x y).

(** [X @ W.t()]: entry [(i, k)] is the dot product of row [i] of [X] and
    row [k] of [W]. *)
Definition matmul_t (X W : T2 A) : T2 A :=
  map (fun x => map (fun w => dot x w) W) X.

(** [c * X] for a Python number [c]. *)
Definition scale2 (c : A) (X : T2 A) : T2 A := map (map (s_mul c)) X.

(** [a - M] for a column [a] of shape [N, 1] and [M] of shape [N, K]. *)
Definition sub_col (a : list A) (M : T2 A) : T2 A :=
  zip_with (fun ai r => map (fun x => s_sub ai x) r) a M.

(** [M + c] for [M] of shape [N, K] and a row [c] of shape [1, K]. *)
Definition add_row (M : T2 A) (c : list A) : T2 A :=
  map (fun r => zip_with s_add r c) M.

(** The squared Euclidean distance of two vectors, summed coordinate by
    coordinate: the naive reference the quantizer is compared with. *)
Definition squared_distance (x y : list A) : A :=
  s_sum (zip_with (fun a b => s_pow2 (s_sub a b)) x y).

(** The distance of [x] and [w] by the expansion of lines 48-52. *)
Definition expanded_distance (x w : list A) : A :=
  s_add (s_sub (sumsq x) (dot (map (s_mul (s_of_Z 2)) x) w)) (sumsq w).

(** [F.mse_loss(input, target, reduction='mean')] on the elements of two
    tensors of one shape: the sum of the squared differences over the
    number of elements. *)
Definition mse_loss (input target : list A) : A :=
  s_div (s_sum (zip_with (fun a b => s_mul (s_sub a b) (s_sub a b)) input target))
        (s_of_nat (length input)).

(** [x.detach()]: the same values, cut from the gradient graph. *)
Definition detach {X : Type} (t : X) : X := t.

(** [t.max(1)] on one row: the maximal value and the index of its first
    occurrence.  [best] and [bi] are the running maximum and its index,
    [i] the index of the head of [xs]. *)
Fixpoint max_from (best : A) (bi i : nat) (xs : list A) : A * nat :=
  match xs with
  | [] => (best, bi)
  | x :: xs' =>
      if s_ltb best x then max_from x i (S i) xs'
      else max_from best bi (S i) xs'
  end.

(** On an empty row torch raises; the codebooks here are not empty. *)
Definition max_row (xs : list A) : A * nat :=
  match xs with
  | [] => (s_zero, 0)
  | x :: xs' => max_from x 0 1 xs'
  end.

(** The invariant of the scan: [v] sits at position [k] of [pre], nothing in
    [pre] is above it, and everything before position [k] is below it. *)
Definition first_max_of (pre : list A) (v : A) (k : nat) : Prop :=
  k < length pre /\
  nth k pre v = v /\
  (forall j, j < length pre -> s_ltb v (nth j pre v) = false) /\
  (forall j, j < k -> s_ltb (nth j pre v) v = true).

(** [t.max(1)]: (values, indices). *)
Definition max1 (t : T2 A) : list A * list nat :=
  (map (fun r => fst (max_row r)) t, map (fun r => snd (max_row r)) t).

(** [F.embedding(ids, weight)]: gather the rows of [weight].  torch
    raises on an index that is no row; [forward] passes the indices
    [max] returned. *)
Definition embedding (ids : T3 nat) (weight : T2 A) : T4 A :=
  map (map (map (fun i => nth i weight []))) ids.

(** [nn.Conv2d(in, out, 1)]: a 1x1 convolution.  [conv_weight] is the
    weight of shape [out, in] (its two kernel axes of size 1 dropped),
    [conv_bias] the bias of shape [out]. *)
Record Conv1x1 := {
  conv_in : nat;
  conv_out : nat;
  conv_weight : T2 A;
  conv_bias : list A
}.

(** The convolution of an input of [conv_in] channels (on any other
    number torch raises a shape error): at every location the weight
    matrix times the channel vector, plus the bias. *)
Definition conv1x1 (p : Conv1x1) (z : T4 A) : T4 A :=
  let '(B, C, H, W) := size4 z in
  tabulate B (fun b => tabulate (conv_out p) (fun o =>
    tabulate H (fun h => tabulate W (fun w =>
      s_add
        (dot (nth o (conv_weight p) [])
             (tabulate C (fun c => get4 s_zero z b c h w)))
        (nth o (conv_bias p) s_zero))))).

End TensorOps.

(** ** VQVAEQuantize *)

Module VQVAEQuantize.
Section Quantizer.
Context {A : Type} `{Scalar A}.

(** The random number generator and scipy's [kmeans2] are external: a call
    of [forward] receives the generator state [g]; [randperm g n] is
    [torch.randperm(n)] and [kmeans2 g data k] is the centroid array
    [kd[0]] that [kmeans2(data, k, minit='points')] returns. *)
Variable Rng : Type.
Variable randperm : Rng -> nat -> list nat.
Variable kmeans2 : Rng -> T2 A -> nat -> T2 A.

Record t := {
  embedding_dim : nat;
  n_embed : nat;
  proj : Conv1x1 (A := A);
  embed_weight : T2 A;
  data_initialized : A;
  training : bool
}.

(** [__init__]; [proj0] and [embed0] are the randomly initialised
    parameters of [nn.Conv2d(num_hiddens, embedding_dim, 1)] and
    [nn.Embedding(n_embed, embedding_dim)].  A fresh [nn.Module] is in
    training mode. *)
Definition init (num_hiddens embedding_dim0 n_embed0 : nat)
  (proj_weight0 : T2 A) (proj_bias0 : list A) (embed0 : T2 A) : t :=
  {| embedding_dim := embedding_dim0;
     n_embed := n_embed0;
     proj := {| conv_in := num_hiddens;
                conv_out := embedding_dim0;
                conv_weight := proj_weight0;
                conv_bias := proj_bias0 |};
     embed_weight := embed0;
     data_initialized := s_zero;
     training := true |}.

(** [self.train(mode)] / [self.eval()]. *)
Definition train (mode : bool) (q : t) : t :=
  {| embedding_dim := embedding_dim q;
     n_embed := n_embed q;
     proj := proj q;
     embed_weight := embed_weight q;
     data_initialized := data_initialized q;
     training := mode |}.

(** [self.embed.weight.data.copy_(w); self.data_initialized.fill_(1)]. *)
Definition seeded (w : T2 A) (q : t) : t :=
  {| embedding_dim := embedding_dim q;
     n_embed := n_embed q;
     proj := proj q;
     embed_weight := w;
     data_initialized := s_one;
     training := training q |}.

Definition embed_code (q : t) (embed_id : T3 nat) : T4 A :=
  embedding embed_id (embed_weight q).

Definition commitment_cost : A := s_div (s_of_Z 1) (s_of_Z 4).

(** The projected features in channel-last layout, [B, H, W, D]
    (lines 35-36). *)
Definition project (q : t) (z : T4 A) : T4 A :=
  let '(B, C, H, W) := size4 z in
  permute_0231 s_zero (B, conv_out (proj q), H, W) (conv1x1 (proj q) z).

(** The cap of line 43, [rp[:20000]]. *)
Definition sample_cap : nat := Z.to_nat 20000.

(** The projected feature vector at the location [(b, h, w)]. *)
Definition feature (q : t) (z : T4 A) (b h w : nat) : list A :=
  nth w (nth h (nth b (project q z) []) []) [].

(** What [__init__] establishes and every later step keeps: the projection
    has [embedding_dim] output channels and the codebook is a non-empty
    [n_embed] by [embedding_dim] matrix. *)
Definition well_formed (q : t) : Prop :=
  conv_out (proj q) = embedding_dim q /\
  has_shape2 (n_embed q) (embedding_dim q) (embed_weight q) /\
  0 < n_embed q.

(** The guard of line 40. *)
Definition needs_seeding (q : t) : bool :=
  training q && s_eqb (data_initialized q) s_zero.

(** Lines 41-45, after the guard. *)
Definition run_kmeans (q : t) (flatten : T2 A) (g : Rng) : t :=
  let rp := randperm g (length flatten) in
  let sample := map (fun i => nth i flatten []) (firstn sample_cap rp) in
  seeded (kmeans2 g sample (n_embed q)) q.

(** Lines 48-52. *)
Definition distances (flatten W : T2 A) : T2 A :=
  add_row
    (sub_col (map sumsq flatten) (matmul_t (scale2 (s_of_Z 2) flatten) W))
    (map sumsq W).

(** Line 53: [_, ind = (-dist).max(1)]. *)
Definition nearest (dist : T2 A) : list nat :=
  snd (max1 (map (map s_neg) dist)).

(** [forward]: the module after the call, what the call printed, and the
    triple [z_q, diff, ind] it returns. *)
Definition forward (q : t) (z : T4 A) (g : Rng)
  : t * list string * (T4 A * A * T3 nat) :=
  let '(B, C, H, W) := size4 z in
  let z_e := project q z in
  let flatten := reshape_rows z_e in
  let '(q, out) :=
    if needs_seeding q
    then (run_kmeans q flatten g, ["running kmeans!!"%string])
    else (q, []) in
  let dist := distances flatten (embed_weight q) in
  let ind := view3 0 B H W (nearest dist) in
  let z_q := embed_code q ind in
  let diff :=
    s_add
      (s_mul commitment_cost
         (mean4 (map4 s_pow2 (zip_with4 s_sub (detach z_q) z_e))))
      (mean4 (map4 s_pow2 (zip_with4 s_sub z_q (detach z_e)))) in
  let z_q := zip_with4 s_add z_e (detach (zip_with4 s_sub z_q z_e)) in
  let z_q := permute_0312 s_zero (B, H, W, embedding_dim q) z_q in
  (q, out, (z_q, diff, ind)).

(** *** The life of an instance

    What a training script does to the module between construction and the
    end of the run: switch the mode, let the optimizer overwrite the
    parameters, call [forward]. *)
Inductive call :=
| Train (mode : bool)
| Step (proj' : Conv1x1 (A := A)) (embed' : T2 A)
| Forward (z : T4 A) (g : Rng).

(** [optimizer.step()]: new parameter values, the buffer untouched. *)
Definition step (proj' : Conv1x1 (A := A)) (embed' : T2 A) (q : t) : t :=
  {| embedding_dim := embedding_dim q;
     n_embed := n_embed q;
     proj := proj';
     embed_weight := embed';
     data_initialized := data_initialized q;
     training := training q |}.

(** The module after the calls and everything they printed. *)
Fixpoint run (q : t) (cs : list call) : t * list string :=
  match cs with
  | [] => (q, [])
  | Train mode :: cs' => run (train mode q) cs'
  | Step p e :: cs' => run (step p e q) cs'
  | Forward z g :: cs' =>
      let '(q1, out, _) := forward q z g in
      let '(q2, out') := run q1 cs' in
      (q2, out ++ out')
  end.

(** How often k-means ran: once per printed line of line 41. *)
Definition kmeans_runs (out : list string) : nat :=
  count_occ string_dec out "running kmeans!!"%string.

(** The number of [forward] calls of [cs] made in training mode, for a
    module that is in mode [mode] before them. *)
Fixpoint training_calls (mode : bool) (cs : list call) : nat :=
  match cs with
  | [] => 0
  | Train mode' :: cs' => training_calls mode' cs'
  | Step _ _ :: cs' => training_calls mode cs'
  | Forward _ _ :: cs' => (if mode then 1 else 0) + training_calls mode cs'
  end.

End Quantizer.

Arguments Train {A Rng} mode.
Arguments Step {A Rng} proj' embed'.
Arguments Forward {A Rng} z g.

End VQVAEQuantize.



(** ** GumbelQuantize *)

Section CategoryAxis.
Context {A : Type} `{Scalar A} `{Transcendental A}.

(** The entries of a [B, N, H, W] tensor along axis 1 at a location. *)
Definition column (t : T4 A) (N b h w : nat) : list A :=
  tabulate N (fun n => get4 s_zero t b n h w).

(** [F.softmax(t, dim=1)] of a tensor of shape [B, N, H, W]: at every
    location the exponentials over their sum along axis 1. *)
Definition softmax_dim1 (shape : nat * nat * nat * nat) (t : T4 A) : T4 A :=
  let '(B, N, Hh, W) := shape in
  tabulate B (fun b => tabulate N (fun n => tabulate Hh (fun h =>
    tabulate W (fun w =>
      s_div (s_exp (get4 s_zero t b n h w))
            (s_sum (map s_exp (column t N b h w))))))).

(** [torch.sum(t, dim=1)] of a tensor of shape [B, N, H, W]. *)
Definition sum_dim1 (shape : nat * nat * nat * nat) (t : T4 A) : T3 A :=
  let '(B, N, Hh, W) := shape in
  tabulate B (fun b => tabulate Hh (fun h => tabulate W (fun w =>
    s_sum (column t N b h w)))).

(** [t.argmax(dim=1)] of a tensor of shape [B, N, H, W]. *)
Definition argmax_dim1 (shape : nat * nat * nat * nat) (t : T4 A) : T3 nat :=
  let '(B, N, Hh, W) := shape in
  tabulate B (fun b => tabulate Hh (fun h => tabulate W (fun w =>
    snd (max_row (column t N b h w))))).

(** [einsum('b n h w, n d -> b d h w', s, e)] for [s] of shape
    [B, N, H, W] and [e] of shape [N, D]. *)
Definition einsum_bnhw_nd (shape : nat * nat * nat * nat) (D : nat)
  (s : T4 A) (e : T2 A) : T4 A :=
  let '(B, N, Hh, W) := shape in
  tabulate B (fun b => tabulate D (fun d => tabulate Hh (fun h =>
    tabulate W (fun w =>
      s_sum (tabulate N (fun n =>
        s_mul (get4 s_zero s b n h w) (nth d (nth n e []) s_zero))))))).

(** A vector that is 1 at one position and 0 at the others. *)
Definition is_one_hot (v : list A) : Prop :=
  exists k, k < length v /\
    forall j, j < length v ->
      nth j v s_zero = if j =? k then s_one else s_zero.

(** The softmax of one vector of logits. *)
Definition softmax (v : list A) : list A :=
  map (fun x => s_div (s_exp x) (s_sum (map s_exp v))) v.

(** The floor of line 99, [1e-10]. *)
Definition log_floor : A := s_div (s_of_Z 1) (s_of_Z (10 ^ 10)).

(** The Kullback-Leibler divergence of the categorical distribution [p]
    from the uniform distribution over [n] categories, with [log_floor]
    added to the ratio inside the logarithm. *)
Definition kl_from_uniform (p : list A) (n : nat) : A :=
  s_sum (map (fun pk =>
    s_mul pk (s_log (s_add (s_div pk (s_div s_one (s_of_nat n))) log_floor))) p).

(** The term of line 99 at one location, on the softmax [p] of the logits
    there: the sum over the categories of [p_k * log(p_k * n_embed + 1e-10)]. *)
Definition kl_term (n_embed : nat) (p : list A) : A :=
  s_sum (map (fun pk =>
    s_mul pk (s_log (s_add (s_mul pk (s_of_nat n_embed)) log_floor))) p).

(** The locations [(b, h, w)] of a [B, H, W] grid in row-major order. *)
Definition locations (B Hh W : nat) : list (nat * nat * nat) :=
  concat (concat
    (tabulate B (fun b => tabulate Hh (fun h => tabulate W (fun w =>
      (b, h, w)))))).

End CategoryAxis.

Module GumbelQuantize.
Section Quantizer.
Context {A : Type} `{Scalar A} `{Transcendental A}.

(** [F.gumbel_softmax(logits, tau, dim=1, hard)] is torch's; [g] is the
    state of the random number generator it draws the Gumbel noise from. *)
Variable Rng : Type.
Variable gumbel_softmax : Rng -> T4 A -> A -> bool -> T4 A.

Record t := {
  embedding_dim : nat;
  n_embed : nat;
  straight_through : bool;
  temperature : A;
  proj : Conv1x1 (A := A);
  embed_weight : T2 A;
  training : bool
}.

(** [__init__]; [straight_through0] is [None] when the caller leaves the
    keyword argument out, and the default [True] applies. *)
Definition init (num_hiddens embedding_dim0 n_embed0 : nat)
  (straight_through0 : option bool)
  (proj_weight0 : T2 A) (proj_bias0 : list A) (embed0 : T2 A) : t :=
  {| embedding_dim := embedding_dim0;
     n_embed := n_embed0;
     straight_through :=
       match straight_through0 with Some b => b | None => true end;
     temperature := s_one;
     proj := {| conv_in := num_hiddens;
                conv_out := n_embed0;
                conv_weight := proj_weight0;
                conv_bias := proj_bias0 |};
     embed_weight := embed0;
     training := true |}.

Definition train (mode : bool) (q : t) : t :=
  {| embedding_dim := embedding_dim q;
     n_embed := n_embed q;
     straight_through := straight_through q;
     temperature := temperature q;
     proj := proj q;
     embed_weight := embed_weight q;
     training := mode |}.

Definition kld_scale : A := s_div (s_of_Z 5) (s_of_Z 10000).

(** What [__init__] establishes: one logit per code, a non-empty
    [n_embed] by [embedding_dim] codebook. *)
Definition well_formed (q : t) : Prop :=
  conv_out (proj q) = n_embed q /\
  has_shape2 (n_embed q) (embedding_dim q) (embed_weight q) /\
  0 < n_embed q.

(** torch's contract for a hard sample: over a non-empty category axis the
    returned tensor is one-hot along axis 1 at every location. *)
Definition hard_samples_are_one_hot : Prop :=
  forall (g : Rng) (l : T4 A) (tau : A) (B N Hh W : nat),
    has_shape4 B N Hh W l -> 0 < N ->
    forall b h w, b < B -> h < Hh -> w < W ->
      is_one_hot (column (gumbel_softmax g l tau true) N b h w).

(** Line 90. *)
Definition hard (q : t) : bool :=
  if training q then straight_through q else true.

(** Line 92. *)
Definition logits (q : t) (z : T4 A) : T4 A := conv1x1 (proj q) z.

(** The shape [B, n_embed, H, W] of the logits. *)
Definition logits_shape (q : t) (z : T4 A) : nat * nat * nat * nat :=
  let '(B, _, Hh, W) := size4 z in (B, conv_out (proj q), Hh, W).

(** Line 93. *)
Definition soft_one_hot (q : t) (z : T4 A) (g : Rng) : T4 A :=
  gumbel_softmax g (logits q z) (temperature q) (hard q).

(** Lines 97-99. *)
Definition kl_loss (q : t) (z : T4 A) : A :=
  let shape := logits_shape q z in
  let qy := softmax_dim1 shape (logits q z) in
  s_mul kld_scale
    (mean3 (sum_dim1 shape
      (zip_with4 s_mul qy
         (map4 (fun x => s_log (s_add (s_mul x (s_of_nat (n_embed q))) log_floor))
            qy)))).

Definition forward (q : t) (z : T4 A) (g : Rng) : T4 A * A * T3 nat :=
  let shape := logits_shape q z in
  let s := soft_one_hot q z g in
  let z_q := einsum_bnhw_nd shape (embedding_dim q) s (embed_weight q) in
  let diff := kl_loss q z in
  let ind := argmax_dim1 shape s in
  (z_q, diff, ind).

End Quantizer.
End GumbelQuantize.

(** ** Module trees and the optimizer's parameter groups *)

(** The classes [configure_optimizers] tells apart, and all the others. *)
Inductive module_class :=
| Linear | Conv2d | ConvTranspose2d
| LayerNorm | BatchNorm2d | Embedding
| OtherModule.

(** An [nn.Module]: its class, the names of its own parameters and its
    named children.  Every parameter object is registered once (no weight
    is shared between two modules), as in the modules [__init__] builds. *)
Inductive Module :=
| Mod (cls : module_class) (params : list string)
      (children : list (string * Module)).

Definition module_cls (m : Module) : module_class :=
  match m with Mod c _ _ => c end.

Definition own_parameters (m : Module) : list string :=
  match m with Mod _ ps _ => ps end.

(** [prefix + ('.' if prefix else '') + name], and line 207. *)
Definition join (prefix name : string) : string :=
  if String.eqb prefix "" then name else (prefix ++ "." ++ name)%string.

(** [m.named_modules(prefix)]: the module itself, then its descendants,
    depth first. *)
Fixpoint named_modules (prefix : string) (m : Module)
  : list (string * Module) :=
  match m with
  | Mod _ _ children =>
      (prefix, m) ::
      (fix descend (cs : list (string * Module)) : list (string * Module) :=
         match cs with
         | [] => []
         | (name, c) :: cs' => named_modules (join prefix name) c ++ descend cs'
         end) children
  end.

(** The descendants of the children [cs] of a module named [prefix]. *)
Definition descendants (prefix : string) (cs : list (string * Module))
  : list (string * Module) :=
  flat_map (fun nc => named_modules (join prefix (fst nc)) (snd nc)) cs.

(** [m.named_parameters()]: the own parameters of every module of
    [m.named_modules()], under their full names. *)
Definition named_parameters (m : Module) : list string :=
  flat_map (fun '(mn, sub) => map (join mn) (own_parameters sub))
    (named_modules "" m).

(** [s.endswith(suffix)]. *)
Definition endswith (s suffix : string) : bool :=
  let n := String.length s in
  let k := String.length suffix in
  (k <=? n) && String.eqb (substring (n - k) k s) suffix.

Definition whitelist_weight_modules : list module_class :=
  [Linear; Conv2d; ConvTranspose2d].

Definition blacklist_weight_modules : list module_class :=
  [LayerNorm; BatchNorm2d; Embedding].

Definition module_class_eqb (a b : module_class) : bool :=
  match a, b with
  | Linear, Linear | Conv2d, Conv2d | ConvTranspose2d, ConvTranspose2d
  | LayerNorm, LayerNorm | BatchNorm2d, BatchNorm2d | Embedding, Embedding
  | OtherModule, OtherModule => true
  | _, _ => false
  end.

(** [isinstance(m, classes)]. *)
Definition isinstance (m : Module) (classes : list module_class) : bool :=
  existsb (module_class_eqb (module_cls m)) classes.

(** The two sets of lines 201-202. *)
Record partition := {
  decay : set string;
  no_decay : set string
}.

(** Lines 209-217 for one parameter [pn] of the module [m] named [mn]. *)
Definition separate (mn : string) (m : Module) (pn : string) (p : partition)
  : partition :=
  let fpn := join mn pn in
  if endswith pn "bias" then
    {| decay := decay p; no_decay := set_add string_dec fpn (no_decay p) |}
  else if endswith pn "weight" && isinstance m whitelist_weight_modules then
    {| decay := set_add string_dec fpn (decay p); no_decay := no_decay p |}
  else if endswith pn "weight" && isinstance m blacklist_weight_modules then
    {| decay := decay p; no_decay := set_add string_dec fpn (no_decay p) |}
  else p.

(** Where one visit puts the parameter. *)
Definition placed (mn : string) (m : Module) (pn : string) (p : partition)
  : Prop :=
  (endswith pn "bias" = true -> set_In (join mn pn) (no_decay p)) /\
  (endswith pn "bias" = false -> endswith pn "weight" = true ->
   isinstance m whitelist_weight_modules = true ->
   set_In (join mn pn) (decay p)) /\
  (endswith pn "bias" = false -> endswith pn "weight" = true ->
   isinstance m blacklist_weight_modules = true ->
   set_In (join mn pn) (no_decay p)).

(** Names as [add_module] accepts them: no child is named by the empty
    string. *)
Fixpoint well_named (m : Module) : Prop :=
  match m with
  | Mod _ _ children =>
      (fix all (cs : list (string * Module)) : Prop :=
         match cs with
         | [] => True
         | (name, c) :: cs' => name <> ""%string /\ well_named c /\ all cs'
         end) children
  end.

(** The name under [prefix] of the module named [name] below it, where the
    empty [name] is the module itself. *)
Definition below (prefix name : string) : string :=
  if String.eqb name "" then prefix else join prefix name.

(** The pairs the two loops of lines 205-206 visit, in order. *)
Definition visited (self : Module) : list (string * Module * string) :=
  flat_map (fun '(mn, m) => map (fun pn => (mn, m, pn)) (named_parameters m))
    (named_modules "" self).

(** Lines 201-217. *)
Definition separate_all (self : Module) : partition :=
  fold_left (fun p '(mn, m, pn) => separate mn m pn p) (visited self)
    {| decay := empty_set string; no_decay := empty_set string |}.

(** [sorted(list(s))] for a set of strings. *)
Fixpoint insert_sorted (x : string) (l : list string) : list string :=
  match l with
  | [] => [x]
  | y :: l' => if String.leb x y then x :: l else y :: insert_sorted x l'
  end.

Definition sorted (s : set string) : list string :=
  fold_right insert_sorted [] s.

Record param_group := {
  group_params : list string;
  weight_decay : Q
}.

(** What [configure_optimizers] does: one of the two assertions fails, with
    the set its message shows, or the optimizer is built over the two
    groups. *)
Inductive configured :=
| AssertionError_both_sets (inter_params : set string)
| AssertionError_not_separated (missing : set string)
| AdamW (optim_groups : list param_group) (lr : Q) (default_decay : Q).

(** Lines 219-234. *)
Definition configure_optimizers (self : Module) : configured :=
  let p := separate_all self in
  let param_dict_keys := named_parameters self in
  let inter_params := set_inter string_dec (decay p) (no_decay p) in
  let union_params := set_union string_dec (decay p) (no_decay p) in
  if negb (length inter_params =? 0) then
    AssertionError_both_sets inter_params
  else if negb (length (set_diff string_dec param_dict_keys union_params) =? 0)
  then
    AssertionError_not_separated
      (set_diff string_dec param_dict_keys union_params)
  else
    AdamW
      [ {| group_params := sorted (decay p); weight_decay := (1 # 100000)%Q |};
        {| group_params := sorted (no_decay p); weight_decay := 0%Q |} ]
      (3 # 10000)%Q (1 # 100000)%Q.

(** ** VQVAE *)

Module VQVAE.

(** The layers of the encoder and the decoder, with the arguments their
    constructors are given. *)
Inductive layer :=
| Conv (in_channels out_channels kernel_size stride padding : nat)
| ConvTranspose (in_channels out_channels kernel_size stride padding : nat)
| ReLU
| ResBlock (in_channel channel : nat).

(** The shape [B, C, H, W] of a grid. *)
Definition shape : Type := nat * nat * nat * nat.

(** The output size of [nn.Conv2d] along one spatial axis (dilation 1);
    torch refuses an input whose padded size is below the kernel size. *)
Definition conv_size (x k s p : nat) : option nat :=
  if (k <=? x + 2 * p) && (0 <? s) then Some ((x + 2 * p - k) / s + 1)
  else None.

(** The output size of [nn.ConvTranspose2d] along one spatial axis
    (dilation 1, no output padding). *)
Definition conv_transpose_size (x k s p : nat) : option nat :=
  if (1 <=? x) && (2 * p <=? (x - 1) * s + k) then Some ((x - 1) * s + k - 2 * p)
  else None.

Definition conv_shape (cin cout k s p : nat) (sh : shape) : option shape :=
  let '(B, C, Hh, W) := sh in
  if C =? cin then
    match conv_size Hh k s p, conv_size W k s p with
    | Some Hh', Some W' => Some (B, cout, Hh', W')
    | _, _ => None
    end
  else None.

Definition conv_transpose_shape (cin cout k s p : nat) (sh : shape)
  : option shape :=
  let '(B, C, Hh, W) := sh in
  if C =? cin then
    match conv_transpose_size Hh k s p, conv_transpose_size W k s p with
    | Some Hh', Some W' => Some (B, cout, Hh', W')
    | _, _ => None
    end
  else None.

Definition shape_eqb (a b : shape) : bool :=
  let '(B, C, Hh, W) := a in
  let '(B', C', Hh', W') := b in
  (B =? B') && (C =? C') && (Hh =? Hh') && (W =? W').

(** The shape a layer returns, or [None] where torch raises a shape
    error.  [ResBlock] is lines 109-119: a 3x3 convolution with padding 1,
    a ReLU, a 1x1 convolution, and [out += x], which needs the shape of
    [x]. *)
Definition layer_shape (l : layer) (sh : shape) : option shape :=
  match l with
  | Conv cin cout k s p => conv_shape cin cout k s p sh
  | ConvTranspose cin cout k s p => conv_transpose_shape cin cout k s p sh
  | ReLU => Some sh
  | ResBlock in_channel channel =>
      match conv_shape in_channel channel 3 1 1 sh with
      | Some sh1 =>
          match conv_shape channel in_channel 1 1 0 sh1 with
          | Some sh2 => if shape_eqb sh2 sh then Some sh2 else None
          | None => None
          end
      | None => None
      end
  end.


Section Model.
Context {A : Type} `{Scalar A} `{Transcendental A}.

Inductive quantizer_module :=
| Hard (q : VQVAEQuantize.t (A := A))
| Soft (q : GumbelQuantize.t (A := A)).

Record t := {
  encoder : list layer;
  quantizer : quantizer_module;
  decoder : list layer
}.

(** [args]: the only attribute [__init__] reads. *)
Record arguments := { vq_flavor : string }.

Definition in_channel : nat := 3.

(** Lines 147-151.  Both quantizer classes are called with the same three
    positional arguments; [pw], [pb] and [e] are the initial values of the
    parameters either of them creates.  A flavor that is not a key of the
    dictionary raises [KeyError]. *)
Definition make_quantizer (flavor : string)
  (num_hiddens embedding_dim num_embeddings : nat)
  (pw : T2 A) (pb : list A) (e : T2 A) : option quantizer_module :=
  if String.eqb flavor "vqvae" then
    Some (Hard (VQVAEQuantize.init num_hiddens embedding_dim num_embeddings
                  pw pb e))
  else if String.eqb flavor "gumbel" then
    Some (Soft (GumbelQuantize.init num_hiddens embedding_dim num_embeddings
                  None pw pb e))
  else None.

(** [__init__]. *)
Definition init (args : arguments)
  (num_hiddens num_residual_hiddens embedding_dim num_embeddings : nat)
  (pw : T2 A) (pb : list A) (e : T2 A) : option t :=
  let encoder0 :=
    [ Conv in_channel (num_hiddens / 2) 4 2 1;
      ReLU;
      Conv (num_hiddens / 2) num_hiddens 4 2 1;
      ReLU;
      Conv num_hiddens num_hiddens 3 1 1;
      ReLU;
      ResBlock num_hiddens num_residual_hiddens;
      ResBlock num_hiddens num_residual_hiddens ] in
  match make_quantizer (vq_flavor args) num_hiddens embedding_dim
          num_embeddings pw pb e with
  | None => None
  | Some quantizer0 =>
      Some {| encoder := encoder0;
              quantizer := quantizer0;
              decoder :=
                [ Conv embedding_dim num_hiddens 3 1 1;
                  ReLU;
                  ResBlock num_hiddens num_residual_hiddens;
                  ResBlock num_hiddens num_residual_hiddens;
                  ConvTranspose num_hiddens (num_hiddens / 2) 4 2 1;
                  ReLU;
                  ConvTranspose (num_hiddens / 2) in_channel 4 2 1 ] |}
  end.




(** Line 165, [self.quantizer(z)]: the quantizer after the call and the
    triple it returns. *)
Definition quantize (Rng : Type) (randperm : Rng -> nat -> list nat)
  (kmeans2 : Rng -> T2 A -> nat -> T2 A)
  (gumbel_softmax : Rng -> T4 A -> A -> bool -> T4 A)
  (qm : quantizer_module) (z : T4 A) (g : Rng)
  : quantizer_module * (T4 A * A * T3 nat) :=
  match qm with
  | Hard q =>
      let '(q', _, res) := VQVAEQuantize.forward randperm kmeans2 q z g in
      (Hard q', res)
  | Soft q => (Soft q, GumbelQuantize.forward gumbel_softmax q z g)
  end.


End Model.

(** *** The validation diagnostics, lines 181-184 *)

Section Diagnostics.
Context {A : Type} `{Scalar A} `{Transcendental A}.

(** [F.one_hot(i, n).float()] for one index. *)
Definition one_hot (n i : nat) : list A :=
  tabulate n (fun k => if k =? i then s_one else s_zero).

(** Line 181: one row per location. *)
Definition encodings (n : nat) (ind : T3 nat) : T2 A :=
  map (one_hot n) (elements3 ind).

(** [t.mean(0)] of a matrix with [n] columns. *)
Definition mean0 (n : nat) (t : T2 A) : list A :=
  tabulate n (fun k => mean_list (map (fun r => nth k r s_zero) t)).

Definition avg_probs (n : nat) (ind : T3 nat) : list A :=
  mean0 n (encodings n ind).

(** Line 183. *)
Definition perplexity_of (probs : list A) : A :=
  s_exp (s_neg (s_sum
    (map (fun p => s_mul p (s_log (s_add p log_floor))) probs))).

Definition perplexity (n : nat) (ind : T3 nat) : A :=
  perplexity_of (avg_probs n ind).

(** Line 184. *)
Definition cluster_use (n : nat) (ind : T3 nat) : nat :=
  length (filter (fun p => s_ltb s_zero p) (avg_probs n ind)).

End Diagnostics.

(** *** The module tree of a model *)

Definition conv_module (cls : module_class) : Module :=
  Mod cls ["weight"; "bias"]%string [].

Definition layer_module (l : layer) : Module :=
  match l with
  | Conv _ _ _ _ _ => conv_module Conv2d
  | ConvTranspose _ _ _ _ _ => conv_module ConvTranspose2d
  | ReLU => Mod OtherModule [] []
  | ResBlock _ _ =>
      Mod OtherModule []
        [("conv"%string,
          Mod OtherModule []
            [("0"%string, conv_module Conv2d);
             ("1"%string, Mod OtherModule [] []);
             ("2"%string, conv_module Conv2d)])]
  end.

(** The children of an [nn.Sequential] are named by their positions. *)
Definition sequential_module (ls : list layer) : Module :=
  Mod OtherModule []
    (map (fun '(i, l) =>
            (NilEmpty.string_of_uint (Nat.to_uint i), layer_module l))
       (combine (seq 0 (length ls)) ls)).

(** Both quantizers register [proj] and [embed], in this order;
    [data_initialized] is a buffer and no parameter. *)
Definition quantizer_tree : Module :=
  Mod OtherModule []
    [("proj"%string, conv_module Conv2d);
     ("embed"%string, Mod Embedding ["weight"%string] [])].

Definition module_tree {A : Type} (m : t (A := A)) : Module :=
  Mod OtherModule []
    [("encoder"%string, sequential_module (encoder m));
     ("quantizer"%string, quantizer_tree);
     ("decoder"%string, sequential_module (decoder m))].

End VQVAE.

(** ** Example inputs

    A generator that does not shuffle and a stand-in for k-means that takes
    the first [k] sample points as centroids; a quantizer with two input
    channels, [embedding_dim = 2] and three codes; a 1x2 grid. *)

Definition example_randperm (g : unit) (n : nat) : list nat := seq 0 n.

Definition example_kmeans2 {A : Type} (g : unit) (data : T2 A) (k : nat)
  : T2 A := firstn k data.

Definition example_quantizer {A : Type} `{Scalar A} : VQVAEQuantize.t :=
  VQVAEQuantize.init 2 2 3
    [[s_of_Z 1; s_of_Z 0]; [s_of_Z 0; s_of_Z 1]]
    [s_of_Z 0; s_of_Z 0]
    [[s_of_Z 0; s_of_Z 0]; [s_of_Z 5; s_of_Z 5]; [s_of_Z 1; s_of_Z 2]].

Definition example_grid {A : Type} `{Scalar A} : T4 A :=
  [[ [[s_of_Z 1; s_of_Z 4]]; [[s_of_Z 1; s_of_Z 6]] ]].

Definition example_calls {A : Type} `{Scalar A}
  : list (VQVAEQuantize.call (A := A) unit) :=
  [ VQVAEQuantize.Train false;
    VQVAEQuantize.Forward example_grid tt;
    VQVAEQuantize.Train true;
    VQVAEQuantize.Forward example_grid tt;
    VQVAEQuantize.Forward example_grid tt ].

(** A quantizer with one channel and the single code [2^-60], in evaluation
    mode, and the 1x1 grid holding [1]. *)
Definition tiny_code_quantizer {A : Type} `{Scalar A} : VQVAEQuantize.t :=
  VQVAEQuantize.train false
    (VQVAEQuantize.init 1 1 1 [[s_of_Z 1]] [s_of_Z 0]
       [[s_div (s_of_Z 1) (s_of_Z (2 ^ 60))]]).

Definition unit_grid {A : Type} `{Scalar A} : T4 A := [[[[s_of_Z 1]]]].

(** A stand-in for [F.gumbel_softmax] whose hard samples always pick
    category 0 and whose soft samples are the logits themselves. *)
Definition example_gumbel_softmax {A : Type} `{Scalar A} (g : unit)
  (logits : T4 A) (tau : A) (hard : bool) : T4 A :=
  if hard
  then map (fun batch =>
         map (fun n =>
           map (map (fun _ => if n =? 0 then s_one else s_zero))
               (nth n batch []))
           (seq 0 (length batch))) logits
  else logits.

Definition example_gumbel {A : Type} `{Scalar A} : GumbelQuantize.t :=
  GumbelQuantize.init 2 2 3 (Some false)
    [[s_of_Z 1; s_of_Z 0]; [s_of_Z 0; s_of_Z 1]; [s_of_Z 1; s_of_Z 1]]
    [s_of_Z 0; s_of_Z 0; s_of_Z 0]
    [[s_of_Z 0; s_of_Z 0]; [s_of_Z 5; s_of_Z 5]; [s_of_Z 1; s_of_Z 2]].

(** The model with the default sizes, for either flavor; the initial
    parameter values play no part in what is computed from it here. *)
Definition default_model {A : Type} `{Scalar A} (flavor : string)
  : option (VQVAE.t (A := A)) :=
  VQVAE.init {| VQVAE.vq_flavor := flavor |} 128 32 64 512 [] [] [].

Definition example_tree : Module :=
  match default_model (A := float) "vqvae" with
  | Some m => VQVAE.module_tree m
  | None => Mod OtherModule [] []
  end.

(** An embedding nested in a linear layer: its weight is visited once as
    ["b.weight"] of the linear module ["a"] and once as ["weight"] of the
    embedding ["a.b"]. *)
Definition collision_tree : Module :=
  Mod OtherModule []
    [("a"%string,
      Mod Linear ["weight"; "bias"]%string
        [("b"%string, Mod Embedding ["weight"%string] [])])].

(** A quantizer with one channel and the single code [0.1], in evaluation
    mode, and the 1x1 grid holding [0.5]. *)
Definition tenth_code_quantizer {A : Type} `{Scalar A} : VQVAEQuantize.t :=
  VQVAEQuantize.train false
    (VQVAEQuantize.init 1 1 1 [[s_of_Z 1]] [s_of_Z 0]
       [[s_div (s_of_Z 1) (s_of_Z 10)]]).

Definition half_grid {A : Type} `{Scalar A} : T4 A :=
  [[[[s_div (s_of_Z 1) (s_of_Z 2)]]]].

(** ** Further definitions *)

(** The rows line 43 hands to [kmeans2]: [flatten[rp[:20000]]]. *)
Definition seeding_sample {A : Type} (Rng : Type)
  (randperm : Rng -> nat -> list nat) (flatten : T2 A) (g : Rng) : T2 A :=
  map (fun i => nth i flatten [])
    (firstn VQVAEQuantize.sample_cap (randperm g (length flatten))).

(** A grid whose two locations hold the same vector. *)
Definition constant_grid {A : Type} `{Scalar A} : T4 A :=
  [[ [[s_of_Z 1; s_of_Z 1]]; [[s_of_Z 2; s_of_Z 2]] ]].

(** ** The steps of the Lightning module, lines 163-196 *)

Module Steps.
Section Steps.
Context {A : Type} `{Scalar A} `{Transcendental A}.
Variable Rng : Type.
Variable randperm : Rng -> nat -> list nat.
Variable kmeans2 : Rng -> T2 A -> nat -> T2 A.
Variable gumbel_softmax : Rng -> T4 A -> A -> bool -> T4 A.

(** [self.encoder] and [self.decoder] as torch evaluates them. *)
Variable encoder : T4 A -> T4 A.
Variable decoder : T4 A -> T4 A.

(** The labels of a batch, which no step reads. *)
Variable Label : Type.

(** [self.quantizer.n_embed]. *)
Definition n_embed (qm : VQVAE.quantizer_module (A := A)) : nat :=
  match qm with
  | VQVAE.Hard q => VQVAEQuantize.n_embed q
  | VQVAE.Soft q => GumbelQuantize.n_embed q
  end.

(** What [__init__] establishes for the quantizer, whichever it is. *)
Definition well_formed (qm : VQVAE.quantizer_module (A := A)) : Prop :=
  match qm with
  | VQVAE.Hard q => VQVAEQuantize.well_formed q
  | VQVAE.Soft q => GumbelQuantize.well_formed q
  end.

(** Lines 163-167: the quantizer after the call and the triple
    [(x_hat, diff, ind)]. *)
Definition forward (qm : VQVAE.quantizer_module) (x : T4 A) (g : Rng)
  : VQVAE.quantizer_module * (T4 A * A * T3 nat) :=
  let z := encoder x in
  let '(qm', (z_q, diff, ind)) :=
    VQVAE.quantize randperm kmeans2 gumbel_softmax qm z g in
  let x_hat := decoder z_q in
  (qm', (x_hat, diff, ind)).

(** Lines 169-174: the quantizer after the step and the loss. *)
Definition training_step (qm : VQVAE.quantizer_module)
  (batch : T4 A * Label) (g : Rng) : VQVAE.quantizer_module * A :=
  let '(x, y) := batch in
  let '(qm', (x_hat, latent_loss, ind)) := forward qm x g in
  let recon_loss := mse_loss (elements4 x_hat) (elements4 x) in
  let loss := s_add recon_loss latent_loss in
  (qm', loss).

(** Line 192. *)
Definition data_variance : A :=
  s_div (s_of_Z 6327039811675479) (s_of_Z (10 ^ 17)).

(** The values a validation step logs. *)
Record logged := {
  val_perplexity : A;
  val_cluster_use : nat;
  val_recon_error : A
}.

(** Lines 176-196: the quantizer after the step and the logged values. *)
Definition validation_step (qm : VQVAE.quantizer_module)
  (batch : T4 A * Label) (g : Rng) : VQVAE.quantizer_module * logged :=
  let '(x, y) := batch in
  let '(qm', (x_hat, latent_loss, ind)) := forward qm x g in
  let perplexity := VQVAE.perplexity (n_embed qm') ind in
  let cluster_use := VQVAE.cluster_use (A := A) (n_embed qm') ind in
  let recon_error :=
    s_div (mse_loss (elements4 x_hat) (elements4 x)) data_variance in
  (qm', {| val_perplexity := perplexity;
           val_cluster_use := cluster_use;
           val_recon_error := recon_error |}).

End Steps.
End Steps.

(** ** The comparisons behind [max]

    [max] compares the entries of a row with [<].  On a row of reals, and on
    a row of floats that holds no NaN, [<] is a strict weak order and
    negation reverses it; the checks below decide both for the entries of
    one row. *)

Section RowOrder.
Context {A : Type} `{Scalar A}.

Definition strict_weak_order_on (l : list A) : bool :=
  forallb (fun a => negb (s_ltb a a)) l &&
  forallb (fun a => forallb (fun b => forallb (fun c =>
    implb (s_ltb a b && s_ltb b c) (s_ltb a c)) l) l) l &&
  forallb (fun a => forallb (fun b => forallb (fun c =>
    implb (s_ltb a b) (s_ltb a c || s_ltb c b)) l) l) l.

Definition negation_reverses (l : list A) : bool :=
  forallb (fun a => forallb (fun b =>
    Bool.eqb (s_ltb (s_neg a) (s_neg b)) (s_ltb b a)) l) l.

(** What line 53 needs of a row [d] of distances to return a minimum of
    [d]: [(-d).max] compares the negated entries. *)
Definition ordered_distances (d : list A) : bool :=
  strict_weak_order_on (map s_neg d) && negation_reverses d.

End RowOrder.

(** A quantizer in evaluation mode with one channel, the identity
    projection and the two codes [2^p - 1] and [2^p], and the 1x1 grid
    that holds [2^p]: the feature is the second code. *)
Definition cancelling_quantizer {A : Type} `{Scalar A} (p : Z)
  : VQVAEQuantize.t :=
  VQVAEQuantize.train false
    (VQVAEQuantize.init 1 1 2 [[s_of_Z 1]] [s_of_Z 0]
       [[s_of_Z (2 ^ p - 1)]; [s_of_Z (2 ^ p)]]).

Definition cancelling_grid {A : Type} `{Scalar A} (p : Z) : T4 A :=
  [[[[s_of_Z (2 ^ p)]]]].

(** ** IEEE binary32, the default dtype of torch

    A binary32 value is kept as the binary64 value equal to it.  Every
    operation is computed in binary64 and rounded to binary32, which gives
    the binary32 result of [+], [-], [*] and [/], since 53 >= 2 * 24 + 2. *)

(** The nearest integer, ties to even, of a [y] with [|y| < 2^51]. *)
Definition round_to_integer (y : float) : float :=
  PrimFloat.sub (PrimFloat.add y 0x1.8p52%float) 0x1.8p52%float.

(** Rounding to binary32, to nearest with ties to even: the spacing of
    the binary32 values around [x = m * 2^e], [1/2 <= |m| < 1], is
    [2^(e - 24)], and [2^-149] in the subnormal range; a result of
    magnitude [2^128] or more overflows. *)
Definition round32 (x : float) : float :=
  if PrimFloat.eqb x PrimFloat.zero then x
  else
    let '(m, e) := Z.frexp x in
    let quantum := Z.max (e - 24) (-149) in
    let r := Z.ldexp (round_to_integer (Z.ldexp x (- quantum))) quantum in
    if PrimFloat.leb 0x1p128%float (PrimFloat.abs r)
    then (if PrimFloat.ltb r PrimFloat.zero then neg_infinity else infinity)
    else r.

Record float32 := Float32 { binary64_of : float }.

Definition float32_op (op : float -> float -> float) (a b : float32)
  : float32 :=
  Float32 (round32 (op (binary64_of a) (binary64_of b))).

(** [s_of_Z] is the binary32 value of an integer below [2^53] in absolute
    value. *)
#[export] Instance float32_scalar : Scalar float32 := {
  s_of_Z := fun z => Float32 (round32 (float_of_Z z));
  s_add := float32_op PrimFloat.add;
  s_sub := float32_op PrimFloat.sub;
  s_mul := float32_op PrimFloat.mul;
  s_div := float32_op PrimFloat.div;
  s_neg := fun a => Float32 (PrimFloat.opp (binary64_of a));
  s_ltb := fun a b => PrimFloat.ltb (binary64_of a) (binary64_of b);
  s_eqb := fun a b => PrimFloat.eqb (binary64_of a) (binary64_of b)
}.

(** Stand-ins for [torch.log] and [torch.exp] in binary32, which the
    primitive floats do not provide: [x - 1] and [1 + x].  They are exact
    at the two points that decide the single-code perplexity, [log 1 = 0]
    and [exp (-0) = 1], and the stand-in for [log] is negative at the floor
    as [log] is. *)
Definition example_transcendental : Transcendental float32 := {|
  s_exp := fun x => s_add (s_of_Z 1) x;
  s_log := fun x => s_sub x (s_of_Z 1)
|}.

(** ** Rounding that absorbs the floor of line 183

    What the perplexity of a grid of [N] equal indices evaluates, for a
    dtype that rounds as binary32 does: the mean of [N] ones is 1 and that
    of [N] zeros 0, [1 + 1e-10] rounds to 1, [log 1 = 0], adding the
    products [1 * 0] and [0 * log (0 + 1e-10)] to 0 gives 0, and
    [exp (-0) = 1]. *)
Definition absorbs_floor {A : Type} `{Scalar A} `{Transcendental A}
  (N : nat) : Prop :=
  mean_list (repeat s_one N) = s_one /\
  mean_list (repeat s_zero N) = s_zero /\
  s_add s_one log_floor = s_one /\
  s_log s_one = s_zero /\
  s_add (s_mul s_one s_zero) s_zero = s_zero /\
  s_add (s_mul s_zero (s_log (s_add s_zero log_floor))) s_zero = s_zero /\
  s_exp (s_neg s_zero) = s_one.
(** ** Lists and tabulated tensors *)

Lemma length_tabulate {X : Type} (n : nat) (f : nat -> X) :
  length (tabulate n f) = n.
Proof. unfold tabulate. now rewrite length_map, length_seq. Qed.

Lemma nth_tabulate {X : Type} (n : nat) (f : nat -> X) (i : nat) (d : X) :
  i < n -> nth i (tabulate n f) d = f i.
Proof.
  intros Hi. unfold tabulate.
  rewrite (nth_indep _ d (f 0)) by (now rewrite length_map, length_seq).
  rewrite map_nth, seq_nth by assumption. reflexivity.
Qed.

Lemma Forall_tabulate {X : Type} (P : X -> Prop) (n : nat) (f : nat -> X) :
  (forall i, i < n -> P (f i)) -> Forall P (tabulate n f).
Proof.
  intros Hf. unfold tabulate. apply Forall_forall. intros x Hx.
  apply in_map_iff in Hx. destruct Hx as [i [<- Hi]].
  apply in_seq in Hi. apply Hf. lia.
Qed.

Lemma length_concat_uniform {X : Type} (m : nat) (rows : list (list X)) :
  Forall (fun r => length r = m) rows ->
  length (concat rows) = length rows * m.
Proof.
  induction 1 as [|r rows Hr _ IH]; simpl; [reflexivity|].
  rewrite length_app, IH, Hr. reflexivity.
Qed.

Lemma nth_concat_uniform {X : Type} (m : nat) (rows : list (list X))
  (i j : nat) (d : X) :
  Forall (fun r => length r = m) rows ->
  j < m ->
  nth (i * m + j) (concat rows) d = nth j (nth i rows []) d.
Proof.
  intros Hrows Hj. revert i.
  induction Hrows as [|r rows Hr _ IH]; intros i.
  - simpl. destruct (i * m + j), i, j; reflexivity.
  - destruct i as [|i]; simpl.
    + rewrite app_nth1 by lia. reflexivity.
    + rewrite app_nth2 by lia.
      replace (m + i * m + j - length r) with (i * m + j) by lia.
      apply IH.
Qed.

Lemma Forall_concat {X : Type} (P : X -> Prop) (ls : list (list X)) :
  Forall (Forall P) ls -> Forall P (concat ls).
Proof.
  induction 1 as [|l ls Hl _ IH]; simpl; [constructor|].
  apply Forall_app. split; assumption.
Qed.

Lemma nth_zip_with {X Y Z : Type} (f : X -> Y -> Z) (xs : list X)
  (ys : list Y) (i : nat) (dx : X) (dy : Y) (dz : Z) :
  i < length xs -> i < length ys ->
  nth i (zip_with f xs ys) dz = f (nth i xs dx) (nth i ys dy).
Proof.
  revert ys i. induction xs as [|x xs IH]; intros [|y ys] [|i]; simpl;
    intros Hx Hy; try lia; [reflexivity|].
  apply IH; lia.
Qed.

Lemma length_zip_with {X Y Z : Type} (f : X -> Y -> Z) (xs : list X)
  (ys : list Y) :
  length (zip_with f xs ys) = Nat.min (length xs) (length ys).
Proof.
  revert ys. induction xs as [|x xs IH]; intros [|y ys]; simpl; auto.
Qed.

Lemma nth_map_in {X Y : Type} (f : X -> Y) (l : list X) (i : nat)
  (dx : X) (dy : Y) :
  i < length l -> nth i (map f l) dy = f (nth i l dx).
Proof.
  intros Hi. rewrite (nth_indep _ dy (f dx)) by (now rewrite length_map).
  apply map_nth.
Qed.

(** ** The first maximum of a row

    [max_from] is correct for every dtype whose [<] is a strict weak order
    (the reals; floating point without NaN). *)

Section FirstMaximum.
Context {A : Type} `{Scalar A}.

Hypothesis ltb_irrefl : forall a : A, s_ltb a a = false.
Hypothesis ltb_trans : forall a b c : A,
  s_ltb a b = true -> s_ltb b c = true -> s_ltb a c = true.
Hypothesis ltb_cmp : forall a b c : A,
  s_ltb a b = true -> s_ltb a c = true \/ s_ltb c b = true.

Lemma max_from_first_max (xs pre : list A) (best : A) (bi : nat) :
  first_max_of pre best bi ->
  first_max_of (pre ++ xs)
    (fst (max_from best bi (length pre) xs))
    (snd (max_from best bi (length pre) xs)).
Proof.
  revert pre best bi.
  induction xs as [|x xs IH]; intros pre best bi Hinv.
  - simpl. rewrite app_nil_r. exact Hinv.
  - simpl. destruct Hinv as (Hk & Hnth & Hge & Hlt).
    replace (pre ++ x :: xs) with ((pre ++ [x]) ++ xs)
      by (rewrite <- app_assoc; reflexivity).
    replace (S (length pre)) with (length (pre ++ [x]))
      by (rewrite length_app; simpl; lia).
    destruct (s_ltb best x) eqn:Hbx; apply IH.
    + repeat split.
      * rewrite length_app. simpl. lia.
      * rewrite app_nth2 by lia. rewrite Nat.sub_diag. reflexivity.
      * intros j Hj. rewrite length_app in Hj. simpl in Hj.
        destruct (Nat.eq_dec j (length pre)) as [->|Hne].
        -- rewrite app_nth2 by lia. rewrite Nat.sub_diag. simpl.
           apply ltb_irrefl.
        -- rewrite app_nth1 by lia.
           rewrite (nth_indep _ x best) by lia.
           destruct (s_ltb x (nth j pre best)) eqn:Hx; [|reflexivity].
           rewrite <- (Hge j) by lia. symmetry.
           apply ltb_trans with x; assumption.
      * intros j Hj. rewrite app_nth1 by lia.
        rewrite (nth_indep _ x best) by lia.
        destruct (ltb_cmp best x (nth j pre best) Hbx) as [Hc|Hc]; [|exact Hc].
        rewrite Hge in Hc by lia. discriminate.
    + repeat split.
      * rewrite length_app. simpl. lia.
      * rewrite app_nth1 by lia. exact Hnth.
      * intros j Hj. rewrite length_app in Hj. simpl in Hj.
        destruct (Nat.eq_dec j (length pre)) as [->|Hne].
        -- rewrite app_nth2 by lia. rewrite Nat.sub_diag. exact Hbx.
        -- rewrite app_nth1 by lia. apply Hge. lia.
      * intros j Hj. rewrite app_nth1 by lia. apply Hlt. exact Hj.
Qed.

Lemma max_row_first_max (xs : list A) :
  xs <> [] ->
  first_max_of xs (fst (max_row xs)) (snd (max_row xs)).
Proof.
  destruct xs as [|x xs]; [congruence|]. intros _.
  unfold max_row.
  change (x :: xs) with ([x] ++ xs).
  change 1 with (length [x]).
  apply max_from_first_max.
  repeat split; simpl; try lia.
  intros [|j] Hj; [apply ltb_irrefl | lia].
Qed.

End FirstMaximum.

(** ** The distance matrix *)

Section Distances.
Context {A : Type} `{Scalar A}.

Lemma zip_with_map_same {X Y Z W : Type} (f : Y -> Z -> W) (g : X -> Y)
  (h : X -> Z) (l : list X) :
  zip_with f (map g l) (map h l) = map (fun x => f (g x) (h x)) l.
Proof. induction l as [|x l IH]; simpl; [reflexivity | now rewrite IH]. Qed.

Lemma distances_rows (F W : T2 A) :
  VQVAEQuantize.distances F W = map (fun f => map (expanded_distance f) W) F.
Proof.
  unfold VQVAEQuantize.distances, add_row, sub_col, matmul_t, scale2.
  induction F as [|f F IH]; simpl; [reflexivity|].
  f_equal; [|exact IH].
  rewrite map_map, zip_with_map_same. reflexivity.
Qed.

Lemma nearest_rows (F W : T2 A) :
  VQVAEQuantize.nearest (VQVAEQuantize.distances F W) =
  map (fun f => snd (max_row (map s_neg (map (expanded_distance f) W)))) F.
Proof.
  unfold VQVAEQuantize.nearest, max1. simpl. rewrite distances_rows, !map_map. reflexivity.
Qed.

End Distances.

(** ** Indexing the flattened grid *)

Lemma nth_reshape_rows {X : Type} (B H W : nat) (t : T3 X)
  (b h w : nat) (d : X) :
  has_shape3 B H W t -> h < H -> w < W ->
  nth ((b * H + h) * W + w) (concat (concat t)) d
  = nth w (nth h (nth b t []) []) d.
Proof.
  intros [_ Ht] Hh Hw.
  rewrite (@nth_concat_uniform _ W).
  - rewrite (@nth_concat_uniform _ H); [reflexivity| |exact Hh].
    eapply Forall_impl; [|exact Ht]. intros p [Hp _]. exact Hp.
  - apply Forall_concat. eapply Forall_impl; [|exact Ht].
    intros p [_ Hp]. exact Hp.
  - exact Hw.
Qed.

Lemma length_reshape_rows {X : Type} (B H W : nat) (t : T3 X) :
  has_shape3 B H W t -> length (concat (concat t)) = B * H * W.
Proof.
  intros [HB Ht].
  rewrite (@length_concat_uniform _ W).
  - rewrite (@length_concat_uniform _ H), HB; [reflexivity|].
    eapply Forall_impl; [|exact Ht]. intros p [Hp _]. exact Hp.
  - apply Forall_concat. eapply Forall_impl; [|exact Ht].
    intros p [_ Hp]. exact Hp.
Qed.

Lemma flat_index_bound (B H W b h w : nat) :
  b < B -> h < H -> w < W -> (b * H + h) * W + w < B * H * W.
Proof.
  intros Hb Hh Hw.
  assert (Hrow : b * H + h + 1 <= B * H) by nia.
  assert (Hcol : (b * H + h + 1) * W <= B * H * W)
    by (apply Nat.mul_le_mono_r; exact Hrow).
  lia.
Qed.

Lemma has_shape3_tabulate {X : Type} (B H W : nat) (f : nat -> nat -> nat -> X) :
  has_shape3 B H W
    (tabulate B (fun b => tabulate H (fun h => tabulate W (fun w => f b h w)))).
Proof.
  split; [apply length_tabulate|].
  apply Forall_tabulate. intros b _. split; [apply length_tabulate|].
  apply Forall_tabulate. intros h _. apply length_tabulate.
Qed.

Lemma get3_view3 {X : Type} (d : X) (B H W : nat) (v : list X) (b h w : nat) :
  b < B -> h < H -> w < W ->
  get3 d (view3 d B H W v) b h w = nth ((b * H + h) * W + w) v d.
Proof.
  intros Hb Hh Hw. unfold get3, view3.
  rewrite (nth_tabulate _ _ Hb), (nth_tabulate _ _ Hh), (nth_tabulate _ _ Hw).
  reflexivity.
Qed.

(** ** Shapes of the gathered codes and element-wise operations *)

Lemma zip_with_app {X Y Z : Type} (f : X -> Y -> Z) (a a' : list X)
  (b b' : list Y) :
  length a = length b ->
  zip_with f (a ++ a') (b ++ b') = zip_with f a b ++ zip_with f a' b'.
Proof.
  revert b. induction a as [|x a IH]; intros [|y b] Hlen; simpl in *;
    try discriminate; [reflexivity|].
  f_equal. apply IH. lia.
Qed.

Lemma concat_zip_with {X Y Z : Type} (f : X -> Y -> Z) (m : nat)
  (a : list (list X)) (b : list (list Y)) :
  Forall (fun r => length r = m) a ->
  Forall (fun r => length r = m) b ->
  concat (zip_with (zip_with f) a b) = zip_with f (concat a) (concat b).
Proof.
  intros Ha. revert b.
  induction Ha as [|r a Hr _ IH]; intros b Hb.
  - reflexivity.
  - destruct Hb as [|r' b Hr' Hb]; simpl.
    + destruct (r ++ concat a); reflexivity.
    + rewrite zip_with_app by congruence. f_equal. apply IH. exact Hb.
Qed.

Lemma map_zip_with {X Y Z W : Type} (g : Z -> W) (f : X -> Y -> Z)
  (a : list X) (b : list Y) :
  map g (zip_with f a b) = zip_with (fun x y => g (f x y)) a b.
Proof.
  revert b. induction a as [|x a IH]; intros [|y b]; simpl;
    try reflexivity. now rewrite IH.
Qed.

Lemma elements4_map4 {X Y : Type} (g : X -> Y) (t : T4 X) :
  elements4 (map4 g t) = map g (elements4 t).
Proof.
  unfold elements4, map4. now rewrite !concat_map.
Qed.

Lemma elements4_zip_with4 {X Y Z : Type} (f : X -> Y -> Z) (Hh W D : nat)
  (s : T4 X) (t : T4 Y) :
  uniform4 Hh W D s -> uniform4 Hh W D t ->
  elements4 (zip_with4 f s t) = zip_with f (elements4 s) (elements4 t).
Proof.
  intros (Hs1 & Hs2 & Hs3) (Ht1 & Ht2 & Ht3).
  unfold elements4, zip_with4.
  rewrite (concat_zip_with _ Hs1 Ht1).
  rewrite (concat_zip_with _ Hs2 Ht2).
  apply (concat_zip_with _ Hs3 Ht3).
Qed.

Lemma uniform4_tabulate {X : Type} (B Hh W D : nat)
  (f : nat -> nat -> nat -> list X) :
  (forall b h w, b < B -> h < Hh -> w < W -> length (f b h w) = D) ->
  uniform4 Hh W D
    (tabulate B (fun b => tabulate Hh (fun h => tabulate W (fun w => f b h w)))).
Proof.
  intros Hf. repeat split.
  - apply Forall_tabulate. intros b _. apply length_tabulate.
  - apply Forall_concat, Forall_tabulate. intros b _.
    apply Forall_tabulate. intros h _. apply length_tabulate.
  - apply Forall_concat, Forall_concat, Forall_tabulate. intros b Hb.
    apply Forall_tabulate. intros h Hh'. apply Forall_tabulate.
    intros w Hw. apply Hf; assumption.
Qed.

Lemma length_elements4 {X : Type} (B Hh W D : nat) (t : T4 X) :
  length t = B -> uniform4 Hh W D t ->
  length (elements4 t) = B * Hh * W * D.
Proof.
  intros HB (H1 & H2 & H3). unfold elements4.
  rewrite (length_concat_uniform H3), (length_concat_uniform H2),
    (length_concat_uniform H1), HB. reflexivity.
Qed.

Lemma map_tabulate {X Y : Type} (g : X -> Y) (n : nat) (f : nat -> X) :
  map g (tabulate n f) = tabulate n (fun i => g (f i)).
Proof. unfold tabulate. apply map_map. Qed.

Lemma tabulate_ext {X : Type} (n : nat) (f g : nat -> X) :
  (forall i, i < n -> f i = g i) -> tabulate n f = tabulate n g.
Proof.
  intros Hfg. unfold tabulate. apply map_ext_in. intros i Hi.
  apply in_seq in Hi. apply Hfg. lia.
Qed.

(** The gathered codes as a table: the code of index [idx b h w] at each
    location. *)
Lemma embedding_view3 {A : Type} (B Hh W : nat) (v : list nat) (Wt : T2 A) :
  embedding (view3 0 B Hh W v) Wt =
  tabulate B (fun b => tabulate Hh (fun h => tabulate W (fun w =>
    nth (nth ((b * Hh + h) * W + w) v 0) Wt []))).
Proof.
  unfold embedding, view3. rewrite map_tabulate.
  apply tabulate_ext. intros b _. rewrite map_tabulate.
  apply tabulate_ext. intros h _. rewrite map_tabulate. reflexivity.
Qed.

Section IndexBound.
Context {A : Type} `{Scalar A}.

Lemma max_from_index (xs : list A) (best : A) (bi i : nat) :
  snd (max_from best bi i xs) = bi \/
  (i <= snd (max_from best bi i xs) < i + length xs).
Proof.
  revert best bi i. induction xs as [|x xs IH]; intros best bi i; simpl.
  - left. reflexivity.
  - destruct (s_ltb best x).
    + destruct (IH x i (S i)) as [-> | Hr]; right; lia.
    + destruct (IH best bi (S i)) as [-> | Hr]; [left; reflexivity | right; lia].
Qed.

(** The index [max] returns is a position of the row, whatever the order
    of the dtype. *)
Lemma max_row_index (xs : list A) :
  xs <> [] -> snd (max_row xs) < length xs.
Proof.
  destruct xs as [|x xs]; [congruence|]. intros _. simpl.
  destruct (max_from_index xs x 0 1) as [-> | Hr]; lia.
Qed.

End IndexBound.

Lemma zip_with_tabulate {X Y Z : Type} (f : X -> Y -> Z) (n : nat)
  (g : nat -> X) (h : nat -> Y) :
  zip_with f (tabulate n g) (tabulate n h) = tabulate n (fun i => f (g i) (h i)).
Proof.
  unfold tabulate. induction (seq 0 n) as [|i l IH]; simpl;
    [reflexivity | now rewrite IH].
Qed.

Section Gathered.
Context {A : Type} `{Scalar A}.

Lemma nearest_in_range (F Wt : T2 A) (i : nat) :
  Wt <> [] ->
  nth i (VQVAEQuantize.nearest (VQVAEQuantize.distances F Wt)) 0 < length Wt.
Proof.
  intros HW. rewrite nearest_rows.
  destruct (Nat.lt_ge_cases i (length F)) as [Hi|Hi].
  - rewrite nth_map_in with (dx := []) by exact Hi.
    set (row := map s_neg _).
    assert (Hrow : length row = length Wt)
      by (unfold row; now rewrite !length_map).
    rewrite <- Hrow. apply max_row_index.
    destruct row; [|discriminate]. destruct Wt; [congruence | discriminate].
  - rewrite nth_overflow by (now rewrite length_map).
    destruct Wt; [congruence | simpl; lia].
Qed.

Lemma gathered_uniform (B Hh W D : nat) (F Wt : T2 A) :
  Wt <> [] -> Forall (fun e => length e = D) Wt ->
  uniform4 Hh W D
    (embedding
       (view3 0 B Hh W (VQVAEQuantize.nearest (VQVAEQuantize.distances F Wt)))
       Wt).
Proof.
  intros HW Hrows. rewrite embedding_view3. apply uniform4_tabulate.
  intros b h w _ _ _. rewrite Forall_forall in Hrows. apply Hrows.
  apply nth_In. apply nearest_in_range. exact HW.
Qed.

End Gathered.

(** ** What [forward] returns, component by component *)

Section ForwardEquations.
Context {A : Type} `{Scalar A}.
Variable Rng : Type.
Variable randperm : Rng -> nat -> list nat.
Variable kmeans2 : Rng -> T2 A -> nat -> T2 A.

Local Abbreviation forward := (VQVAEQuantize.forward randperm kmeans2).
Local Abbreviation run_kmeans := (VQVAEQuantize.run_kmeans randperm kmeans2).

Lemma forward_state (q : VQVAEQuantize.t) (z : T4 A) (g : Rng) :
  fst (fst (forward q z g)) =
  if VQVAEQuantize.needs_seeding q
  then run_kmeans q (reshape_rows (VQVAEQuantize.project q z)) g
  else q.
Proof.
  unfold VQVAEQuantize.forward.
  destruct (size4 z) as [[[B C] Hh] W].
  destruct (VQVAEQuantize.needs_seeding q); reflexivity.
Qed.

Lemma forward_printed (q : VQVAEQuantize.t) (z : T4 A) (g : Rng) :
  snd (fst (forward q z g)) =
  if VQVAEQuantize.needs_seeding q then ["running kmeans!!"%string] else [].
Proof.
  unfold VQVAEQuantize.forward.
  destruct (size4 z) as [[[B C] Hh] W].
  destruct (VQVAEQuantize.needs_seeding q); reflexivity.
Qed.

Lemma forward_ind (q : VQVAEQuantize.t) (z : T4 A) (g : Rng) :
  snd (snd (forward q z g)) =
  let '(B, _, Hh, W) := size4 z in
  view3 0 B Hh W
    (VQVAEQuantize.nearest
       (VQVAEQuantize.distances
          (reshape_rows (VQVAEQuantize.project q z))
          (VQVAEQuantize.embed_weight (fst (fst (forward q z g)))))).
Proof.
  rewrite forward_state.
  unfold VQVAEQuantize.forward.
  destruct (size4 z) as [[[B C] Hh] W].
  destruct (VQVAEQuantize.needs_seeding q); reflexivity.
Qed.

Lemma project_shape (q : VQVAEQuantize.t) (z : T4 A) (B C Hh W : nat) :
  size4 z = (B, C, Hh, W) ->
  has_shape3 B Hh W (VQVAEQuantize.project q z).
Proof.
  intros Hs. unfold VQVAEQuantize.project, permute_0231. rewrite Hs.
  apply has_shape3_tabulate.
Qed.

Lemma flatten_row (q : VQVAEQuantize.t) (z : T4 A) (B C Hh W b h w : nat) :
  size4 z = (B, C, Hh, W) -> h < Hh -> w < W ->
  nth ((b * Hh + h) * W + w) (reshape_rows (VQVAEQuantize.project q z)) []
  = VQVAEQuantize.feature q z b h w.
Proof.
  intros Hs Hh' Hw. unfold reshape_rows, VQVAEQuantize.feature.
  apply nth_reshape_rows with (B := B); [|assumption|assumption].
  apply project_shape with (C := C). exact Hs.
Qed.

Lemma length_feature (q : VQVAEQuantize.t) (z : T4 A) (B C Hh W b h w : nat) :
  size4 z = (B, C, Hh, W) -> b < B -> h < Hh -> w < W ->
  length (VQVAEQuantize.feature q z b h w)
  = conv_out (VQVAEQuantize.proj q).
Proof.
  intros Hs Hb Hh' Hw.
  unfold VQVAEQuantize.feature, VQVAEQuantize.project, permute_0231.
  rewrite Hs.
  rewrite (nth_tabulate _ _ Hb), (nth_tabulate _ _ Hh'), (nth_tabulate _ _ Hw).
  apply length_tabulate.
Qed.

(** The index the call selects at a location: the first maximum of the
    negated distances of that location's feature vector. *)
Lemma forward_ind_at (q : VQVAEQuantize.t) (z : T4 A) (g : Rng)
  (B C Hh W b h w : nat) :
  size4 z = (B, C, Hh, W) -> b < B -> h < Hh -> w < W ->
  get3 0 (snd (snd (forward q z g))) b h w =
  snd (max_row (map s_neg
         (map (expanded_distance (VQVAEQuantize.feature q z b h w))
            (VQVAEQuantize.embed_weight (fst (fst (forward q z g))))))).
Proof.
  intros Hs Hb Hh' Hw. rewrite forward_ind, Hs.
  rewrite get3_view3 by assumption.
  rewrite nearest_rows.
  rewrite nth_map_in with (dx := []).
  - rewrite flatten_row with (B := B) (C := C) by assumption. reflexivity.
  - unfold reshape_rows.
    rewrite length_reshape_rows with (B := B) (H := Hh) (W := W)
      by (apply project_shape with (C := C); exact Hs).
    apply flat_index_bound; assumption.
Qed.

Lemma forward_diff (q : VQVAEQuantize.t) (z : T4 A) (g : Rng) :
  let r := forward q z g in
  let z_e := VQVAEQuantize.project q z in
  let z_q := VQVAEQuantize.embed_code (fst (fst r)) (snd (snd r)) in
  snd (fst (snd r)) =
  s_add
    (s_mul VQVAEQuantize.commitment_cost
       (mean4 (map4 s_pow2 (zip_with4 s_sub z_q z_e))))
    (mean4 (map4 s_pow2 (zip_with4 s_sub z_q z_e))).
Proof.
  unfold VQVAEQuantize.forward.
  destruct (size4 z) as [[[B C] Hh] W].
  destruct (VQVAEQuantize.needs_seeding q); reflexivity.
Qed.

Lemma forward_quantized (q : VQVAEQuantize.t) (z : T4 A) (g : Rng)
  (B C Hh W : nat) :
  size4 z = (B, C, Hh, W) ->
  let r := forward q z g in
  let z_e := VQVAEQuantize.project q z in
  let z_q := VQVAEQuantize.embed_code (fst (fst r)) (snd (snd r)) in
  fst (fst (snd r)) =
  permute_0312 s_zero
    (B, Hh, W, VQVAEQuantize.embedding_dim (fst (fst r)))
    (zip_with4 s_add z_e (zip_with4 s_sub z_q z_e)).
Proof.
  intros Hs. unfold VQVAEQuantize.forward. rewrite Hs.
  destruct (VQVAEQuantize.needs_seeding q); reflexivity.
Qed.

Lemma project_table (q : VQVAEQuantize.t) (z : T4 A) (B C Hh W : nat) :
  size4 z = (B, C, Hh, W) ->
  VQVAEQuantize.project q z =
  tabulate B (fun b => tabulate Hh (fun h => tabulate W (fun w =>
    VQVAEQuantize.feature q z b h w))).
Proof.
  intros Hs. unfold VQVAEQuantize.feature.
  unfold VQVAEQuantize.project at 1. unfold permute_0231. rewrite Hs.
  apply tabulate_ext. intros b Hb. apply tabulate_ext. intros h Hh'.
  apply tabulate_ext. intros w Hw.
  unfold VQVAEQuantize.project, permute_0231. rewrite Hs.
  rewrite (nth_tabulate _ _ Hb), (nth_tabulate _ _ Hh'), (nth_tabulate _ _ Hw).
  reflexivity.
Qed.

Lemma project_uniform (q : VQVAEQuantize.t) (z : T4 A) (B C Hh W : nat) :
  size4 z = (B, C, Hh, W) ->
  uniform4 Hh W (conv_out (VQVAEQuantize.proj q)) (VQVAEQuantize.project q z).
Proof.
  intros Hs. rewrite (project_table q Hs). apply uniform4_tabulate.
  intros b h w Hb Hh' Hw.
  apply length_feature with (B := B) (C := C) (Hh := Hh) (W := W); assumption.
Qed.

(** The gathered codes [embed_code(ind)] of a call, as a table. *)
Lemma forward_gathered (q : VQVAEQuantize.t) (z : T4 A) (g : Rng)
  (B C Hh W : nat) :
  size4 z = (B, C, Hh, W) ->
  let r := forward q z g in
  VQVAEQuantize.embed_code (fst (fst r)) (snd (snd r)) =
  tabulate B (fun b => tabulate Hh (fun h => tabulate W (fun w =>
    nth (get3 0 (snd (snd r)) b h w)
        (VQVAEQuantize.embed_weight (fst (fst r))) []))).
Proof.
  intros Hs r. unfold VQVAEQuantize.embed_code.
  pose proof (forward_ind q z g) as Hind. rewrite Hs in Hind. fold r in Hind.
  set (v := VQVAEQuantize.nearest _) in Hind.
  rewrite Hind, embedding_view3.
  apply tabulate_ext. intros b Hb. apply tabulate_ext. intros h Hh'.
  apply tabulate_ext. intros w Hw.
  rewrite get3_view3 by assumption. reflexivity.
Qed.

Lemma forward_gathered_uniform (q : VQVAEQuantize.t) (z : T4 A) (g : Rng)
  (B C Hh W : nat) :
  size4 z = (B, C, Hh, W) ->
  let r := forward q z g in
  VQVAEQuantize.well_formed (fst (fst r)) ->
  uniform4 Hh W (VQVAEQuantize.embedding_dim (fst (fst r)))
    (VQVAEQuantize.embed_code (fst (fst r)) (snd (snd r))).
Proof.
  intros Hs r (_ & (Hlen & Hrows) & Hpos).
  unfold VQVAEQuantize.embed_code.
  pose proof (forward_ind q z g) as Hind. rewrite Hs in Hind. fold r in Hind.
  rewrite Hind. apply gathered_uniform; [|exact Hrows].
  intros Hnil. rewrite Hnil in Hlen. simpl in Hlen. lia.
Qed.

Lemma forward_keeps_proj (q : VQVAEQuantize.t) (z : T4 A) (g : Rng) :
  VQVAEQuantize.proj (fst (fst (forward q z g))) = VQVAEQuantize.proj q.
Proof.
  rewrite forward_state. destruct (VQVAEQuantize.needs_seeding q); reflexivity.
Qed.

(** The returned grid, entry by entry: the straight-through recombination
    of line 61 at the coordinate [c] of the location [(b, h, w)]. *)
Lemma forward_quantized_at (q : VQVAEQuantize.t) (z : T4 A) (g : Rng)
  (B C Hh W b c h w : nat) :
  size4 z = (B, C, Hh, W) ->
  let r := forward q z g in
  VQVAEQuantize.well_formed (fst (fst r)) ->
  b < B -> c < VQVAEQuantize.embedding_dim (fst (fst r)) -> h < Hh -> w < W ->
  let x := nth c (VQVAEQuantize.feature q z b h w) s_zero in
  let e := nth c (nth (get3 0 (snd (snd r)) b h w)
                    (VQVAEQuantize.embed_weight (fst (fst r))) []) s_zero in
  get4 s_zero (fst (fst (snd r))) b c h w = s_add x (s_sub e x).
Proof.
  intros Hs r Hwf Hb Hc Hh' Hw x e.
  pose proof (forward_gathered_uniform q g Hs Hwf) as (_ & _ & Hq3).
  destruct Hwf as (Hout & (Hlen & Hrows) & Hpos).
  unfold r. rewrite (forward_quantized q g Hs). fold r.
  unfold permute_0312, get4 at 1.
  rewrite (nth_tabulate _ _ Hb), (nth_tabulate _ _ Hc),
    (nth_tabulate _ _ Hh'), (nth_tabulate _ _ Hw).
  pose proof (forward_gathered q g Hs) as Hgat. cbv zeta in Hgat.
  fold r in Hgat. rewrite Hgat.
  rewrite (project_table q Hs).
  unfold zip_with4, get4.
  rewrite !zip_with_tabulate, (nth_tabulate _ _ Hb).
  rewrite !zip_with_tabulate, (nth_tabulate _ _ Hh').
  rewrite !zip_with_tabulate, (nth_tabulate _ _ Hw).
  assert (Hx : length (VQVAEQuantize.feature q z b h w)
               = VQVAEQuantize.embedding_dim (fst (fst r))).
  { rewrite length_feature with (B := B) (C := C) (Hh := Hh) (W := W)
      by assumption.
    rewrite <- Hout. unfold r. now rewrite forward_keeps_proj. }
  assert (He : length (nth (get3 0 (snd (snd r)) b h w)
                 (VQVAEQuantize.embed_weight (fst (fst r))) [])
               = VQVAEQuantize.embedding_dim (fst (fst r))).
  { rewrite Forall_forall in Hrows. apply Hrows. apply nth_In.
    pose proof (forward_ind q z g) as Hind. rewrite Hs in Hind.
    fold r in Hind. rewrite Hind, get3_view3 by assumption.
    apply nearest_in_range. intros Hnil. rewrite Hnil in Hlen.
    simpl in Hlen. lia. }
  rewrite nth_zip_with with (dx := s_zero) (dy := s_zero).
  - rewrite nth_zip_with with (dx := s_zero) (dy := s_zero); [reflexivity| |];
      lia.
  - lia.
  - rewrite length_zip_with. lia.
Qed.

End ForwardEquations.


(** ** Real arithmetic *)

Lemma R_ltb_true (a b : R) : s_ltb a b = true <-> (a < b)%R.
Proof.
  simpl. destruct (Rlt_dec a b); split; intros; try assumption;
    try reflexivity; try discriminate; contradiction.
Qed.

Lemma R_ltb_false (a b : R) : s_ltb a b = false <-> (b <= a)%R.
Proof.
  simpl. destruct (Rlt_dec a b); split; intros; try reflexivity;
    try discriminate; lra.
Qed.

Lemma R_ltb_irrefl (a : R) : s_ltb a a = false.
Proof. apply R_ltb_false. lra. Qed.

Lemma R_ltb_trans (a b c : R) :
  s_ltb a b = true -> s_ltb b c = true -> s_ltb a c = true.
Proof. rewrite !R_ltb_true. lra. Qed.

Lemma R_ltb_cmp (a b c : R) :
  s_ltb a b = true -> s_ltb a c = true \/ s_ltb c b = true.
Proof.
  rewrite !R_ltb_true. intros Hab.
  destruct (Rlt_dec a c); [left; assumption | right; lra].
Qed.

(** Over the reals the expansion of lines 48-52 is the squared distance. *)
Lemma expanded_distance_exact (x w : list R) :
  length x = length w ->
  expanded_distance x w = squared_distance x w.
Proof.
  unfold expanded_distance, squared_distance, sumsq, dot, s_pow2.
  revert w. induction x as [|a x IH]; intros [|b w] Hlen;
    try discriminate; simpl in *.
  - lra.
  - injection Hlen as Hlen. specialize (IH w Hlen). lra.
Qed.

(** ** The selected index is the first minimum of the computed distances *)

Section FirstMaximumOn.
Context {A : Type} `{Scalar A}.



Variable l : list A.
Hypothesis order_on_l : strict_weak_order_on l = true.


End FirstMaximumOn.


(** Every row of reals passes the checks: [<] is a strict weak order on the
    reals and negation reverses it. *)
Lemma ordered_distances_real (d : list R) : ordered_distances d = true.
Proof.
  unfold ordered_distances, strict_weak_order_on, negation_reverses.
  rewrite !andb_true_iff. repeat split.
  - apply forallb_forall. intros a _. now rewrite R_ltb_irrefl.
  - apply forallb_forall. intros a _. apply forallb_forall. intros b _.
    apply forallb_forall. intros c _.
    destruct (s_ltb a b) eqn:Hab; [|reflexivity].
    destruct (s_ltb b c) eqn:Hbc; [|reflexivity].
    now rewrite (R_ltb_trans a b c Hab Hbc).
  - apply forallb_forall. intros a _. apply forallb_forall. intros b _.
    apply forallb_forall. intros c _.
    destruct (s_ltb a b) eqn:Hab; [|reflexivity].
    destruct (R_ltb_cmp a b c Hab) as [-> | ->]; simpl;
      [reflexivity | apply orb_true_r].
  - apply forallb_forall. intros a _. apply forallb_forall. intros b _.
    apply eqb_true_iff. simpl.
    destruct (Rlt_dec (- a) (- b)), (Rlt_dec b a); try reflexivity; lra.
Qed.




(** The same in binary32, the default dtype, with the feature [2^13] and
    the codes [2^13 - 1] and [2^13]: [(2^13 - 1)^2] rounds to
    [2^26 - 2^14]. *)
Lemma forward_index_not_nearest_binary32 :
  let q := cancelling_quantizer (A := float32) 13 in
  let z := cancelling_grid (A := float32) 13 in
  let r := VQVAEQuantize.forward example_randperm example_kmeans2 q z tt in
  let codebook := VQVAEQuantize.embed_weight (fst (fst r)) in
  let dist :=
    VQVAEQuantize.distances
      (reshape_rows (VQVAEQuantize.project q z)) codebook in
  let f := VQVAEQuantize.feature q z 0 0 0 in
  let k := get3 0 (snd (snd r)) 0 0 0 in
  nth 0 dist [] = [Float32 0%float; Float32 0%float] /\
  k = 0 /\
  squared_distance f (nth 0 codebook []) = Float32 1%float /\
  squared_distance f (nth 1 codebook []) = Float32 0%float.
Proof. vm_compute. repeat split; reflexivity. Qed.

(** ** The auxiliary loss and the returned grid *)

Lemma mean_list_squares {A : Type} `{Scalar A} (a b : list A) :
  length a = length b ->
  mean_list (map s_pow2 (zip_with s_sub a b)) = mse_loss a b.
Proof.
  intros Hlen. unfold mean_list, mse_loss.
  rewrite map_zip_with, length_zip_with, <- Hlen, Nat.min_id. reflexivity.
Qed.

(** The loss of line 59 for every dtype: the commitment cost times the mean
    squared error, plus the mean squared error, over B*H*W*D elements. *)
Lemma forward_diff_mse {A : Type} `{Scalar A}
  (Rng : Type) (randperm : Rng -> nat -> list nat)
  (kmeans2 : Rng -> T2 A -> nat -> T2 A)
  (q : VQVAEQuantize.t) (z : T4 A) (g : Rng) (B C Hh W : nat) :
  let r := VQVAEQuantize.forward randperm kmeans2 q z g in
  let q' := fst (fst r) in
  let z_e := elements4 (VQVAEQuantize.project q z) in
  let z_q := elements4 (VQVAEQuantize.embed_code q' (snd (snd r))) in
  size4 z = (B, C, Hh, W) ->
  VQVAEQuantize.well_formed q' ->
  snd (fst (snd r)) =
    s_add (s_mul VQVAEQuantize.commitment_cost (mse_loss z_q z_e))
          (mse_loss z_q z_e) /\
  length z_q = B * Hh * W * VQVAEQuantize.embedding_dim q' /\
  length z_e = B * Hh * W * VQVAEQuantize.embedding_dim q'.
Proof.
  intros r q' z_e z_q Hs Hwf.
  pose proof (forward_gathered_uniform randperm kmeans2 q g Hs Hwf) as Hq.
  pose proof (project_uniform q Hs) as He.
  assert (Hout : conv_out (VQVAEQuantize.proj q)
                 = VQVAEQuantize.embedding_dim q').
  { destruct Hwf as (Hout & _). rewrite <- Hout. unfold q', r.
    now rewrite forward_keeps_proj. }
  rewrite Hout in He. fold r q' in Hq.
  assert (Hlq : length z_q = B * Hh * W * VQVAEQuantize.embedding_dim q').
  { unfold z_q. apply length_elements4; [|exact Hq].
    unfold q', r. rewrite (forward_gathered randperm kmeans2 q g Hs).
    apply length_tabulate. }
  assert (Hle : length z_e = B * Hh * W * VQVAEQuantize.embedding_dim q').
  { unfold z_e. apply length_elements4; [|exact He].
    rewrite (project_table q Hs). apply length_tabulate. }
  repeat split; try assumption.
  unfold r. rewrite forward_diff. fold r q'. unfold mean4.
  rewrite elements4_map4, (elements4_zip_with4 _ Hq He).
  fold z_q z_e. rewrite mean_list_squares by congruence. reflexivity.
Qed.



(** Where line 61 is the no-op its comment says: when [a + (b - a) = b]
    holds in the arithmetic of the tensors, as it does over the reals, the
    returned grid is the grid of the gathered codes in channel-first
    layout; the recombination changes no value, and [detach] none
    either. *)
Theorem forward_returns_gathered_codes {A : Type} `{Scalar A}
  (Rng : Type) (randperm : Rng -> nat -> list nat)
  (kmeans2 : Rng -> T2 A -> nat -> T2 A)
  (q : VQVAEQuantize.t) (z : T4 A) (g : Rng) (B C Hh W : nat) :
  let r := VQVAEQuantize.forward randperm kmeans2 q z g in
  let q' := fst (fst r) in
  (forall a b : A, s_add a (s_sub b a) = b) ->
  size4 z = (B, C, Hh, W) ->
  VQVAEQuantize.well_formed q' ->
  fst (fst (snd r)) =
  permute_0312 s_zero (B, Hh, W, VQVAEQuantize.embedding_dim q')
    (VQVAEQuantize.embed_code q' (snd (snd r))).
Proof.
  intros r q' Hexact Hs Hwf.
  unfold r at 1. rewrite (forward_quantized randperm kmeans2 q g Hs). fold r q'.
  unfold permute_0312.
  apply tabulate_ext. intros b Hb. apply tabulate_ext. intros c Hc.
  apply tabulate_ext. intros h Hh'. apply tabulate_ext. intros w Hw.
  pose proof (@forward_quantized_at _ _ _ randperm kmeans2 q z g B C Hh W b c h w Hs Hwf Hb Hc Hh' Hw) as Hat.
  cbv zeta in Hat. fold r q' in Hat.
  unfold r at 1 in Hat. rewrite (forward_quantized randperm kmeans2 q g Hs) in Hat.
  fold r q' in Hat. unfold permute_0312 in Hat. unfold get4 at 1 in Hat.
  rewrite (nth_tabulate _ _ Hb), (nth_tabulate _ _ Hc),
    (nth_tabulate _ _ Hh'), (nth_tabulate _ _ Hw) in Hat.
  rewrite Hat.
  pose proof (forward_gathered randperm kmeans2 q g Hs) as Hgat. cbv zeta in Hgat.
  fold r q' in Hgat. rewrite Hgat. unfold get4.
  rewrite (nth_tabulate _ _ Hb), (nth_tabulate _ _ Hh'), (nth_tabulate _ _ Hw).
  apply Hexact.
Qed.

Lemma forward_returns_gathered_codes_witness :
  let q := VQVAEQuantize.train false (example_quantizer (A := R)) in
  let r := VQVAEQuantize.forward example_randperm example_kmeans2 q
             example_grid tt in
  fst (fst (snd r)) =
  permute_0312 s_zero (1, 1, 2, VQVAEQuantize.embedding_dim (fst (fst r)))
    (VQVAEQuantize.embed_code (fst (fst r)) (snd (snd r))).
Proof.
  intros q r.
  apply (@forward_returns_gathered_codes R _ unit example_randperm
           example_kmeans2 q example_grid tt 1 2 1 2).
  - intros a b. simpl. lra.
  - reflexivity.
  - rewrite forward_state.
    change (VQVAEQuantize.needs_seeding q) with false. cbv iota.
    unfold VQVAEQuantize.well_formed, has_shape2. simpl.
    repeat split; try lia. repeat constructor.
Defined.

(** C2: line 61 is no no-op in the forward pass of a floating-point
    dtype.  With the projected value [1] and the single code [2^-60] the
    difference [2^-60 - 1] rounds to [-1], in binary32 as in binary64, and
    [1 + -1] is [0]: the call gathers the code [2^-60] and returns [0]. *)
Lemma forward_returns_zero_for_tiny_code :
  let r32 := VQVAEQuantize.forward example_randperm example_kmeans2
               (tiny_code_quantizer (A := float32)) unit_grid tt in
  let r64 := VQVAEQuantize.forward example_randperm example_kmeans2
               (tiny_code_quantizer (A := float)) unit_grid tt in
  VQVAEQuantize.project (tiny_code_quantizer (A := float32)) unit_grid
    = [[[[Float32 1%float]]]] /\
  VQVAEQuantize.embed_code (fst (fst r32)) (snd (snd r32))
    = [[[[Float32 0x1p-60%float]]]] /\
  fst (fst (snd r32)) = [[[[Float32 0%float]]]] /\
  VQVAEQuantize.project (tiny_code_quantizer (A := float)) unit_grid
    = [[[[1%float]]]] /\
  VQVAEQuantize.embed_code (fst (fst r64)) (snd (snd r64))
    = [[[[0x1p-60%float]]]] /\
  fst (fst (snd r64)) = [[[[0%float]]]].
Proof. vm_compute. repeat split; reflexivity. Qed.

(** In binary64 the returned grid is not the grid of the gathered codes at
    that input. *)
Lemma forward_rounds_gathered_codes_binary64 :
  let q := tiny_code_quantizer (A := float) in
  let r := VQVAEQuantize.forward example_randperm example_kmeans2 q
             unit_grid tt in
  VQVAEQuantize.well_formed (fst (fst r)) /\
  size4 (unit_grid (A := float)) = (1, 1, 1, 1) /\
  fst (fst (snd r)) <>
  permute_0312 s_zero (1, 1, 1, VQVAEQuantize.embedding_dim (fst (fst r)))
    (VQVAEQuantize.embed_code (fst (fst r)) (snd (snd r))).
Proof.
  intros q r. split; [|split].
  - vm_compute. repeat split; try lia. repeat constructor.
  - reflexivity.
  - intros Heq.
    apply (f_equal (fun t => PrimFloat.eqb (get4 PrimFloat.zero t 0 0 0 0)
                               PrimFloat.zero)) in Heq.
    vm_compute in Heq. discriminate.
Qed.

(** The same with everyday values: the projected value [0.5] and the code
    [0.1] return [0.09999999999999998]. *)
Lemma forward_rounds_tenth_binary64 :
  let r := VQVAEQuantize.forward example_randperm example_kmeans2
             (tenth_code_quantizer (A := float)) half_grid tt in
  VQVAEQuantize.embed_code (fst (fst r)) (snd (snd r))
    = [[[[0x1.999999999999ap-4%float]]]] /\
  fst (fst (snd r)) = [[[[0x1.9999999999998p-4%float]]]].
Proof. vm_compute. split; reflexivity. Qed.

(** ** The one-time seeding *)

Section Seeding.
Context {A : Type} `{Scalar A}.
Variable Rng : Type.
Variable randperm : Rng -> nat -> list nat.
Variable kmeans2 : Rng -> T2 A -> nat -> T2 A.

Local Abbreviation forward := (VQVAEQuantize.forward randperm kmeans2).
Local Abbreviation run := (VQVAEQuantize.run randperm kmeans2).

Lemma forward_fst (q : VQVAEQuantize.t) (z : T4 A) (g : Rng) :
  fst (forward q z g) =
  if VQVAEQuantize.needs_seeding q
  then (VQVAEQuantize.run_kmeans randperm kmeans2 q
          (reshape_rows (VQVAEQuantize.project q z)) g,
        ["running kmeans!!"%string])
  else (q, []).
Proof.
  unfold VQVAEQuantize.forward.
  destruct (size4 z) as [[[B C] Hh] W].
  destruct (VQVAEQuantize.needs_seeding q); reflexivity.
Qed.

Lemma run_forward (q : VQVAEQuantize.t) (z : T4 A) (g : Rng)
  (cs : list (VQVAEQuantize.call Rng)) :
  run q (VQVAEQuantize.Forward z g :: cs) =
  (fst (run (fst (fst (forward q z g))) cs),
   snd (fst (forward q z g)) ++ snd (run (fst (fst (forward q z g))) cs)).
Proof.
  simpl. destruct (forward q z g) as [[q1 out] res]. simpl.
  destruct (VQVAEQuantize.run randperm kmeans2 q1 cs). reflexivity.
Qed.

Hypothesis flag_one_set : s_eqb (A := A) s_one s_zero = false.

(** k-means runs in a sequence of calls exactly when the flag is clear
    before it and one of its [forward] calls is made in training mode. *)
Lemma kmeans_runs_run (cs : list (VQVAEQuantize.call Rng)) :
  forall q : VQVAEQuantize.t,
  VQVAEQuantize.kmeans_runs (snd (run q cs)) =
  if s_eqb (VQVAEQuantize.data_initialized q) s_zero
     && (0 <? VQVAEQuantize.training_calls (VQVAEQuantize.training q) cs)
  then 1 else 0.
Proof.
  induction cs as [|c cs IH]; intros q.
  - simpl. rewrite andb_false_r. reflexivity.
  - destruct c as [mode|p e|z g].
    + simpl. rewrite IH. reflexivity.
    + simpl. rewrite IH. reflexivity.
    + rewrite run_forward. cbn [snd fst].
      unfold VQVAEQuantize.kmeans_runs in *.
      rewrite count_occ_app, IH, forward_fst.
      unfold VQVAEQuantize.needs_seeding.
      destruct (VQVAEQuantize.training q) eqn:Ht;
        destruct (s_eqb (VQVAEQuantize.data_initialized q) s_zero) eqn:Hf;
        cbn [andb fst snd VQVAEQuantize.run_kmeans VQVAEQuantize.seeded
             VQVAEQuantize.data_initialized VQVAEQuantize.training
             VQVAEQuantize.training_calls];
        rewrite ?Ht, ?Hf, ?flag_one_set; simpl; reflexivity.
Qed.

End Seeding.

(** C3: on any instance and any sequence of mode switches, optimizer steps
    and [forward] calls k-means runs at most once; on a fresh instance it
    runs exactly once as soon as one call is made in training mode; a call
    in evaluation mode, and a call with the flag set, prints nothing and
    leaves the whole module, codebook and flag included, as it was. *)
Theorem kmeans_seeding_runs_once {A : Type} `{Scalar A} (Rng : Type)
  (randperm : Rng -> nat -> list nat) (kmeans2 : Rng -> T2 A -> nat -> T2 A) :
  s_eqb (A := A) s_zero s_zero = true ->
  s_eqb (A := A) s_one s_zero = false ->
  (forall q cs,
     VQVAEQuantize.kmeans_runs
       (snd (VQVAEQuantize.run randperm kmeans2 q cs)) <= 1) /\
  (forall num_hiddens embedding_dim n_embed pw pb e cs,
     0 < VQVAEQuantize.training_calls true cs ->
     VQVAEQuantize.kmeans_runs
       (snd (VQVAEQuantize.run randperm kmeans2
               (VQVAEQuantize.init num_hiddens embedding_dim n_embed pw pb e)
               cs)) = 1) /\
  (forall q z g,
     VQVAEQuantize.training q = false ->
     fst (VQVAEQuantize.forward randperm kmeans2 q z g) = (q, [])) /\
  (forall q z g,
     s_eqb (VQVAEQuantize.data_initialized q) s_zero = false ->
     fst (VQVAEQuantize.forward randperm kmeans2 q z g) = (q, [])).
Proof.
  intros Hzero Hone. repeat split.
  - intros q cs. rewrite kmeans_runs_run by exact Hone.
    destruct (_ && _); lia.
  - intros nh d n pw pb e cs Hcalls. rewrite kmeans_runs_run by exact Hone.
    cbn [VQVAEQuantize.init VQVAEQuantize.data_initialized
         VQVAEQuantize.training].
    rewrite Hzero. apply Nat.ltb_lt in Hcalls. rewrite Hcalls. reflexivity.
  - intros q z g Hmode. rewrite forward_fst.
    unfold VQVAEQuantize.needs_seeding. rewrite Hmode. reflexivity.
  - intros q z g Hflag. rewrite forward_fst.
    unfold VQVAEQuantize.needs_seeding. rewrite Hflag, andb_false_r.
    reflexivity.
Qed.

Lemma kmeans_seeding_runs_once_witness :
  VQVAEQuantize.kmeans_runs
    (snd (VQVAEQuantize.run example_randperm example_kmeans2
            (example_quantizer (A := float)) example_calls)) = 1.
Proof.
  assert (Hzero : s_eqb (A := float) s_zero s_zero = true)
    by (vm_compute; reflexivity).
  assert (Hone : s_eqb (A := float) s_one s_zero = false)
    by (vm_compute; reflexivity).
  apply (proj1 (proj2
    (kmeans_seeding_runs_once example_randperm example_kmeans2 Hzero Hone))).
  vm_compute. lia.
Defined.

(** ** The Gumbel-softmax quantizer *)

Lemma has_shape4_tabulate {X : Type} (B N Hh W : nat)
  (f : nat -> nat -> nat -> nat -> X) :
  has_shape4 B N Hh W
    (tabulate B (fun b => tabulate N (fun n => tabulate Hh (fun h =>
       tabulate W (fun w => f b n h w))))).
Proof.
  split; [apply length_tabulate|].
  apply Forall_tabulate. intros b _. apply has_shape3_tabulate.
Qed.

Lemma conv1x1_shape {A : Type} `{Scalar A} (p : Conv1x1) (z : T4 A)
  (B C Hh W : nat) :
  size4 z = (B, C, Hh, W) ->
  has_shape4 B (conv_out p) Hh W (conv1x1 p z).
Proof.
  intros Hs. unfold conv1x1. rewrite Hs. apply has_shape4_tabulate.
Qed.

Lemma Forall_nth_in {X : Type} (P : X -> Prop) (l : list X) (i : nat) (d : X) :
  Forall P l -> i < length l -> P (nth i l d).
Proof.
  intros Hl Hi. rewrite Forall_forall in Hl. apply Hl, nth_In, Hi.
Qed.

(** C5: in evaluation mode [hard] is [True] whatever [straight_through] is,
    so by the contract of [F.gumbel_softmax] the mixing weights over the
    [n_embed] categories are one-hot at every location; in training mode
    [hard] is the configured [straight_through]. *)
Theorem gumbel_hardness {A : Type} `{Scalar A} (Rng : Type)
  (gumbel_softmax : Rng -> T4 A -> A -> bool -> T4 A)
  (q : GumbelQuantize.t) (z : T4 A) (g : Rng) (B C Hh W : nat) :
  GumbelQuantize.hard_samples_are_one_hot gumbel_softmax ->
  GumbelQuantize.well_formed q ->
  size4 z = (B, C, Hh, W) ->
  (GumbelQuantize.training q = false ->
     GumbelQuantize.hard q = true /\
     forall b h w, b < B -> h < Hh -> w < W ->
       is_one_hot
         (column (GumbelQuantize.soft_one_hot gumbel_softmax q z g)
            (GumbelQuantize.n_embed q) b h w)) /\
  (GumbelQuantize.training q = true ->
     GumbelQuantize.hard q = GumbelQuantize.straight_through q).
Proof.
  intros Hgs (Hout & _ & Hpos) Hs. split.
  - intros Hmode.
    assert (Hhard : GumbelQuantize.hard q = true)
      by (unfold GumbelQuantize.hard; now rewrite Hmode).
    split; [exact Hhard|]. intros b h w Hb Hh' Hw.
    unfold GumbelQuantize.soft_one_hot. rewrite Hhard.
    apply Hgs with (B := B) (Hh := Hh) (W := W); try assumption.
    rewrite <- Hout. unfold GumbelQuantize.logits.
    apply conv1x1_shape with (C := C). exact Hs.
  - intros Hmode. unfold GumbelQuantize.hard. now rewrite Hmode.
Qed.

Lemma example_gumbel_softmax_one_hot {A : Type} `{Scalar A} :
  GumbelQuantize.hard_samples_are_one_hot (example_gumbel_softmax (A := A)).
Proof.
  intros g l tau B N Hh W (HB & Hl) HN b h w Hb Hh' Hw.
  exists 0. unfold column. rewrite length_tabulate. split; [exact HN|].
  intros j Hj. rewrite (nth_tabulate _ _ Hj).
  unfold example_gumbel_softmax, get4.
  assert (Hbl : b < length l) by lia.
  pose proof (@Forall_nth_in _ _ _ b [] Hl Hbl) as (HN' & Hb3).
  assert (Hjl : j < length (nth b l [])) by lia.
  pose proof (@Forall_nth_in _ _ _ j [] Hb3 Hjl) as (HH & Hb2).
  assert (Hhl : h < length (nth j (nth b l []) [])) by lia.
  pose proof (@Forall_nth_in _ _ _ h [] Hb2 Hhl) as HW.
  rewrite nth_map_in with (dx := []) by exact Hbl.
  rewrite nth_map_in with (dx := 0) by (rewrite length_seq; exact Hjl).
  rewrite seq_nth by exact Hjl. simpl (0 + j).
  rewrite nth_map_in with (dx := []) by exact Hhl.
  rewrite nth_map_in with (dx := s_zero) by (rewrite HW; exact Hw).
  destruct j; reflexivity.
Qed.

Lemma gumbel_hardness_witness :
  let q := GumbelQuantize.train false (example_gumbel (A := R)) in
  (GumbelQuantize.training q = false ->
     GumbelQuantize.hard q = true /\
     forall b h w, b < 1 -> h < 1 -> w < 2 ->
       is_one_hot
         (column (GumbelQuantize.soft_one_hot example_gumbel_softmax q
                    example_grid tt)
            (GumbelQuantize.n_embed q) b h w)) /\
  (GumbelQuantize.training q = true ->
     GumbelQuantize.hard q = GumbelQuantize.straight_through q).
Proof.
  intros q.
  apply (@gumbel_hardness R _ unit example_gumbel_softmax q example_grid tt
           1 2 1 2).
  - apply example_gumbel_softmax_one_hot.
  - unfold GumbelQuantize.well_formed, has_shape2. simpl.
    repeat split; try lia. repeat constructor.
  - reflexivity.
Defined.

(** *** The Kullback-Leibler term *)

Lemma map4_tabulate {X Y : Type} (g : X -> Y) (B N Hh W : nat)
  (f : nat -> nat -> nat -> nat -> X) :
  map4 g (tabulate B (fun b => tabulate N (fun n => tabulate Hh (fun h =>
            tabulate W (fun w => f b n h w))))) =
  tabulate B (fun b => tabulate N (fun n => tabulate Hh (fun h =>
    tabulate W (fun w => g (f b n h w))))).
Proof.
  unfold map4. rewrite map_tabulate.
  apply tabulate_ext. intros b _. rewrite map_tabulate.
  apply tabulate_ext. intros n _. rewrite map_tabulate.
  apply tabulate_ext. intros h _. apply map_tabulate.
Qed.

Lemma zip_with4_tabulate {X Y Z : Type} (g : X -> Y -> Z) (B N Hh W : nat)
  (f : nat -> nat -> nat -> nat -> X) (f' : nat -> nat -> nat -> nat -> Y) :
  zip_with4 g
    (tabulate B (fun b => tabulate N (fun n => tabulate Hh (fun h =>
       tabulate W (fun w => f b n h w)))))
    (tabulate B (fun b => tabulate N (fun n => tabulate Hh (fun h =>
       tabulate W (fun w => f' b n h w))))) =
  tabulate B (fun b => tabulate N (fun n => tabulate Hh (fun h =>
    tabulate W (fun w => g (f b n h w) (f' b n h w))))).
Proof.
  unfold zip_with4. rewrite zip_with_tabulate.
  apply tabulate_ext. intros b _. rewrite zip_with_tabulate.
  apply tabulate_ext. intros n _. rewrite zip_with_tabulate.
  apply tabulate_ext. intros h _. apply zip_with_tabulate.
Qed.

Lemma column_tabulate {A : Type} `{Scalar A} (B N Hh W : nat)
  (f : nat -> nat -> nat -> nat -> A) (b h w : nat) :
  b < B -> h < Hh -> w < W ->
  column (tabulate B (fun b => tabulate N (fun n => tabulate Hh (fun h =>
            tabulate W (fun w => f b n h w))))) N b h w =
  tabulate N (fun n => f b n h w).
Proof.
  intros Hb Hh' Hw. unfold column. apply tabulate_ext. intros n Hn.
  unfold get4.
  rewrite (nth_tabulate _ _ Hb), (nth_tabulate _ _ Hn),
    (nth_tabulate _ _ Hh'), (nth_tabulate _ _ Hw).
  reflexivity.
Qed.

Lemma elements3_tabulate {X : Type} (B Hh W : nat)
  (f : nat * nat * nat -> X) :
  elements3
    (tabulate B (fun b => tabulate Hh (fun h => tabulate W (fun w =>
       f (b, h, w))))) =
  map f (locations B Hh W).
Proof.
  unfold elements3, locations. rewrite !concat_map. f_equal. f_equal.
  rewrite !map_tabulate. apply tabulate_ext. intros b _.
  rewrite !map_tabulate. apply tabulate_ext. intros h _.
  rewrite !map_tabulate. reflexivity.
Qed.

Section KullbackLeibler.
Context {A : Type} `{Scalar A} `{Transcendental A}.

(** The loss of lines 97-99 location by location, for every dtype. *)
Lemma kl_loss_by_location (q : GumbelQuantize.t) (z : T4 A)
  (B C Hh W : nat) :
  size4 z = (B, C, Hh, W) ->
  GumbelQuantize.kl_loss q z =
  s_mul GumbelQuantize.kld_scale
    (mean_list
       (map (fun '(b, h, w) =>
               kl_term (GumbelQuantize.n_embed q)
                 (softmax (column (GumbelQuantize.logits q z)
                             (conv_out (GumbelQuantize.proj q)) b h w)))
          (locations B Hh W))).
Proof.
  intros Hs. unfold GumbelQuantize.kl_loss, GumbelQuantize.logits_shape.
  rewrite Hs. set (l := GumbelQuantize.logits q z).
  set (N := conv_out (GumbelQuantize.proj q)).
  unfold softmax_dim1, sum_dim1, mean3.
  rewrite map4_tabulate, zip_with4_tabulate.
  f_equal. f_equal.
  rewrite <- elements3_tabulate with
    (f := fun loc => let '(b, h, w) := loc in
                     kl_term (GumbelQuantize.n_embed q)
                       (softmax (column l N b h w))).
  f_equal.
  apply tabulate_ext. intros b Hb. apply tabulate_ext. intros h Hh'.
  apply tabulate_ext. intros w Hw.
  rewrite column_tabulate by assumption.
  unfold kl_term, softmax, column.
  rewrite !map_tabulate. reflexivity.
Qed.

End KullbackLeibler.

Lemma length_locations (B Hh W : nat) :
  length (locations B Hh W) = B * Hh * W.
Proof.
  unfold locations. apply length_reshape_rows. apply has_shape3_tabulate.
Qed.

(** C6: the auxiliary loss is 5e-4 times the mean, over the B*H*W
    locations, of the sum over the [n_embed] categories of
    [q_k * log(q_k * n_embed + 1e-10)], where [q] is the softmax of the
    logits at the location; that sum is the Kullback-Leibler divergence of
    [q] from the uniform prior with the floor inside the logarithm. *)
Theorem gumbel_diff_is_scaled_kl (Rng : Type)
  (gumbel_softmax : Rng -> T4 R -> R -> bool -> T4 R)
  (q : GumbelQuantize.t) (z : T4 R) (g : Rng) (B C Hh W : nat) :
  let n := GumbelQuantize.n_embed q in
  let qy := fun loc : nat * nat * nat =>
    let '(b, h, w) := loc in
    softmax (column (GumbelQuantize.logits q z) n b h w) in
  let term := fun p : list R =>
    s_sum (map (fun pk => pk * ln (pk * INR n + 1e-10))%R p) in
  size4 z = (B, C, Hh, W) ->
  GumbelQuantize.well_formed q ->
  snd (fst (GumbelQuantize.forward gumbel_softmax q z g)) =
    (5e-4 * (s_sum (map (fun loc => term (qy loc)) (locations B Hh W))
             / INR (B * Hh * W)))%R /\
  forall loc, term (qy loc) = kl_from_uniform (qy loc) n.
Proof.
  intros n qy term Hs (Hout & _ & Hpos). split.
  - unfold GumbelQuantize.forward. cbn [fst snd].
    rewrite (kl_loss_by_location q Hs), Hout. fold n.
    unfold mean_list. rewrite length_map, length_locations.
    unfold s_of_nat. cbn [s_mul s_div s_of_Z R_scalar].
    rewrite <- INR_IZR_INZ.
    assert (Hscale : GumbelQuantize.kld_scale = 5e-4%R)
      by (unfold GumbelQuantize.kld_scale; simpl; lra).
    rewrite Hscale. f_equal. f_equal. f_equal.
    apply map_ext. intros [[b h] w]. unfold kl_term, term, qy.
    apply f_equal, map_ext. intros pk.
    unfold s_of_nat, log_floor. cbn [s_mul s_div s_add s_log s_of_Z
      R_scalar R_transcendental].
    rewrite <- INR_IZR_INZ. do 2 f_equal; try (simpl; lra).
  - intros loc. unfold term, kl_from_uniform. apply f_equal, map_ext.
    intros pk. unfold s_of_nat, log_floor, s_one.
    cbn [s_mul s_div s_add s_log s_of_Z R_scalar R_transcendental].
    rewrite <- INR_IZR_INZ. do 2 f_equal.
    assert (Hn : INR n <> 0%R) by (apply not_0_INR; unfold n; lia).
    replace (pk / (1 / INR n))%R with (pk * INR n)%R by (field; exact Hn).
    f_equal; try (simpl; lra).
Qed.

Lemma gumbel_diff_is_scaled_kl_witness :
  let q := example_gumbel (A := R) in
  let n := GumbelQuantize.n_embed q in
  let qy := fun loc : nat * nat * nat =>
    let '(b, h, w) := loc in
    softmax (column (GumbelQuantize.logits q example_grid) n b h w) in
  let term := fun p : list R =>
    s_sum (map (fun pk => pk * ln (pk * INR n + 1e-10))%R p) in
  snd (fst (GumbelQuantize.forward example_gumbel_softmax q example_grid tt)) =
    (5e-4 * (s_sum (map (fun loc => term (qy loc)) (locations 1 1 2))
             / INR (1 * 1 * 2)))%R /\
  forall loc, term (qy loc) = kl_from_uniform (qy loc) n.
Proof.
  intros q n qy term.
  apply (@gumbel_diff_is_scaled_kl unit example_gumbel_softmax q
           example_grid tt 1 2 1 2).
  - reflexivity.
  - unfold GumbelQuantize.well_formed, has_shape2. simpl.
    repeat split; try lia. repeat constructor.
Defined.

(** *** The shape of the grid a quantizer returns *)


Lemma soft_forward_shape {A : Type} `{Scalar A} `{Transcendental A}
  (Rng : Type) (gumbel_softmax : Rng -> T4 A -> A -> bool -> T4 A)
  (q : GumbelQuantize.t) (z : T4 A) (g : Rng) (B C Hh W : nat) :
  size4 z = (B, C, Hh, W) ->
  has_shape4 B (GumbelQuantize.embedding_dim q) Hh W
    (fst (fst (GumbelQuantize.forward gumbel_softmax q z g))).
Proof.
  intros Hs. unfold GumbelQuantize.forward, GumbelQuantize.logits_shape.
  rewrite Hs. apply has_shape4_tabulate.
Qed.

(** ** The optimizer's parameter groups *)

Lemma separate_keeps (mn : string) (m : Module) (pn : string) (p : partition)
  (x : string) :
  (set_In x (decay p) -> set_In x (decay (separate mn m pn p))) /\
  (set_In x (no_decay p) -> set_In x (no_decay (separate mn m pn p))).
Proof.
  unfold separate.
  destruct (endswith pn "bias"); [|destruct (_ && _); [|destruct (_ && _)]];
    simpl; split; intros Hx; try exact Hx;
    apply set_add_intro1; exact Hx.
Qed.

Lemma separate_fold_keeps (l : list (string * Module * string))
  (p : partition) (x : string) :
  (set_In x (decay p) ->
   set_In x (decay (fold_left (fun p '(mn, m, pn) => separate mn m pn p) l p)))
  /\
  (set_In x (no_decay p) ->
   set_In x
     (no_decay (fold_left (fun p '(mn, m, pn) => separate mn m pn p) l p))).
Proof.
  revert p. induction l as [|[[mn m] pn] l IH]; intros p; simpl.
  - split; intros Hx; exact Hx.
  - destruct (IH (separate mn m pn p)) as [IHd IHn].
    destruct (separate_keeps mn m pn p x) as [Hd Hn].
    split; intros Hx; [apply IHd, Hd, Hx | apply IHn, Hn, Hx].
Qed.

Lemma black_not_white (m : Module) :
  isinstance m blacklist_weight_modules = true ->
  isinstance m whitelist_weight_modules = false.
Proof.
  unfold isinstance. destruct (module_cls m); simpl; congruence.
Qed.

Lemma separate_places (mn : string) (m : Module) (pn : string)
  (p : partition) :
  placed mn m pn (separate mn m pn p).
Proof.
  unfold placed, separate. repeat split.
  - intros ->. simpl. apply set_add_intro2. reflexivity.
  - intros -> -> ->. simpl. apply set_add_intro2. reflexivity.
  - intros -> -> Hb. rewrite (black_not_white m Hb), Hb. simpl.
    apply set_add_intro2. reflexivity.
Qed.

Lemma separate_fold_places (l : list (string * Module * string))
  (p : partition) (mn : string) (m : Module) (pn : string) :
  In (mn, m, pn) l ->
  placed mn m pn (fold_left (fun p '(mn, m, pn) => separate mn m pn p) l p).
Proof.
  revert p. induction l as [|[[mn' m'] pn'] l IH]; intros p Hin;
    [contradiction|].
  simpl. destruct Hin as [Heq|Hin]; [|apply IH, Hin].
  injection Heq as -> -> ->.
  destruct (separate_places mn m pn p) as (Hb & Hw & Hk).
  set (p1 := separate mn m pn p) in *.
  destruct (separate_fold_keeps l p1 (join mn pn)) as [Kd Kn].
  repeat split; intros; auto.
Qed.

Lemma visited_in (self : Module) (mn : string) (m : Module) (pn : string) :
  In (mn, m) (named_modules "" self) -> In pn (named_parameters m) ->
  In (mn, m, pn) (visited self).
Proof.
  intros Hm Hp. unfold visited. apply in_flat_map.
  exists (mn, m). split; [exact Hm|].
  apply in_map_iff. exists pn. split; [reflexivity | exact Hp].
Qed.

Lemma length_zero_iff {X : Type} (l : list X) :
  (length l =? 0) = true <-> l = [].
Proof.
  destruct l; simpl; split; intros; try reflexivity; discriminate.
Qed.

Lemma empty_iff {X : Type} (l : list X) :
  l = [] <-> forall x, ~ In x l.
Proof.
  split.
  - intros -> x [].
  - destruct l as [|y l]; [reflexivity|]. intros Hno.
    exfalso. apply (Hno y). left. reflexivity.
Qed.

(** The two assertions pass exactly when the sets are disjoint and every
    parameter name is in one of them. *)
Lemma configure_optimizers_succeeds (self : Module) :
  let p := separate_all self in
  (exists groups lr wd, configure_optimizers self = AdamW groups lr wd) <->
  (forall x, ~ (set_In x (decay p) /\ set_In x (no_decay p))) /\
  (forall x, In x (named_parameters self) ->
     set_In x (decay p) \/ set_In x (no_decay p)).
Proof.
  intros p. unfold configure_optimizers. fold p.
  set (inter := set_inter string_dec (decay p) (no_decay p)).
  set (missing := set_diff string_dec (named_parameters self)
                    (set_union string_dec (decay p) (no_decay p))).
  assert (Hinter : inter = [] <->
            forall x, ~ (set_In x (decay p) /\ set_In x (no_decay p))).
  { rewrite empty_iff. unfold inter. split; intros Hno x Hx; apply (Hno x).
    - apply set_inter_iff. exact Hx.
    - apply set_inter_iff in Hx. exact Hx. }
  assert (Hmissing : missing = [] <->
            forall x, In x (named_parameters self) ->
              set_In x (decay p) \/ set_In x (no_decay p)).
  { rewrite empty_iff. unfold missing. split.
    - intros Hno x Hx.
      destruct (set_In_dec string_dec x
                  (set_union string_dec (decay p) (no_decay p))) as [Hu|Hu].
      + apply set_union_iff in Hu. exact Hu.
      + exfalso. apply (Hno x). apply set_diff_iff. split; assumption.
    - intros Hall x Hx. apply set_diff_iff in Hx. destruct Hx as [Hk Hu].
      apply Hu, set_union_iff, Hall, Hk. }
  destruct (length inter =? 0) eqn:Hi; simpl.
  - apply length_zero_iff in Hi.
    destruct (length missing =? 0) eqn:Hm; simpl.
    + apply length_zero_iff in Hm. split.
      * intros _. split; [apply Hinter, Hi | apply Hmissing, Hm].
      * intros _. eauto.
    + split.
      * intros (g & l & w & Heq). discriminate.
      * intros [_ Hc]. apply Hmissing in Hc.
        apply length_zero_iff in Hc. congruence.
  - split.
    + intros (g & l & w & Heq). discriminate.
    + intros [Hd _]. apply Hinter in Hd.
      apply length_zero_iff in Hd. congruence.
Qed.

(** *** Every separated name is a parameter name *)

Lemma append_assoc (a b c : string) :
  ((a ++ b) ++ c = a ++ (b ++ c))%string.
Proof. induction a as [|x a IH]; simpl; [reflexivity | now rewrite IH]. Qed.

Lemma append_nonempty (a b : string) :
  a <> ""%string -> (a ++ b)%string <> ""%string.
Proof. destruct a; [congruence | discriminate]. Qed.

Lemma join_nonempty (p n : string) : n <> ""%string -> join p n <> ""%string.
Proof.
  intros Hn. unfold join. destruct (String.eqb_spec p ""); [exact Hn|].
  apply append_nonempty. assumption.
Qed.

Lemma below_below (p name n : string) :
  name <> ""%string -> below p (below name n) = below (join p name) n.
Proof.
  intros Hname. unfold below.
  destruct (String.eqb_spec n "") as [->|Hn].
  - destruct (String.eqb_spec name ""); [contradiction | reflexivity].
  - assert (Hjn : join name n <> ""%string) by (apply join_nonempty, Hn).
    destruct (String.eqb_spec (join name n) ""); [contradiction|].
    unfold join.
    destruct (String.eqb_spec name ""); [contradiction|].
    destruct (String.eqb_spec p "") as [->|Hp].
    + destruct (String.eqb_spec name ""); [contradiction | reflexivity].
    + destruct (String.eqb_spec (p ++ "." ++ name) "") as [He|_].
      * exfalso. revert He. apply append_nonempty. exact Hp.
      * now rewrite !append_assoc.
Qed.

Lemma join_below (mn sn k : string) :
  join (below mn sn) k = join mn (join sn k).
Proof.
  unfold below.
  destruct (String.eqb_spec sn "") as [->|Hs]; [reflexivity|].
  unfold join.
  destruct (String.eqb_spec sn ""); [contradiction|].
  destruct (String.eqb_spec mn "") as [->|Hm].
  - destruct (String.eqb_spec sn ""); [contradiction | reflexivity].
  - destruct (String.eqb_spec (mn ++ "." ++ sn) "") as [He|_].
    + exfalso. revert He. apply append_nonempty. exact Hm.
    + now rewrite !append_assoc.
Qed.

(** Induction on a module tree with the hypothesis for every child. *)
Lemma Module_tree_ind (P : Module -> Prop) :
  (forall cls ps children,
     Forall (fun nc => P (snd nc)) children -> P (Mod cls ps children)) ->
  forall m, P m.
Proof.
  intros Hstep. fix IH 1. intros [cls ps children]. apply Hstep.
  induction children as [|[name c] cs IHcs]; constructor.
  - apply IH.
  - exact IHcs.
Qed.

Lemma named_modules_unfold (prefix : string) (cls : module_class)
  (ps : list string) (cs : list (string * Module)) :
  named_modules prefix (Mod cls ps cs) =
  (prefix, Mod cls ps cs) :: descendants prefix cs.
Proof.
  simpl. f_equal. unfold descendants.
  induction cs as [|[name c] cs IH]; simpl; [reflexivity | now rewrite IH].
Qed.

Lemma well_named_unfold (cls : module_class) (ps : list string)
  (cs : list (string * Module)) :
  well_named (Mod cls ps cs) <->
  Forall (fun nc => fst nc <> ""%string /\ well_named (snd nc)) cs.
Proof.
  simpl. induction cs as [|[name c] cs IH]; split.
  - constructor.
  - intros _. exact I.
  - intros (Hn & Hc & Hrest). constructor; [split; assumption|].
    apply IH, Hrest.
  - intros Hall. inversion Hall as [|x l [Hn Hc] Hrest]; subst.
    repeat split; try assumption. apply IH, Hrest.
Qed.

Lemma named_modules_below (m : Module) :
  well_named m ->
  forall prefix,
    named_modules prefix m =
    map (fun ns => (below prefix (fst ns), snd ns)) (named_modules "" m).
Proof.
  induction m as [cls ps cs IH] using Module_tree_ind.
  intros Hwn prefix. rewrite !named_modules_unfold. simpl. f_equal.
  apply well_named_unfold in Hwn. unfold descendants.
  induction cs as [|[name c] cs IHcs]; [reflexivity|].
  inversion IH as [|x l IHc IHrest]; subst.
  inversion Hwn as [|x l [Hname Hc] Hrest]; subst.
  simpl in *. rewrite map_app. f_equal; [|apply IHcs; assumption].
  rewrite (IHc Hc (join prefix name)), (IHc Hc (join "" name)).
  rewrite map_map. apply map_ext. intros [n sub]. simpl.
  change (join "" name) with name.
  now rewrite below_below.
Qed.

Lemma named_modules_closed (self : Module) :
  forall prefix mn m,
    In (mn, m) (named_modules prefix self) ->
    incl (named_modules mn m) (named_modules prefix self).
Proof.
  induction self as [cls ps cs IH] using Module_tree_ind.
  intros prefix mn m Hin. rewrite named_modules_unfold in Hin.
  destruct Hin as [Heq|Hin].
  - injection Heq as <- <-. apply incl_refl.
  - rewrite named_modules_unfold. apply incl_tl.
    unfold descendants in *. apply in_flat_map in Hin.
    destruct Hin as ([name c] & Hc & Hin). simpl in Hin.
    rewrite Forall_forall in IH. specialize (IH _ Hc _ _ _ Hin).
    intros x Hx. apply in_flat_map. exists (name, c).
    split; [exact Hc | apply IH, Hx].
Qed.

Lemma named_modules_well_named (self : Module) :
  well_named self ->
  forall prefix mn m,
    In (mn, m) (named_modules prefix self) -> well_named m.
Proof.
  induction self as [cls ps cs IH] using Module_tree_ind.
  intros Hwn prefix mn m Hin. rewrite named_modules_unfold in Hin.
  destruct Hin as [Heq|Hin].
  - injection Heq as <- <-. exact Hwn.
  - apply well_named_unfold in Hwn. unfold descendants in Hin.
    apply in_flat_map in Hin. destruct Hin as ([name c] & Hc & Hin).
    rewrite Forall_forall in IH, Hwn.
    apply (IH _ Hc (proj2 (Hwn _ Hc)) _ _ _ Hin).
Qed.

(** A full name built at a visit is the name of a parameter of [self]. *)
Lemma visited_names_parameter (self : Module) (mn : string) (m : Module)
  (pn : string) :
  well_named self ->
  In (mn, m) (named_modules "" self) -> In pn (named_parameters m) ->
  In (join mn pn) (named_parameters self).
Proof.
  intros Hwn Hm Hp. unfold named_parameters in Hp.
  apply in_flat_map in Hp. destruct Hp as ([sn sub] & Hsub & Hk).
  apply in_map_iff in Hk. destruct Hk as (k & <- & Hk).
  unfold named_parameters. apply in_flat_map.
  exists (below mn sn, sub). split.
  - apply (named_modules_closed self _ _ _ Hm).
    rewrite (@named_modules_below m
               (named_modules_well_named self Hwn _ _ _ Hm) mn).
    apply in_map_iff. exists (sn, sub). split; [reflexivity | exact Hsub].
  - apply in_map_iff. exists k. split; [apply join_below | exact Hk].
Qed.

Lemma separate_origin (mn : string) (m : Module) (pn : string)
  (p : partition) (x : string) :
  set_In x (decay (separate mn m pn p)) \/
  set_In x (no_decay (separate mn m pn p)) ->
  x = join mn pn \/ set_In x (decay p) \/ set_In x (no_decay p).
Proof.
  unfold separate.
  destruct (endswith pn "bias"); [|destruct (_ && _); [|destruct (_ && _)]];
    simpl; intros [Hx|Hx]; auto;
    apply set_add_elim in Hx; destruct Hx; auto.
Qed.

Lemma separate_fold_origin (l : list (string * Module * string))
  (p : partition) (x : string) :
  let p' := fold_left (fun p '(mn, m, pn) => separate mn m pn p) l p in
  set_In x (decay p') \/ set_In x (no_decay p') ->
  (exists mn m pn, In (mn, m, pn) l /\ x = join mn pn) \/
  set_In x (decay p) \/ set_In x (no_decay p).
Proof.
  revert p. induction l as [|[[mn m] pn] l IH]; intros p; simpl.
  - intros Hx. right. exact Hx.
  - intros Hx. destruct (IH _ Hx) as [(mn' & m' & pn' & Hin & ->)|Hx'].
    + left. exists mn', m', pn'. split; [right; exact Hin | reflexivity].
    + destruct (separate_origin _ _ _ _ _ Hx') as [-> | Hp].
      * left. exists mn, m, pn. split; [left; reflexivity | reflexivity].
      * right. exact Hp.
Qed.

Lemma separated_names_parameters (self : Module) (x : string) :
  well_named self ->
  set_In x (decay (separate_all self)) \/
  set_In x (no_decay (separate_all self)) ->
  In x (named_parameters self).
Proof.
  intros Hwn Hx. unfold separate_all in Hx.
  apply separate_fold_origin in Hx.
  destruct Hx as [(mn & m & pn & Hin & ->) | [[]|[]]].
  unfold visited in Hin. apply in_flat_map in Hin.
  destruct Hin as ([mn' m'] & Hm & Hp).
  apply in_map_iff in Hp. destruct Hp as (pn' & Heq & Hp).
  injection Heq as <- <- <-.
  apply visited_names_parameter with (m := m'); assumption.
Qed.

(** C7: every visited parameter whose name ends in "bias" is in [no_decay],
    every other one whose name ends in "weight" is in [decay] when its
    module is a linear, convolution or transposed convolution layer and in
    [no_decay] when it is a normalization or embedding layer; the optimizer
    is built exactly when the two sets are disjoint and their union is the
    set of all parameter names, and otherwise the call ends in one of the
    two assertion errors, with a non-empty set of offending names. *)
Theorem configure_optimizers_partition (self : Module) :
  well_named self ->
  let p := separate_all self in
  (forall mn m pn,
     In (mn, m) (named_modules "" self) -> In pn (named_parameters m) ->
     placed mn m pn p) /\
  ((exists groups lr wd, configure_optimizers self = AdamW groups lr wd) <->
   (forall x, ~ (set_In x (decay p) /\ set_In x (no_decay p))) /\
   (forall x, In x (named_parameters self) <->
      set_In x (decay p) \/ set_In x (no_decay p))) /\
  ((forall groups lr wd, configure_optimizers self <> AdamW groups lr wd) ->
   exists names, names <> [] /\
     (configure_optimizers self = AssertionError_both_sets names \/
      configure_optimizers self = AssertionError_not_separated names)).
Proof.
  intros Hwn p. split; [|split].
  - intros mn m pn Hm Hp. apply separate_fold_places.
    apply visited_in; assumption.
  - rewrite configure_optimizers_succeeds. fold p. split.
    + intros [Hd Hc]. split; [exact Hd|]. intros x. split; [apply Hc|].
      apply separated_names_parameters. exact Hwn.
    + intros [Hd Hc]. split; [exact Hd|]. intros x. apply Hc.
  - intros Hfail. unfold configure_optimizers in *. fold p in Hfail |- *.
    destruct (length (set_inter string_dec (decay p) (no_decay p)) =? 0)
      eqn:Hi; simpl in *.
    + destruct (length (set_diff string_dec (named_parameters self)
                          (set_union string_dec (decay p) (no_decay p))) =? 0)
        eqn:Hm; simpl in *.
      * exfalso. eapply Hfail. reflexivity.
      * eexists. split; [|right; reflexivity].
        intros Hnil. rewrite Hnil in Hm. discriminate.
    + eexists. split; [|left; reflexivity].
      intros Hnil. rewrite Hnil in Hi. discriminate.
Qed.

Lemma configure_optimizers_partition_witness :
  let p := separate_all example_tree in
  (forall mn m pn,
     In (mn, m) (named_modules "" example_tree) ->
     In pn (named_parameters m) ->
     placed mn m pn p) /\
  ((exists groups lr wd,
      configure_optimizers example_tree = AdamW groups lr wd) <->
   (forall x, ~ (set_In x (decay p) /\ set_In x (no_decay p))) /\
   (forall x, In x (named_parameters example_tree) <->
      set_In x (decay p) \/ set_In x (no_decay p))) /\
  ((forall groups lr wd,
      configure_optimizers example_tree <> AdamW groups lr wd) ->
   exists names, names <> [] /\
     (configure_optimizers example_tree = AssertionError_both_sets names \/
      configure_optimizers example_tree = AssertionError_not_separated names)).
Proof.
  apply (configure_optimizers_partition example_tree).
  vm_compute. repeat split; discriminate.
Defined.

(** The optimizer of the model with the default sizes. *)
Lemma configure_optimizers_default :
  exists groups,
    configure_optimizers example_tree =
      AdamW groups (3 # 10000)%Q (1 # 100000)%Q /\
    map weight_decay groups = [(1 # 100000)%Q; 0%Q] /\
    map (fun g => length (group_params g)) groups = [15; 16].
Proof. eexists. vm_compute. repeat split. Qed.

(** A naming collision fails the first assertion. *)
Lemma configure_optimizers_collision :
  configure_optimizers collision_tree =
  AssertionError_both_sets ["a.b.weight"%string].
Proof. vm_compute. reflexivity. Qed.

(** ** Shapes through the model *)


Lemma conv_size_same3 (x : nat) :
  0 < x -> VQVAE.conv_size x 3 1 1 = Some x.
Proof.
  intros Hx. unfold VQVAE.conv_size.
  replace (3 <=? x + 2 * 1) with true by (symmetry; apply Nat.leb_le; lia).
  cbn [andb Nat.ltb Nat.leb]. f_equal. rewrite Nat.div_1_r. lia.
Qed.

Lemma conv_size_same1 (x : nat) :
  0 < x -> VQVAE.conv_size x 1 1 0 = Some x.
Proof.
  intros Hx. unfold VQVAE.conv_size.
  replace (1 <=? x + 2 * 0) with true by (symmetry; apply Nat.leb_le; lia).
  cbn [andb Nat.ltb Nat.leb]. f_equal. rewrite Nat.div_1_r. lia.
Qed.


Lemma shape_eqb_refl (sh : VQVAE.shape) : VQVAE.shape_eqb sh sh = true.
Proof.
  destruct sh as [[[B C] Hh] W]. unfold VQVAE.shape_eqb.
  now rewrite !Nat.eqb_refl.
Qed.

Lemma res_block_shape (c r B Hh W : nat) :
  0 < Hh -> 0 < W ->
  VQVAE.layer_shape (VQVAE.ResBlock c r) (B, c, Hh, W) = Some (B, c, Hh, W).
Proof.
  intros HH HW. unfold VQVAE.layer_shape, VQVAE.conv_shape.
  rewrite Nat.eqb_refl, !conv_size_same3 by assumption. cbv iota beta.
  rewrite Nat.eqb_refl, !conv_size_same1 by assumption. cbv iota beta.
  now rewrite shape_eqb_refl.
Qed.





Lemma init_inversion {A : Type} `{Scalar A} (args : VQVAE.arguments)
  (nh rnh ed ne : nat) (pw : T2 A) (pb : list A) (e : T2 A) (m : VQVAE.t) :
  VQVAE.init args nh rnh ed ne pw pb e = Some m ->
  VQVAE.encoder m =
    [ VQVAE.Conv 3 (nh / 2) 4 2 1; VQVAE.ReLU;
      VQVAE.Conv (nh / 2) nh 4 2 1; VQVAE.ReLU;
      VQVAE.Conv nh nh 3 1 1; VQVAE.ReLU;
      VQVAE.ResBlock nh rnh; VQVAE.ResBlock nh rnh ] /\
  VQVAE.decoder m =
    [ VQVAE.Conv ed nh 3 1 1; VQVAE.ReLU;
      VQVAE.ResBlock nh rnh; VQVAE.ResBlock nh rnh;
      VQVAE.ConvTranspose nh (nh / 2) 4 2 1; VQVAE.ReLU;
      VQVAE.ConvTranspose (nh / 2) 3 4 2 1 ] /\
  ((VQVAE.vq_flavor args = "vqvae"%string /\
    VQVAE.quantizer m =
      VQVAE.Hard (VQVAEQuantize.init nh ed ne pw pb e)) \/
   (VQVAE.vq_flavor args = "gumbel"%string /\
    VQVAE.quantizer m =
      VQVAE.Soft (GumbelQuantize.init nh ed ne None pw pb e))).
Proof.
  unfold VQVAE.init, VQVAE.make_quantizer.
  destruct (String.eqb_spec (VQVAE.vq_flavor args) "vqvae") as [Hv|Hv].
  - intros Heq. injection Heq as <-. simpl. auto.
  - destruct (String.eqb_spec (VQVAE.vq_flavor args) "gumbel") as [Hg|Hg].
    + intros Heq. injection Heq as <-. simpl. auto.
    + discriminate.
Qed.



(** C10: a model built with the flavor "gumbel" holds a [GumbelQuantize]
    made from [num_hiddens], [embedding_dim] and [num_embeddings] alone, so
    its [straight_through] is the default [True]; no argument of
    [VQVAE.__init__] leads to a soft quantizer with [straight_through]
    [False]. *)
Theorem gumbel_flavor_is_straight_through {A : Type} `{Scalar A}
  (args : VQVAE.arguments) (nh rnh ed ne : nat)
  (pw : T2 A) (pb : list A) (e : T2 A) :
  (VQVAE.vq_flavor args = "gumbel"%string ->
   exists m,
     VQVAE.init args nh rnh ed ne pw pb e = Some m /\
     VQVAE.quantizer m =
       VQVAE.Soft (GumbelQuantize.init nh ed ne None pw pb e)) /\
  (forall m q,
     VQVAE.init args nh rnh ed ne pw pb e = Some m ->
     VQVAE.quantizer m = VQVAE.Soft q ->
     GumbelQuantize.straight_through q = true).
Proof.
  split.
  - intros Hflavor. unfold VQVAE.init, VQVAE.make_quantizer.
    rewrite Hflavor. simpl. eexists. split; reflexivity.
  - intros m q Hinit Hq.
    destruct (init_inversion _ _ _ _ _ _ _ _ Hinit) as (_ & _ & [[_ Hm]|[_ Hm]]);
      rewrite Hm in Hq; [discriminate|].
    injection Hq as <-. reflexivity.
Qed.

Lemma gumbel_flavor_is_straight_through_witness :
  exists m q,
    default_model (A := float) "gumbel" = Some m /\
    VQVAE.quantizer m = VQVAE.Soft q /\
    GumbelQuantize.straight_through q = true.
Proof.
  destruct (proj1 (@gumbel_flavor_is_straight_through float _
                     {| VQVAE.vq_flavor := "gumbel" |} 128 32 64 512 [] [] [])
              eq_refl) as (m & Hinit & Hq).
  exists m, (GumbelQuantize.init 128 64 512 None [] [] []).
  split; [exact Hinit|]. split; [exact Hq|].
  apply (proj2 (@gumbel_flavor_is_straight_through float _
                  {| VQVAE.vq_flavor := "gumbel" |} 128 32 64 512 [] [] [])
           m _ Hinit Hq).
Defined.

(** ** The perplexity diagnostic over the reals

    In arithmetic without rounding the floor of line 183 keeps the
    perplexity of a single code below 1 and that of uniform use below
    [n_embed]; what the float32 code returns depends on how it rounds
    [p + 1e-10], [log] and [exp]. *)


Lemma sum_indicator_real (n c : nat) (a : R) :
  c < n ->
  s_sum (tabulate n (fun k => if k =? c then a else 0%R)) = a.
Proof.
  unfold tabulate. intros Hc.
  assert (Hgen : forall len start,
            s_sum (map (fun k => if k =? c then a else 0%R) (seq start len))
            = if (start <=? c) && (c <? start + len) then a else 0%R).
  { induction len as [|len IH]; intros start.
    - simpl. destruct (start <=? c) eqn:Hle; simpl; [|reflexivity].
      replace (c <? start + 0) with false; [reflexivity|].
      symmetry. apply Nat.ltb_ge. apply Nat.leb_le in Hle. lia.
    - cbn [seq map s_sum]. rewrite IH.
      destruct (Nat.eqb_spec start c) as [->|Hne].
      + replace (S c <=? c) with false by (symmetry; apply Nat.leb_gt; lia).
        rewrite Nat.leb_refl.
        replace (c <? c + S len) with true by (symmetry; apply Nat.ltb_lt; lia).
        simpl. lra.
      + destruct (Nat.leb_spec (S start) c) as [Hle|Hgt].
        * replace (start <=? c) with true by (symmetry; apply Nat.leb_le; lia).
          replace (S start + len) with (start + S len) by lia.
          simpl. destruct (c <? start + S len); simpl; lra.
        * replace (start <=? c) with false by (symmetry; apply Nat.leb_gt; lia).
          simpl. lra. }
  rewrite Hgen. simpl. apply Nat.ltb_lt in Hc. now rewrite Hc.
Qed.




(** * Further properties of the code *)

(** ** The index grid of the nearest-neighbour quantizer *)

Section IndexGrid.
Context {A : Type} `{Scalar A}.
Variable Rng : Type.
Variable randperm : Rng -> nat -> list nat.
Variable kmeans2 : Rng -> T2 A -> nat -> T2 A.

Local Abbreviation forward := (VQVAEQuantize.forward randperm kmeans2).

(** The index grid has the shape [B, H, W] of the input's batch and
    spatial axes and holds rows of the codebook only. *)
Lemma forward_index_grid_valid (q : VQVAEQuantize.t) (z : T4 A) (g : Rng)
  (B C Hh W : nat) :
  let r := forward q z g in
  size4 z = (B, C, Hh, W) ->
  VQVAEQuantize.well_formed (fst (fst r)) ->
  has_shape3 B Hh W (snd (snd r)) /\
  Forall (fun i => i < VQVAEQuantize.n_embed (fst (fst r)))
    (elements3 (snd (snd r))).
Proof.
  intros r Hs (_ & (Hlen & _) & Hpos).
  pose proof (forward_ind randperm kmeans2 q z g) as Hind.
  rewrite Hs in Hind. fold r in Hind. rewrite Hind. unfold view3. split.
  - apply has_shape3_tabulate.
  - unfold elements3. apply Forall_concat, Forall_concat, Forall_tabulate.
    intros b _. apply Forall_tabulate. intros h _. apply Forall_tabulate.
    intros w _. rewrite <- Hlen. apply nearest_in_range.
    intros Hnil. rewrite Hnil in Hlen. simpl in Hlen. lia.
Qed.

(** The index at a location is a function of the projected feature vector
    there: two locations with the same vector get the same index, so a
    constant feature grid is quantized to a constant index grid. *)
Lemma forward_index_local (q : VQVAEQuantize.t) (z : T4 A) (g : Rng)
  (B C Hh W b h w b' h' w' : nat) :
  size4 z = (B, C, Hh, W) ->
  b < B -> h < Hh -> w < W -> b' < B -> h' < Hh -> w' < W ->
  VQVAEQuantize.feature q z b h w = VQVAEQuantize.feature q z b' h' w' ->
  get3 0 (snd (snd (forward q z g))) b h w =
  get3 0 (snd (snd (forward q z g))) b' h' w'.
Proof.
  intros Hs Hb Hh' Hw Hb' Hh'' Hw' Hf.
  rewrite !forward_ind_at with (B := B) (C := C) (Hh := Hh) (W := W)
    by assumption.
  now rewrite Hf.
Qed.

(** A call changes neither the sizes, nor the projection, nor the mode. *)
Lemma forward_keeps_configuration (q : VQVAEQuantize.t) (z : T4 A) (g : Rng) :
  let q' := fst (fst (forward q z g)) in
  VQVAEQuantize.embedding_dim q' = VQVAEQuantize.embedding_dim q /\
  VQVAEQuantize.n_embed q' = VQVAEQuantize.n_embed q /\
  VQVAEQuantize.proj q' = VQVAEQuantize.proj q /\
  VQVAEQuantize.training q' = VQVAEQuantize.training q.
Proof.
  intros q'. unfold q'. rewrite forward_state.
  destruct (VQVAEQuantize.needs_seeding q); repeat split; reflexivity.
Qed.

(** Over any sequence of mode switches, optimizer steps and calls the flag
    is written by the seeding alone: it holds 1 once k-means has run and
    its initial value otherwise, and the two sizes never change. *)
Lemma run_flag_and_sizes (cs : list (VQVAEQuantize.call Rng)) :
  forall q : VQVAEQuantize.t,
  let res := VQVAEQuantize.run randperm kmeans2 q cs in
  VQVAEQuantize.embedding_dim (fst res) = VQVAEQuantize.embedding_dim q /\
  VQVAEQuantize.n_embed (fst res) = VQVAEQuantize.n_embed q /\
  VQVAEQuantize.data_initialized (fst res) =
    (if VQVAEQuantize.kmeans_runs (snd res) =? 0
     then VQVAEQuantize.data_initialized q else s_one).
Proof.
  induction cs as [|c cs IH]; intros q.
  - simpl. repeat split; reflexivity.
  - destruct c as [mode|p e|z g].
    + simpl. apply (IH (VQVAEQuantize.train mode q)).
    + simpl. apply (IH (VQVAEQuantize.step p e q)).
    + cbv zeta. rewrite run_forward. cbn [fst snd].
      destruct (IH (fst (fst (forward q z g)))) as (Hd & Hn & Hf).
      destruct (forward_keeps_configuration q z g) as (Hd' & Hn' & _).
      split; [congruence|]. split; [congruence|].
      rewrite Hf. unfold VQVAEQuantize.kmeans_runs.
      rewrite count_occ_app, forward_printed, forward_state.
      destruct (VQVAEQuantize.needs_seeding q); simpl.
      * destruct (count_occ _ _ _ =? 0); reflexivity.
      * reflexivity.
Qed.

End IndexGrid.

Lemma forward_index_grid_valid_witness :
  let q := VQVAEQuantize.train false (example_quantizer (A := float)) in
  let r := VQVAEQuantize.forward example_randperm example_kmeans2 q
             example_grid tt in
  has_shape3 1 1 2 (snd (snd r)) /\
  Forall (fun i => i < VQVAEQuantize.n_embed (fst (fst r)))
    (elements3 (snd (snd r))).
Proof.
  intros q r.
  apply (@forward_index_grid_valid float _ unit example_randperm
           example_kmeans2 q example_grid tt 1 2 1 2).
  - reflexivity.
  - vm_compute. repeat split; try lia. repeat constructor.
Defined.

Lemma forward_index_local_witness :
  let q := VQVAEQuantize.train false (example_quantizer (A := float)) in
  get3 0 (snd (snd (VQVAEQuantize.forward example_randperm example_kmeans2
                      q constant_grid tt))) 0 0 0 =
  get3 0 (snd (snd (VQVAEQuantize.forward example_randperm example_kmeans2
                      q constant_grid tt))) 0 0 1.
Proof.
  intros q.
  apply (@forward_index_local float _ unit example_randperm example_kmeans2
           q constant_grid tt 1 2 1 2); try lia.
  - reflexivity.
  - vm_compute. reflexivity.
Defined.

(** ** The sample the seeding clusters *)

Lemma map_nth_seq {X : Type} (l : list X) (d : X) :
  map (fun i => nth i l d) (seq 0 (length l)) = l.
Proof.
  apply nth_ext with (d := d) (d' := d).
  - now rewrite length_map, length_seq.
  - intros i Hi. rewrite length_map, length_seq in Hi.
    rewrite nth_map_in with (dx := 0) by (now rewrite length_seq).
    now rewrite seq_nth.
Qed.

(** When [randperm] returns a permutation of the row numbers, the seeding
    call clusters [min(20000, B*H*W)] rows of the flattened batch, all of
    them when there are at most 20000, stores the centroids as the
    codebook and sets the flag. *)
Lemma seeding_clusters_capped_sample {A : Type} `{Scalar A} (Rng : Type)
  (randperm : Rng -> nat -> list nat) (kmeans2 : Rng -> T2 A -> nat -> T2 A)
  (q : VQVAEQuantize.t) (z : T4 A) (g : Rng) (B C Hh W : nat) :
  let r := VQVAEQuantize.forward randperm kmeans2 q z g in
  let flatten := reshape_rows (VQVAEQuantize.project q z) in
  let sample := seeding_sample randperm flatten g in
  Permutation (randperm g (B * Hh * W)) (seq 0 (B * Hh * W)) ->
  size4 z = (B, C, Hh, W) ->
  VQVAEQuantize.needs_seeding q = true ->
  VQVAEQuantize.embed_weight (fst (fst r)) =
    kmeans2 g sample (VQVAEQuantize.n_embed q) /\
  VQVAEQuantize.data_initialized (fst (fst r)) = s_one /\
  length sample = Nat.min VQVAEQuantize.sample_cap (B * Hh * W) /\
  incl sample flatten /\
  (B * Hh * W <= VQVAEQuantize.sample_cap -> Permutation sample flatten).
Proof.
  intros r flatten sample Hperm Hs Hseed.
  assert (Hlen : length flatten = B * Hh * W).
  { unfold flatten, reshape_rows.
    apply length_reshape_rows, project_shape with (C := C). exact Hs. }
  unfold sample, seeding_sample. rewrite Hlen.
  split; [|split; [|split; [|split]]].
  - unfold r. rewrite forward_state, Hseed.
    unfold VQVAEQuantize.run_kmeans. fold flatten. rewrite Hlen. reflexivity.
  - unfold r. rewrite forward_state, Hseed. reflexivity.
  - rewrite length_map, length_firstn.
    now rewrite (Permutation_length Hperm), length_seq.
  - intros row Hrow. apply in_map_iff in Hrow.
    destruct Hrow as (i & <- & Hi). apply nth_In. rewrite Hlen.
    assert (Hin : In i (seq 0 (B * Hh * W))).
    { apply (Permutation_in _ Hperm).
      rewrite <- (firstn_skipn VQVAEQuantize.sample_cap
                    (randperm g (B * Hh * W))).
      apply in_or_app. left. exact Hi. }
    apply in_seq in Hin. lia.
  - intros Hsmall. rewrite firstn_all2
      by (now rewrite (Permutation_length Hperm), length_seq).
    apply Permutation_trans
      with (map (fun i => nth i flatten []) (seq 0 (B * Hh * W))).
    + apply Permutation_map. exact Hperm.
    + rewrite <- Hlen, map_nth_seq. apply Permutation_refl.
Qed.

Lemma seeding_clusters_capped_sample_witness :
  let q := example_quantizer (A := float) in
  let r := VQVAEQuantize.forward example_randperm example_kmeans2 q
             example_grid tt in
  let flatten := reshape_rows (VQVAEQuantize.project q example_grid) in
  let sample := seeding_sample example_randperm flatten tt in
  VQVAEQuantize.embed_weight (fst (fst r)) =
    example_kmeans2 tt sample (VQVAEQuantize.n_embed q) /\
  VQVAEQuantize.data_initialized (fst (fst r)) = s_one /\
  length sample = Nat.min VQVAEQuantize.sample_cap (1 * 1 * 2) /\
  incl sample flatten /\
  (1 * 1 * 2 <= VQVAEQuantize.sample_cap -> Permutation sample flatten).
Proof.
  intros q r flatten sample.
  apply (@seeding_clusters_capped_sample float _ unit example_randperm
           example_kmeans2 q example_grid tt 1 2 1 2).
  - apply Permutation_refl.
  - reflexivity.
  - vm_compute. reflexivity.
Defined.


(** ** The sign of the auxiliary loss *)

Lemma sum_nonneg_real (l : list R) :
  Forall (fun x => 0 <= x)%R l -> (0 <= s_sum l)%R.
Proof.
  induction 1 as [|x l Hx _ IH]; simpl in *; lra.
Qed.

Lemma squares_nonneg (a b : list R) :
  Forall (fun x => 0 <= x)%R
    (zip_with (fun x y : R => s_mul (s_sub x y) (s_sub x y)) a b).
Proof.
  revert b. induction a as [|x a IH]; intros [|y b]; simpl; constructor.
  - pose proof (Rle_0_sqr (x - y)) as Hsq. unfold Rsqr in Hsq. exact Hsq.
  - apply IH.
Qed.

Lemma mse_loss_nonneg (a b : list R) : (0 <= mse_loss a b)%R.
Proof.
  unfold mse_loss. pose proof (sum_nonneg_real (squares_nonneg a b)) as Hs.
  set (s := s_sum _) in *. clearbody s.
  unfold s_of_nat. simpl. rewrite <- INR_IZR_INZ.
  destruct (length a) as [|n].
  - simpl. unfold Rdiv. rewrite Rinv_0. lra.
  - apply Rmult_le_pos; [exact Hs|].
    apply Rlt_le, Rinv_0_lt_compat, lt_0_INR. lia.
Qed.





(** ** The outputs of the Gumbel-softmax quantizer *)

Lemma length_column {A : Type} `{Scalar A} (t : T4 A) (N b h w : nat) :
  length (column t N b h w) = N.
Proof. apply length_tabulate. Qed.

(** The index grid of the soft quantizer has the shape [B, H, W] and holds
    indices below [n_embed]. *)
Lemma gumbel_index_grid_valid {A : Type} `{Scalar A} `{Transcendental A}
  (Rng : Type) (gumbel_softmax : Rng -> T4 A -> A -> bool -> T4 A)
  (q : GumbelQuantize.t) (z : T4 A) (g : Rng) (B C Hh W : nat) :
  let ind := snd (GumbelQuantize.forward gumbel_softmax q z g) in
  size4 z = (B, C, Hh, W) ->
  GumbelQuantize.well_formed q ->
  has_shape3 B Hh W ind /\
  Forall (fun i => i < GumbelQuantize.n_embed q) (elements3 ind).
Proof.
  intros ind Hs (Hout & _ & Hpos). unfold ind, GumbelQuantize.forward.
  cbn [snd]. unfold GumbelQuantize.logits_shape. rewrite Hs.
  unfold argmax_dim1. split.
  - apply has_shape3_tabulate.
  - unfold elements3. apply Forall_concat, Forall_concat, Forall_tabulate.
    intros b _. apply Forall_tabulate. intros h _. apply Forall_tabulate.
    intros w _.
    set (col := column _ _ b h w).
    assert (Hlen : length col = GumbelQuantize.n_embed q)
      by (unfold col; rewrite length_column; exact Hout).
    rewrite <- Hlen. apply max_row_index.
    intros Hnil. rewrite Hnil in Hlen. simpl in Hlen. lia.
Qed.

Lemma gumbel_index_grid_valid_witness :
  let ind := snd (GumbelQuantize.forward example_gumbel_softmax
                    (example_gumbel (A := R)) example_grid tt) in
  has_shape3 1 1 2 ind /\
  Forall (fun i => i < GumbelQuantize.n_embed (example_gumbel (A := R)))
    (elements3 ind).
Proof.
  intros ind.
  apply (@gumbel_index_grid_valid R _ _ unit example_gumbel_softmax
           example_gumbel example_grid tt 1 2 1 2).
  - reflexivity.
  - unfold GumbelQuantize.well_formed, has_shape2. simpl.
    repeat split; try lia. repeat constructor.
Defined.

(** Over the reals the first maximum of a one-hot vector is its hot
    position. *)
Lemma argmax_one_hot_real (v : list R) (k : nat) :
  k < length v ->
  (forall j, j < length v -> nth j v 0%R = if j =? k then 1%R else 0%R) ->
  snd (max_row v) = k.
Proof.
  intros Hk Hv.
  assert (Hne : v <> []) by (destruct v; [simpl in Hk; lia | discriminate]).
  destruct (max_row_first_max R_ltb_irrefl R_ltb_trans R_ltb_cmp Hne)
    as (Hi & Hmax & Hge & _).
  set (i := snd (max_row v)) in *. set (m := fst (max_row v)) in *.
  specialize (Hge k Hk). apply R_ltb_false in Hge.
  rewrite (nth_indep v m 0%R Hk), (Hv k Hk), Nat.eqb_refl in Hge.
  rewrite (nth_indep v m 0%R Hi), (Hv i Hi) in Hmax.
  destruct (Nat.eqb_spec i k) as [Heq|Hne']; [exact Heq | lra].
Qed.

Lemma sum_select_real (n k : nat) (a : nat -> R) (v : list R) :
  k < n -> length v = n ->
  (forall j, j < n -> nth j v 0%R = if j =? k then 1%R else 0%R) ->
  s_sum (tabulate n (fun j => (nth j v 0 * a j)%R)) = a k.
Proof.
  intros Hk Hlen Hv.
  rewrite tabulate_ext with (g := fun j => if j =? k then a k else 0%R).
  - apply sum_indicator_real. exact Hk.
  - intros j Hj. rewrite (Hv j Hj).
    destruct (Nat.eqb_spec j k) as [->|_]; lra.
Qed.

(** With a hard sample the soft quantizer gathers: over the reals, where
    the sample is one-hot the returned grid holds, at every location, the
    codebook row of the index returned for that location. *)
Lemma gumbel_hard_sample_gathers_code (Rng : Type)
  (gumbel_softmax : Rng -> T4 R -> R -> bool -> T4 R)
  (q : GumbelQuantize.t) (z : T4 R) (g : Rng) (B C Hh W : nat) :
  let res := GumbelQuantize.forward gumbel_softmax q z g in
  GumbelQuantize.hard_samples_are_one_hot gumbel_softmax ->
  GumbelQuantize.well_formed q ->
  size4 z = (B, C, Hh, W) ->
  GumbelQuantize.hard q = true ->
  forall b d h w,
    b < B -> d < GumbelQuantize.embedding_dim q -> h < Hh -> w < W ->
    get4 0%R (fst (fst res)) b d h w =
    nth d (nth (get3 0 (snd res) b h w) (GumbelQuantize.embed_weight q) [])
      0%R.
Proof.
  intros res Hgs (Hout & _ & Hpos) Hs Hhard b d h w Hb Hd Hh' Hw.
  set (N := conv_out (GumbelQuantize.proj q)).
  set (s := GumbelQuantize.soft_one_hot gumbel_softmax q z g).
  assert (Hhot : is_one_hot (column s N b h w)).
  { unfold s, GumbelQuantize.soft_one_hot. rewrite Hhard.
    apply Hgs with (B := B) (Hh := Hh) (W := W); try assumption.
    - unfold GumbelQuantize.logits. apply conv1x1_shape with (C := C).
      exact Hs.
    - unfold N. rewrite Hout. exact Hpos. }
  destruct Hhot as (k & Hk & Hcol). rewrite length_column in Hk, Hcol.
  assert (Hind : get3 0 (snd res) b h w = k).
  { unfold res, GumbelQuantize.forward. cbn [snd].
    unfold GumbelQuantize.logits_shape. rewrite Hs. fold N s.
    unfold argmax_dim1, get3.
    rewrite (nth_tabulate _ _ Hb), (nth_tabulate _ _ Hh'),
      (nth_tabulate _ _ Hw).
    apply argmax_one_hot_real; rewrite length_column; assumption. }
  rewrite Hind.
  unfold res, GumbelQuantize.forward. cbn [fst].
  unfold GumbelQuantize.logits_shape. rewrite Hs. fold N s.
  unfold einsum_bnhw_nd, get4 at 1.
  rewrite (nth_tabulate _ _ Hb), (nth_tabulate _ _ Hd),
    (nth_tabulate _ _ Hh'), (nth_tabulate _ _ Hw).
  rewrite tabulate_ext with
    (g := fun n => (nth n (column s N b h w) 0
                    * nth d (nth n (GumbelQuantize.embed_weight q) []) 0)%R).
  - apply (@sum_select_real N k
             (fun n => nth d (nth n (GumbelQuantize.embed_weight q) []) 0%R)
             (column s N b h w) Hk (length_column s N b h w) Hcol).
  - intros n Hn. unfold column. rewrite (nth_tabulate _ _ Hn). reflexivity.
Qed.

Lemma gumbel_hard_sample_gathers_code_witness :
  let q := GumbelQuantize.train false (example_gumbel (A := R)) in
  let res := GumbelQuantize.forward example_gumbel_softmax q example_grid tt in
  get4 0%R (fst (fst res)) 0 1 0 1 =
  nth 1 (nth (get3 0 (snd res) 0 0 1) (GumbelQuantize.embed_weight q) [])
    0%R.
Proof.
  intros q res.
  apply (@gumbel_hard_sample_gathers_code unit example_gumbel_softmax q
           example_grid tt 1 2 1 2).
  - apply example_gumbel_softmax_one_hot.
  - unfold GumbelQuantize.well_formed, has_shape2. simpl.
    repeat split; try lia. repeat constructor.
  - reflexivity.
  - reflexivity.
  - lia.
  - simpl. lia.
  - lia.
  - lia.
Defined.

(** ** Bounds on the Kullback-Leibler loss *)

Lemma sum_map_le_real {X : Type} (f g : X -> R) (l : list X) :
  (forall x, In x l -> (f x <= g x)%R) ->
  (s_sum (map f l) <= s_sum (map g l))%R.
Proof.
  induction l as [|x l IH]; intros Hfg; simpl; [lra|].
  assert (Hx : (f x <= g x)%R) by (apply Hfg; left; reflexivity).
  assert (Hl : (s_sum (map f l) <= s_sum (map g l))%R)
    by (apply IH; intros y Hy; apply Hfg; right; exact Hy).
  simpl in Hl. lra.
Qed.

Lemma sum_map_scale_real (c : R) (l : list R) :
  s_sum (map (fun x => x * c)%R l) = (s_sum l * c)%R.
Proof.
  induction l as [|x l IH]; simpl in *; [lra|]. rewrite IH. lra.
Qed.

Lemma sum_map_shift_real (c : R) (l : list R) :
  s_sum (map (fun x => x - c)%R l) = (s_sum l - INR (length l) * c)%R.
Proof.
  induction l as [|x l IH]; [simpl; lra|].
  cbn [map s_sum length]. rewrite IH, S_INR. simpl. lra.
Qed.

Lemma exp_sum_pos (v : list R) :
  v <> [] -> (0 < s_sum (map exp v))%R.
Proof.
  destruct v as [|x v]; [congruence|]. intros _.
  assert (Hrest : (0 <= s_sum (map exp v))%R).
  { apply sum_nonneg_real, Forall_forall. intros y Hy.
    apply in_map_iff in Hy. destruct Hy as (u & <- & _).
    apply Rlt_le, exp_pos. }
  simpl in *. pose proof (exp_pos x). lra.
Qed.

Lemma exp_le_sum (v : list R) (x : R) :
  In x v -> (exp x <= s_sum (map exp v))%R.
Proof.
  induction v as [|y v IH]; [contradiction|]. intros [->|Hin]; simpl.
  - assert (Hrest : (0 <= s_sum (map exp v))%R).
    { apply sum_nonneg_real, Forall_forall. intros u Hu.
      apply in_map_iff in Hu. destruct Hu as (t & <- & _).
      apply Rlt_le, exp_pos. }
    simpl in Hrest. lra.
  - specialize (IH Hin). simpl in IH. pose proof (exp_pos y). lra.
Qed.

(** The softmax of a non-empty vector is a probability vector. *)
Lemma softmax_probabilities (v : list R) :
  v <> [] ->
  length (softmax v) = length v /\
  (forall p, In p (softmax v) -> (0 < p <= 1)%R) /\
  s_sum (softmax v) = 1%R.
Proof.
  intros Hne. pose proof (exp_sum_pos Hne) as HS.
  unfold softmax. cbn [s_exp s_div R_scalar R_transcendental].
  set (S := s_sum (map exp v)) in *.
  split; [apply length_map|]. split.
  - intros p Hp. apply in_map_iff in Hp. destruct Hp as (x & <- & Hx).
    pose proof (exp_pos x) as Hpos. pose proof (exp_le_sum v x Hx) as Hle.
    fold S in Hle. clearbody S. split.
    + apply Rdiv_lt_0_compat; assumption.
    + apply Rmult_le_reg_r with S; [exact HS|].
      unfold Rdiv. rewrite Rmult_assoc, Rinv_l by lra. lra.
  - rewrite <- (map_map exp (fun e => (e / S)%R)).
    unfold Rdiv. rewrite sum_map_scale_real. fold S.
    clearbody S. field. lra.
Qed.

Lemma ln_lower_real (y : R) : (0 < y)%R -> (1 - / y <= ln y)%R.
Proof.
  intros Hy. pose proof (exp_ineq1_le (- ln y)) as Hexp.
  rewrite exp_Ropp, exp_ln in Hexp by exact Hy. lra.
Qed.

Lemma ln_monotone_real (x y : R) : (0 < x)%R -> (x <= y)%R -> (ln x <= ln y)%R.
Proof.
  intros Hx [Hlt| ->]; [|lra]. apply Rlt_le, ln_increasing; assumption.
Qed.

(** The term of line 99 for a probability vector over [n] categories lies
    between 0 and [ln (n + 1e-10)]. *)
Lemma kl_term_bounds (n : nat) (p : list R) :
  0 < n -> length p = n ->
  (forall x, In x p -> (0 < x <= 1)%R) ->
  s_sum p = 1%R ->
  (0 <= kl_term n p <= ln (INR n + 1e-10))%R.
Proof.
  intros Hn Hlen Hp Hsum.
  assert (Hn0 : (0 < INR n)%R) by (apply lt_0_INR; exact Hn).
  assert (Hfloor : (log_floor (A := R) = 1e-10)%R)
    by (unfold log_floor; simpl; lra).
  unfold kl_term, s_of_nat. rewrite Hfloor.
  cbn [s_mul s_add s_log s_of_Z R_scalar R_transcendental].
  rewrite <- INR_IZR_INZ. split.
  - apply Rle_trans with (s_sum (map (fun x => x - / INR n)%R p)).
    + rewrite sum_map_shift_real, Hsum, Hlen.
      rewrite Rinv_r by lra. lra.
    + apply sum_map_le_real. intros x Hx. destruct (Hp x Hx) as [Hx0 Hx1].
      assert (Hxn : (0 < x * INR n)%R) by (apply Rmult_lt_0_compat; lra).
      assert (Hy : (0 < x * INR n + 1e-10)%R) by lra.
      pose proof (ln_lower_real Hy) as Hln.
      assert (Hinv : (/ (x * INR n + 1e-10) <= / (x * INR n))%R)
        by (apply Rinv_le_contravar; lra).
      assert (Hprod : (x * / (x * INR n) = / INR n)%R) by (field; lra).
      assert (Hmul : (x * (1 - / (x * INR n + 1e-10))
                      <= x * ln (x * INR n + 1e-10))%R)
        by (apply Rmult_le_compat_l; lra).
      assert (Hmul2 : (x * / (x * INR n + 1e-10) <= x * / (x * INR n))%R)
        by (apply Rmult_le_compat_l; lra).
      lra.
  - apply Rle_trans
      with (s_sum (map (fun x => x * ln (INR n + 1e-10))%R p)).
    + apply sum_map_le_real. intros x Hx. destruct (Hp x Hx) as [Hx0 Hx1].
      apply Rmult_le_compat_l; [lra|].
      assert (Hxn : (0 < x * INR n)%R) by (apply Rmult_lt_0_compat; lra).
      apply ln_monotone_real; [lra|].
      assert (x * INR n <= 1 * INR n)%R
        by (apply Rmult_le_compat_r; lra).
      lra.
    + rewrite sum_map_scale_real, Hsum. lra.
Qed.

Lemma mean_list_bounds_real (M : R) (l : list R) :
  (0 <= M)%R ->
  (forall x, In x l -> (0 <= x <= M)%R) ->
  (0 <= mean_list l <= M)%R.
Proof.
  intros HM Hl. unfold mean_list, s_of_nat.
  cbn [s_div s_of_Z R_scalar]. rewrite <- INR_IZR_INZ.
  assert (Hsum : (0 <= s_sum l <= INR (length l) * M)%R).
  { induction l as [|x l IH]; [simpl; lra|].
    cbn [s_sum length]. rewrite S_INR.
    assert (Hx : (0 <= x <= M)%R) by (apply Hl; left; reflexivity).
    assert (Hrest : (0 <= s_sum l <= INR (length l) * M)%R)
      by (apply IH; intros y Hy; apply Hl; right; exact Hy).
    simpl. lra. }
  destruct (length l) as [|n].
  - simpl in Hsum. change (INR 0) with 0%R. unfold Rdiv. rewrite Rinv_0. lra.
  - set (N := INR (S n)) in *.
    assert (HN : (0 < N)%R) by (unfold N; apply lt_0_INR; lia).
    clearbody N. set (s := s_sum l) in *. clearbody s. split.
    + apply Rmult_le_pos; [lra|]. apply Rlt_le, Rinv_0_lt_compat, HN.
    + apply Rmult_le_reg_r with N; [exact HN|].
      unfold Rdiv. rewrite Rmult_assoc, Rinv_l by lra. lra.
Qed.

Lemma kl_loss_bounds_real (q : GumbelQuantize.t) (z : T4 R)
  (B C Hh W : nat) :
  size4 z = (B, C, Hh, W) ->
  GumbelQuantize.well_formed q ->
  (0 <= GumbelQuantize.kl_loss q z
     <= 5e-4 * ln (INR (GumbelQuantize.n_embed q) + 1e-10))%R.
Proof.
  intros Hs (Hout & _ & Hpos).
  rewrite (kl_loss_by_location q Hs), Hout.
  set (n := GumbelQuantize.n_embed q) in *.
  set (M := ln (INR n + 1e-10)).
  assert (Hn1 : (1 <= INR n)%R)
    by (change 1%R with (INR 1); apply le_INR; lia).
  assert (HM : (0 <= M)%R).
  { unfold M. rewrite <- ln_1. apply ln_monotone_real; lra. }
  set (terms := map _ (locations B Hh W)).
  assert (Hterms : forall x, In x terms -> (0 <= x <= M)%R).
  { intros x Hx. unfold terms in Hx. apply in_map_iff in Hx.
    destruct Hx as ([[b h] w] & <- & _).
    set (col := column (GumbelQuantize.logits q z) n b h w).
    assert (Hcol : col <> []).
    { intros Hnil. pose proof (length_column (GumbelQuantize.logits q z) n b h w)
        as Hlen. fold col in Hlen. rewrite Hnil in Hlen. simpl in Hlen. lia. }
    destruct (softmax_probabilities Hcol) as (Hlen & Hp & Hsum).
    apply kl_term_bounds; try assumption.
    rewrite Hlen. apply length_column. }
  pose proof (@mean_list_bounds_real M terms HM Hterms) as Hmean.
  set (m := mean_list terms) in *. clearbody m.
  assert (Hscale : GumbelQuantize.kld_scale = 5e-4%R)
    by (unfold GumbelQuantize.kld_scale; simpl; lra).
  rewrite Hscale. cbn [s_mul R_scalar]. split; [nra|].
  apply Rmult_le_compat_l; lra.
Qed.

(** Over the reals the auxiliary loss of the soft quantizer on a non-empty
    grid lies between 0 and [5e-4 * ln (n_embed + 1e-10)], whatever the
    logits and the sample. *)
Lemma gumbel_diff_bounds (Rng : Type)
  (gumbel_softmax : Rng -> T4 R -> R -> bool -> T4 R)
  (q : GumbelQuantize.t) (z : T4 R) (g : Rng) (B C Hh W : nat) :
  let diff := snd (fst (GumbelQuantize.forward gumbel_softmax q z g)) in
  size4 z = (B, C, Hh, W) ->
  GumbelQuantize.well_formed q ->
  0 < B * Hh * W ->
  (0 <= diff <= 5e-4 * ln (INR (GumbelQuantize.n_embed q) + 1e-10))%R.
Proof.
  intros diff Hs Hwf _. unfold diff, GumbelQuantize.forward. cbn [fst snd].
  apply (kl_loss_bounds_real Hs Hwf).
Qed.

Lemma gumbel_diff_bounds_witness :
  let q := example_gumbel (A := R) in
  let diff := snd (fst (GumbelQuantize.forward example_gumbel_softmax q
                          example_grid tt)) in
  (0 <= diff <= 5e-4 * ln (INR (GumbelQuantize.n_embed q) + 1e-10))%R.
Proof.
  intros q diff.
  apply (@gumbel_diff_bounds unit example_gumbel_softmax q example_grid tt
           1 2 1 2).
  - reflexivity.
  - unfold GumbelQuantize.well_formed, has_shape2. simpl.
    repeat split; try lia. repeat constructor.
  - vm_compute. lia.
Defined.


(** ** Shapes on every input *)


Lemma conv_size_keep3 (x : nat) :
  VQVAE.conv_size x 3 1 1 = if 1 <=? x then Some x else None.
Proof.
  destruct (Nat.leb_spec 1 x) as [Hx|Hx].
  - apply conv_size_same3. lia.
  - unfold VQVAE.conv_size.
    replace (3 <=? x + 2 * 1) with false by (symmetry; apply Nat.leb_gt; lia).
    reflexivity.
Qed.


(** A residual block returns the shape it is given; it refuses a grid
    whose channel count is not its [in_channel] and a grid with an empty
    spatial axis, whatever its inner width [channel]. *)
Lemma res_block_shape_any (in_channel channel B C Hh W : nat) :
  VQVAE.layer_shape (VQVAE.ResBlock in_channel channel) (B, C, Hh, W) =
  if (C =? in_channel) && (1 <=? Hh) && (1 <=? W)
  then Some (B, C, Hh, W) else None.
Proof.
  destruct (Nat.eqb_spec C in_channel) as [->|Hc].
  - destruct (Nat.leb_spec 1 Hh) as [HH|HH];
      [destruct (Nat.leb_spec 1 W) as [HW|HW]|].
    + apply res_block_shape; lia.
    + unfold VQVAE.layer_shape, VQVAE.conv_shape.
      rewrite Nat.eqb_refl, !conv_size_keep3.
      replace (1 <=? W) with false by (symmetry; apply Nat.leb_gt; lia).
      now destruct (1 <=? Hh).
    + unfold VQVAE.layer_shape, VQVAE.conv_shape.
      rewrite Nat.eqb_refl, !conv_size_keep3.
      replace (1 <=? Hh) with false by (symmetry; apply Nat.leb_gt; lia).
      reflexivity.
  - unfold VQVAE.layer_shape, VQVAE.conv_shape.
    apply Nat.eqb_neq in Hc. now rewrite Hc.
Qed.






(** ** The optimizer of a constructed model *)

(** The module tree of a constructed model does not depend on the sizes or
    on the flavor. *)
Lemma module_tree_of_init {A : Type} `{Scalar A} (args : VQVAE.arguments)
  (nh rnh ed ne : nat) (pw : T2 A) (pb : list A) (e : T2 A) (m : VQVAE.t) :
  VQVAE.init args nh rnh ed ne pw pb e = Some m ->
  VQVAE.module_tree m = example_tree.
Proof.
  intros Hinit.
  destruct (init_inversion _ _ _ _ _ _ _ _ Hinit) as (Henc & Hdec & _).
  unfold VQVAE.module_tree. rewrite Henc, Hdec. vm_compute. reflexivity.
Qed.

(** For every model the constructor builds, whatever the sizes and the
    flavor, both assertions of [configure_optimizers] pass; the decayed
    group holds the 15 convolution weights, that is every parameter whose
    name ends in "weight" except the codebook, and the other group holds
    the 15 biases and the codebook. *)
Lemma configure_optimizers_of_init {A : Type} `{Scalar A}
  (args : VQVAE.arguments)
  (nh rnh ed ne : nat) (pw : T2 A) (pb : list A) (e : T2 A) (m : VQVAE.t) :
  VQVAE.init args nh rnh ed ne pw pb e = Some m ->
  exists decayed plain,
    configure_optimizers (VQVAE.module_tree m) =
      AdamW [ {| group_params := decayed; weight_decay := (1 # 100000)%Q |};
              {| group_params := plain; weight_decay := 0%Q |} ]
        (3 # 10000)%Q (1 # 100000)%Q /\
    length decayed = 15 /\ length plain = 16 /\
    (forall x, In x decayed <->
       In x (named_parameters (VQVAE.module_tree m)) /\
       endswith x "weight" = true /\ x <> "quantizer.embed.weight"%string) /\
    (forall x, In x plain <->
       In x (named_parameters (VQVAE.module_tree m)) /\
       (endswith x "bias" = true \/ x = "quantizer.embed.weight"%string)).
Proof.
  intros Hinit. rewrite (module_tree_of_init _ _ _ _ _ _ _ _ Hinit).
  eexists. eexists. split; [vm_compute; reflexivity|].
  split; [reflexivity|]. split; [reflexivity|].
  let names := eval vm_compute in (named_parameters example_tree) in
  change (named_parameters example_tree) with names. split; intros x; split.
  - intros Hx. cbn [In] in Hx.
    repeat (destruct Hx as [<-|Hx];
            [split; [cbn [In]; tauto | split; [vm_compute; reflexivity
                                              | discriminate]]|]).
    contradiction.
  - intros (Hx & Hend & Hne). cbn [In] in Hx.
    repeat (destruct Hx as [<-|Hx];
            [first [ cbn [In]; tauto
                   | exfalso; vm_compute in Hend; discriminate
                   | exfalso; apply Hne; reflexivity ]|]).
    contradiction.
  - intros Hx. cbn [In] in Hx.
    repeat (destruct Hx as [<-|Hx];
            [split; [cbn [In]; tauto
                    | first [ left; vm_compute; reflexivity
                            | right; reflexivity ]]|]).
    contradiction.
  - intros (Hx & Hend). cbn [In] in Hx.
    repeat (destruct Hx as [<-|Hx];
            [first [ cbn [In]; tauto
                   | exfalso; destruct Hend as [Hend|Hend];
                     [vm_compute in Hend; discriminate | discriminate] ]|]).
    contradiction.
Qed.

Lemma configure_optimizers_of_init_witness :
  exists (m : VQVAE.t (A := R)) decayed plain,
    default_model "gumbel" = Some m /\
    configure_optimizers (VQVAE.module_tree m) =
      AdamW [ {| group_params := decayed; weight_decay := (1 # 100000)%Q |};
              {| group_params := plain; weight_decay := 0%Q |} ]
        (3 # 10000)%Q (1 # 100000)%Q /\
    length decayed = 15 /\ length plain = 16 /\
    (forall x, In x decayed <->
       In x (named_parameters (VQVAE.module_tree m)) /\
       endswith x "weight" = true /\ x <> "quantizer.embed.weight"%string) /\
    (forall x, In x plain <->
       In x (named_parameters (VQVAE.module_tree m)) /\
       (endswith x "bias" = true \/ x = "quantizer.embed.weight"%string)).
Proof.
  eexists.
  destruct (@configure_optimizers_of_init R _
              {| VQVAE.vq_flavor := "gumbel" |} 128 32 64 512 [] [] [] _
              eq_refl) as (decayed & plain & Hopt).
  exists decayed, plain. split; [reflexivity | exact Hopt].
Defined.

(** ** The parameter groups handed to the optimizer *)

Lemma insert_sorted_permutation (x : string) (l : list string) :
  Permutation (insert_sorted x l) (x :: l).
Proof.
  induction l as [|y l IH]; simpl; [apply Permutation_refl|].
  destruct (String.leb x y); [apply Permutation_refl|].
  apply Permutation_trans with (y :: x :: l);
    [apply perm_skip, IH | apply perm_swap].
Qed.

Lemma sorted_permutation (s : set string) : Permutation (sorted s) s.
Proof.
  induction s as [|x s IH]; simpl; [apply perm_nil|].
  apply Permutation_trans with (x :: sorted s);
    [apply insert_sorted_permutation | apply perm_skip, IH].
Qed.

Lemma insert_sorted_ordered (x : string) (l : list string) :
  Sorted (fun a b => String.leb a b = true) l ->
  Sorted (fun a b => String.leb a b = true) (insert_sorted x l).
Proof.
  induction l as [|y l IH]; intros Hl; simpl.
  - constructor; constructor.
  - destruct (String.leb x y) eqn:Hxy.
    + constructor; [exact Hl | constructor; exact Hxy].
    + inversion Hl as [|? ? Hl' Hhd]; subst.
      constructor; [apply IH, Hl'|].
      destruct l as [|u l]; simpl.
      * constructor. destruct (String.leb_total x y) as [Hc|Hc];
          [congruence | exact Hc].
      * destruct (String.leb x u).
        -- constructor. destruct (String.leb_total x y) as [Hc|Hc];
             [congruence | exact Hc].
        -- inversion Hhd; subst. constructor. assumption.
Qed.

Lemma sorted_ordered (s : set string) :
  Sorted (fun a b => String.leb a b = true) (sorted s).
Proof.
  induction s as [|x s IH]; simpl; [constructor|].
  apply insert_sorted_ordered, IH.
Qed.

Lemma separate_nodup (mn : string) (m : Module) (pn : string) (p : partition) :
  NoDup (decay p) /\ NoDup (no_decay p) ->
  NoDup (decay (separate mn m pn p)) /\ NoDup (no_decay (separate mn m pn p)).
Proof.
  intros [Hd Hn]. unfold separate.
  destruct (endswith pn "bias"); [|destruct (_ && _); [|destruct (_ && _)]];
    simpl; split; try assumption; apply set_add_nodup; assumption.
Qed.

Lemma separate_all_nodup (self : Module) :
  NoDup (decay (separate_all self)) /\ NoDup (no_decay (separate_all self)).
Proof.
  unfold separate_all.
  set (p0 := {| decay := empty_set string; no_decay := empty_set string |}).
  assert (H0 : NoDup (decay p0) /\ NoDup (no_decay p0))
    by (split; constructor).
  revert H0. generalize p0. clear p0.
  induction (visited self) as [|[[mn m] pn] l IH]; intros p Hp; simpl.
  - exact Hp.
  - apply IH, separate_nodup, Hp.
Qed.

(** When [configure_optimizers] returns, it returns AdamW with learning
    rate 3e-4 over two groups, the first with weight decay 1e-5 and the
    second with none; each group is in ascending order of the names,
    no name occurs twice in the two groups together, and every parameter
    name of the model is in one of them. *)
Lemma optimizer_groups_sorted_partition (self : Module)
  (groups : list param_group) (lr wd : Q) :
  configure_optimizers self = AdamW groups lr wd ->
  exists decayed plain,
    groups = [ {| group_params := decayed; weight_decay := (1 # 100000)%Q |};
               {| group_params := plain; weight_decay := 0%Q |} ] /\
    lr = (3 # 10000)%Q /\ wd = (1 # 100000)%Q /\
    Sorted (fun a b => String.leb a b = true) decayed /\
    Sorted (fun a b => String.leb a b = true) plain /\
    NoDup (decayed ++ plain) /\
    (forall x, In x (named_parameters self) -> In x (decayed ++ plain)).
Proof.
  intros Hopt.
  assert (Hsucc : exists groups lr wd,
             configure_optimizers self = AdamW groups lr wd)
    by (exists groups, lr, wd; exact Hopt).
  apply configure_optimizers_succeeds in Hsucc.
  destruct Hsucc as [Hdisj Hcover].
  destruct (separate_all_nodup self) as [Hnd Hnn].
  set (p := separate_all self) in *.
  exists (sorted (decay p)), (sorted (no_decay p)).
  assert (Hgroups : groups =
            [ {| group_params := sorted (decay p);
                 weight_decay := (1 # 100000)%Q |};
              {| group_params := sorted (no_decay p); weight_decay := 0%Q |} ]
            /\ lr = (3 # 10000)%Q /\ wd = (1 # 100000)%Q).
  { unfold configure_optimizers in Hopt. fold p in Hopt.
    destruct (negb _) in Hopt; [discriminate|].
    destruct (negb _) in Hopt; [discriminate|].
    injection Hopt as <- <- <-. auto. }
  destruct Hgroups as (Hg & Hlr & Hwd).
  split; [exact Hg|]. split; [exact Hlr|]. split; [exact Hwd|].
  split; [apply sorted_ordered|]. split; [apply sorted_ordered|]. split.
  - apply Permutation_NoDup with (decay p ++ no_decay p).
    + apply Permutation_sym, Permutation_app; apply sorted_permutation.
    + apply NoDup_app; [exact Hnd | exact Hnn |].
      intros x Hx Hx'. apply (Hdisj x). split; assumption.
  - intros x Hx. apply in_or_app.
    destruct (Hcover x Hx) as [Hin|Hin]; [left|right];
      apply (Permutation_in x (Permutation_sym (sorted_permutation _)));
      exact Hin.
Qed.

Lemma optimizer_groups_sorted_partition_witness :
  exists groups decayed plain,
    configure_optimizers example_tree =
      AdamW groups (3 # 10000)%Q (1 # 100000)%Q /\
    groups = [ {| group_params := decayed; weight_decay := (1 # 100000)%Q |};
               {| group_params := plain; weight_decay := 0%Q |} ] /\
    (3 # 10000)%Q = (3 # 10000)%Q /\ (1 # 100000)%Q = (1 # 100000)%Q /\
    Sorted (fun a b => String.leb a b = true) decayed /\
    Sorted (fun a b => String.leb a b = true) plain /\
    NoDup (decayed ++ plain) /\
    (forall x, In x (named_parameters example_tree) -> In x (decayed ++ plain)).
Proof.
  let c := eval vm_compute in (configure_optimizers example_tree) in
  match c with
  | AdamW ?groups ?lr ?wd =>
      assert (Heq : configure_optimizers example_tree = AdamW groups lr wd)
        by (vm_compute; reflexivity);
      destruct (optimizer_groups_sorted_partition example_tree Heq)
        as (decayed & plain & Hrest);
      exists groups, decayed, plain; split; [exact Heq | exact Hrest]
  end.
Defined.

(** ** The code statistics of a validation step *)

Lemma sum_indicator_count (k : nat) (l : list nat) :
  s_sum (map (fun i => if k =? i then 1%R else 0%R) l)
  = INR (count_occ Nat.eq_dec l k).
Proof.
  induction l as [|x l IH]; [reflexivity|].
  cbn [map s_sum count_occ]. rewrite IH.
  destruct (Nat.eq_dec x k) as [->|Hne].
  - rewrite Nat.eqb_refl, S_INR. simpl. lra.
  - replace (k =? x) with false by (symmetry; apply Nat.eqb_neq; congruence).
    simpl. lra.
Qed.

Lemma sum_tabulate_add_real (n : nat) (f g : nat -> R) :
  s_sum (tabulate n (fun k => (f k + g k)%R))
  = (s_sum (tabulate n f) + s_sum (tabulate n g))%R.
Proof.
  unfold tabulate. induction (seq 0 n) as [|x l IH]; simpl in *; [lra|].
  rewrite IH. lra.
Qed.

Lemma sum_tabulate_zero_real (n : nat) :
  s_sum (tabulate n (fun _ => 0%R)) = 0%R.
Proof.
  unfold tabulate. induction (seq 0 n) as [|x l IH]; simpl in *; [lra|].
  rewrite IH. lra.
Qed.

(** Every index below [n] is counted once over the [n] bins. *)
Lemma sum_counts_real (n : nat) (l : list nat) :
  Forall (fun i => i < n) l ->
  s_sum (tabulate n (fun k => INR (count_occ Nat.eq_dec l k)))
  = INR (length l).
Proof.
  induction 1 as [|x l Hx _ IH]; [apply sum_tabulate_zero_real|].
  rewrite tabulate_ext with
    (g := fun k => ((if k =? x then 1 else 0)
                    + INR (count_occ Nat.eq_dec l k))%R).
  - rewrite sum_tabulate_add_real, IH, (@sum_indicator_real n x 1%R Hx).
    cbn [length]. rewrite S_INR. lra.
  - intros k _. cbn [count_occ].
    destruct (Nat.eq_dec x k) as [->|Hne].
    + rewrite Nat.eqb_refl, S_INR. lra.
    + replace (k =? x) with false
        by (symmetry; apply Nat.eqb_neq; congruence).
      lra.
Qed.

Lemma avg_probs_entry (n k : nat) (ind : T3 nat) :
  k < n ->
  nth k (VQVAE.avg_probs (A := R) n ind) 0%R
  = (INR (count_occ Nat.eq_dec (elements3 ind) k)
     / INR (length (elements3 ind)))%R.
Proof.
  intros Hk. unfold VQVAE.avg_probs, VQVAE.mean0, VQVAE.encodings.
  rewrite (nth_tabulate _ _ Hk), map_map.
  unfold mean_list, s_of_nat. cbn [s_div s_of_Z R_scalar].
  rewrite <- INR_IZR_INZ, length_map. f_equal.
  rewrite <- sum_indicator_count. f_equal. apply map_ext. intros i.
  unfold VQVAE.one_hot. now rewrite (nth_tabulate _ _ Hk).
Qed.

(** Over the reals [avg_probs] is the empirical distribution of the codes:
    its entry [k] is the share of the locations that selected code [k], and
    the entries add up to 1. *)
Lemma avg_probs_are_frequencies (n : nat) (ind : T3 nat) :
  elements3 ind <> [] ->
  Forall (fun i => i < n) (elements3 ind) ->
  length (VQVAE.avg_probs (A := R) n ind) = n /\
  (forall k, k < n ->
     nth k (VQVAE.avg_probs (A := R) n ind) 0%R
     = (INR (count_occ Nat.eq_dec (elements3 ind) k)
        / INR (length (elements3 ind)))%R) /\
  s_sum (VQVAE.avg_probs (A := R) n ind) = 1%R.
Proof.
  intros Hne Hall. split; [apply length_tabulate|].
  split; [intros k Hk; apply avg_probs_entry, Hk|].
  assert (Heq : VQVAE.avg_probs (A := R) n ind
                = tabulate n (fun k =>
                    (INR (count_occ Nat.eq_dec (elements3 ind) k)
                     * / INR (length (elements3 ind)))%R)).
  { apply nth_ext with (d := 0%R) (d' := 0%R).
    - unfold VQVAE.avg_probs, VQVAE.mean0. now rewrite !length_tabulate.
    - intros k Hk. unfold VQVAE.avg_probs, VQVAE.mean0 in Hk.
      rewrite length_tabulate in Hk.
      rewrite (avg_probs_entry ind Hk), (nth_tabulate _ _ Hk). reflexivity. }
  rewrite Heq. unfold tabulate.
  rewrite <- (map_map (fun k => INR (count_occ Nat.eq_dec (elements3 ind) k))
                (fun c => (c * / INR (length (elements3 ind)))%R)).
  rewrite sum_map_scale_real.
  pose proof (sum_counts_real Hall) as Hsum. unfold tabulate in Hsum.
  rewrite Hsum. apply Rinv_r.
  apply not_0_INR. intros Hlen. apply length_zero_iff_nil in Hlen.
  contradiction.
Qed.

Lemma avg_probs_are_frequencies_witness :
  let ind := [[[1; 0]; [1; 1]]] in
  length (VQVAE.avg_probs (A := R) 3 ind) = 3 /\
  (forall k, k < 3 ->
     nth k (VQVAE.avg_probs (A := R) 3 ind) 0%R
     = (INR (count_occ Nat.eq_dec (elements3 ind) k)
        / INR (length (elements3 ind)))%R) /\
  s_sum (VQVAE.avg_probs (A := R) 3 ind) = 1%R.
Proof.
  intros ind. apply (@avg_probs_are_frequencies 3 ind).
  - discriminate.
  - repeat constructor.
Defined.

Lemma length_filter_map {X Y : Type} (P : Y -> bool) (f : X -> Y)
  (l : list X) :
  length (filter P (map f l)) = length (filter (fun x => P (f x)) l).
Proof.
  induction l as [|x l IH]; simpl; [reflexivity|].
  destruct (P (f x)); simpl; now rewrite IH.
Qed.

Lemma cluster_use_nodup_real (n : nat) (ind : T3 nat) :
  elements3 ind <> [] ->
  Forall (fun i => i < n) (elements3 ind) ->
  VQVAE.cluster_use (A := R) n ind
  = length (nodup Nat.eq_dec (elements3 ind)).
Proof.
  intros Hne Hall. unfold VQVAE.cluster_use.
  set (els := elements3 ind) in *.
  assert (HN : (0 < INR (length els))%R).
  { apply lt_0_INR. destruct els; [congruence | simpl; lia]. }
  assert (Heq : VQVAE.avg_probs (A := R) n ind
                = map (fun k => (INR (count_occ Nat.eq_dec els k)
                                 / INR (length els))%R) (seq 0 n)).
  { apply nth_ext with (d := 0%R) (d' := 0%R).
    - unfold VQVAE.avg_probs, VQVAE.mean0.
      now rewrite length_tabulate, length_map, length_seq.
    - intros k Hk. unfold VQVAE.avg_probs, VQVAE.mean0 in Hk.
      rewrite length_tabulate in Hk.
      rewrite (avg_probs_entry ind Hk).
      change (map ?f (seq 0 n)) with (tabulate n f).
      now rewrite (nth_tabulate _ _ Hk). }
  rewrite Heq, length_filter_map.
  apply Permutation_length, NoDup_Permutation.
  - apply NoDup_filter, seq_NoDup.
  - apply NoDup_nodup.
  - intros k. rewrite filter_In, nodup_In, in_seq. split.
    + intros [_ Hpos]. apply R_ltb_true in Hpos.
      apply (count_occ_In Nat.eq_dec).
      destruct (count_occ Nat.eq_dec els k) as [|c] eqn:Hc; [|lia].
      exfalso. simpl in Hpos. unfold Rdiv in Hpos.
      rewrite Rmult_0_l in Hpos. lra.
    + intros Hin. split.
      * rewrite Forall_forall in Hall. specialize (Hall k Hin). lia.
      * apply R_ltb_true. apply (count_occ_In Nat.eq_dec) in Hin.
        apply Rdiv_lt_0_compat; [|exact HN].
        apply lt_0_INR. lia.
Qed.

(** Over the reals [cluster_use] is the number of distinct codes in the
    index grid. *)
Lemma cluster_use_counts_distinct_codes (n : nat) (ind : T3 nat) :
  elements3 ind <> [] ->
  Forall (fun i => i < n) (elements3 ind) ->
  VQVAE.cluster_use (A := R) n ind
  = length (nodup Nat.eq_dec (elements3 ind)).
Proof. apply cluster_use_nodup_real. Qed.

Lemma cluster_use_counts_distinct_codes_witness :
  VQVAE.cluster_use (A := R) 3 [[[1; 0]; [1; 1]]]
  = length (nodup Nat.eq_dec (elements3 [[[1; 0]; [1; 1]]])).
Proof.
  apply (@cluster_use_counts_distinct_codes 3 [[[1; 0]; [1; 1]]]).
  - discriminate.
  - repeat constructor.
Defined.

(** ** The training and validation steps *)

Lemma length_elements3 {X : Type} (B Hh W : nat) (t : T3 X) :
  has_shape3 B Hh W t -> length (elements3 t) = B * Hh * W.
Proof.
  intros [HB Hrows]. unfold elements3.
  assert (H1 : Forall (fun p => length p = Hh) t).
  { eapply Forall_impl; [|exact Hrows]. intros p [Hp _]. exact Hp. }
  assert (H2 : Forall (fun r => length r = W) (concat t)).
  { apply Forall_concat. eapply Forall_impl; [|exact Hrows].
    intros p [_ Hp]. exact Hp. }
  rewrite (length_concat_uniform H2), (length_concat_uniform H1), HB.
  reflexivity.
Qed.

Lemma nodup_count_bounds (n : nat) (l : list nat) :
  l <> [] -> Forall (fun i => i < n) l ->
  1 <= length (nodup Nat.eq_dec l) <= Nat.min n (length l).
Proof.
  intros Hne Hall. split.
  - destruct l as [|x l]; [congruence|].
    assert (Hin : In x (nodup Nat.eq_dec (x :: l)))
      by (apply nodup_In; left; reflexivity).
    destruct (nodup Nat.eq_dec (x :: l)); [contradiction | simpl; lia].
  - apply Nat.min_glb.
    + rewrite <- (length_seq n 0).
      apply NoDup_incl_length; [apply NoDup_nodup|].
      intros k Hk. apply nodup_In in Hk. rewrite Forall_forall in Hall.
      apply in_seq. specialize (Hall k Hk). lia.
    + apply NoDup_incl_length; [apply NoDup_nodup|].
      intros k Hk. apply nodup_In in Hk. exact Hk.
Qed.

Section StepsReal.
Variable Rng : Type.
Variable randperm : Rng -> nat -> list nat.
Variable kmeans2 : Rng -> T2 R -> nat -> T2 R.
Variable gumbel_softmax : Rng -> T4 R -> R -> bool -> T4 R.
Variable encoder : T4 R -> T4 R.
Variable decoder : T4 R -> T4 R.
Variable Label : Type.

Local Abbreviation quantize :=
  (VQVAE.quantize randperm kmeans2 gumbel_softmax).
Local Abbreviation forward :=
  (Steps.forward randperm kmeans2 gumbel_softmax encoder decoder).
Local Abbreviation training_step :=
  (Steps.training_step randperm kmeans2 gumbel_softmax encoder decoder
     (Label := Label)).
Local Abbreviation validation_step :=
  (Steps.validation_step randperm kmeans2 gumbel_softmax encoder decoder
     (Label := Label)).

Lemma steps_forward_parts (qm : VQVAE.quantizer_module) (x : T4 R) (g : Rng) :
  let r := quantize qm (encoder x) g in
  forward qm x g =
  (fst r, (decoder (fst (fst (snd r))), snd (fst (snd r)), snd (snd r))).
Proof.
  intros r. unfold Steps.forward. fold r.
  destruct r as [qm' [[z_q diff] ind]]. reflexivity.
Qed.

Lemma training_step_parts (qm : VQVAE.quantizer_module) (x : T4 R)
  (y : Label) (g : Rng) :
  let r := forward qm x g in
  training_step qm (x, y) g =
  (fst r, (mse_loss (elements4 (fst (fst (snd r)))) (elements4 x)
           + snd (fst (snd r)))%R).
Proof.
  intros r. unfold Steps.training_step. fold r.
  destruct r as [qm' [[x_hat diff] ind]]. reflexivity.
Qed.

Lemma validation_step_parts (qm : VQVAE.quantizer_module) (x : T4 R)
  (y : Label) (g : Rng) :
  let r := forward qm x g in
  fst (validation_step qm (x, y) g) = fst r /\
  Steps.val_cluster_use (snd (validation_step qm (x, y) g))
  = VQVAE.cluster_use (A := R) (Steps.n_embed (fst r)) (snd (snd r)).
Proof.
  intros r. unfold Steps.validation_step. fold r.
  destruct r as [qm' [[x_hat diff] ind]]. split; reflexivity.
Qed.

(** The indices either quantizer returns for a [B, C, H, W] grid: one per
    location, each below [n_embed]. *)
Lemma quantize_index_entries (qm : VQVAE.quantizer_module) (z : T4 R)
  (g : Rng) (B C Hh W : nat) :
  let r := quantize qm z g in
  size4 z = (B, C, Hh, W) ->
  Steps.well_formed (fst r) ->
  length (elements3 (snd (snd r))) = B * Hh * W /\
  Forall (fun i => i < Steps.n_embed (fst r)) (elements3 (snd (snd r))).
Proof.
  destruct qm as [q|q]; intros r Hs Hwf.
  - unfold r, VQVAE.quantize in *.
    pose proof (forward_ind randperm kmeans2 q z g) as Hind.
    rewrite Hs in Hind.
    destruct (VQVAEQuantize.forward randperm kmeans2 q z g)
      as [[q' printed] [[z_q diff] ind]].
    cbn [fst snd Steps.well_formed Steps.n_embed] in *.
    destruct Hwf as (_ & (Hlen & _) & Hpos).
    rewrite Hind. unfold view3. split.
    + apply length_elements3, has_shape3_tabulate.
    + unfold elements3. apply Forall_concat, Forall_concat, Forall_tabulate.
      intros b _. apply Forall_tabulate. intros h _. apply Forall_tabulate.
      intros w _. rewrite <- Hlen. apply nearest_in_range.
      intros Hnil. rewrite Hnil in Hlen. simpl in Hlen. lia.
  - unfold r, VQVAE.quantize in *.
    cbn [fst snd Steps.well_formed Steps.n_embed] in *.
    destruct Hwf as (Hout & _ & Hpos).
    unfold GumbelQuantize.forward. cbn [snd].
    unfold GumbelQuantize.logits_shape. rewrite Hs. unfold argmax_dim1.
    split.
    + apply length_elements3, has_shape3_tabulate.
    + unfold elements3. apply Forall_concat, Forall_concat, Forall_tabulate.
      intros b _. apply Forall_tabulate. intros h _. apply Forall_tabulate.
      intros w _.
      set (col := column _ _ b h w).
      assert (Hlen : length col = GumbelQuantize.n_embed q)
        by (unfold col; rewrite length_column; exact Hout).
      rewrite <- Hlen. apply max_row_index.
      intros Hnil. rewrite Hnil in Hlen. simpl in Hlen. lia.
Qed.

(** The latent loss either quantizer returns is not negative. *)
Lemma quantize_diff_nonneg (qm : VQVAE.quantizer_module) (z : T4 R)
  (g : Rng) (B C Hh W : nat) :
  let r := quantize qm z g in
  size4 z = (B, C, Hh, W) ->
  Steps.well_formed (fst r) ->
  (0 <= snd (fst (snd r)))%R.
Proof.
  destruct qm as [q|q]; intros r Hs Hwf.
  - unfold r, VQVAE.quantize in *.
    pose proof (forward_diff_mse randperm kmeans2 q g Hs) as Hd.
    cbv zeta in Hd.
    destruct (VQVAEQuantize.forward randperm kmeans2 q z g)
      as [[q' printed] [[z_q diff] ind]].
    cbn [fst snd Steps.well_formed] in *.
    destruct (Hd Hwf) as (-> & _ & _).
    pose proof (mse_loss_nonneg
                  (elements4 (VQVAEQuantize.embed_code q' ind))
                  (elements4 (VQVAEQuantize.project q z))) as Hm.
    set (m := mse_loss _ _) in *. clearbody m.
    unfold VQVAEQuantize.commitment_cost. simpl. lra.
  - unfold r, VQVAE.quantize in *.
    cbn [fst snd Steps.well_formed] in *.
    unfold GumbelQuantize.forward. cbn [fst snd].
    apply (kl_loss_bounds_real Hs Hwf).
Qed.

(** Over the reals, a validation step on a batch whose encoding is a
    non-empty [B, C, H, W] grid logs a [val_cluster_use] between 1 and the
    smaller of the codebook size and the number [B * H * W] of latent
    locations. *)
Lemma validation_cluster_use_bounds (qm : VQVAE.quantizer_module)
  (x : T4 R) (y : Label) (g : Rng) (B C Hh W : nat) :
  let r := validation_step qm (x, y) g in
  size4 (encoder x) = (B, C, Hh, W) ->
  0 < B * Hh * W ->
  Steps.well_formed (fst r) ->
  1 <= Steps.val_cluster_use (snd r)
    <= Nat.min (Steps.n_embed (fst r)) (B * Hh * W).
Proof.
  intros r Hs Hpos. unfold r.
  destruct (validation_step_parts qm x y g) as [-> ->].
  rewrite steps_forward_parts. cbn [fst snd]. intros Hwf.
  destruct (quantize_index_entries qm g Hs Hwf) as [Hlen Hall].
  assert (Hne : elements3 (snd (snd (quantize qm (encoder x) g))) <> []).
  { intros Hnil. rewrite Hnil in Hlen. simpl in Hlen. lia. }
  rewrite (@cluster_use_nodup_real _ _ Hne Hall), <- Hlen.
  apply nodup_count_bounds; assumption.
Qed.

(** Over the reals, the loss of a training step is the sum of two
    non-negative terms: it is at least the reconstruction error of the
    batch, which is at least 0. *)
Lemma training_loss_bounds (qm : VQVAE.quantizer_module)
  (x : T4 R) (y : Label) (g : Rng) (B C Hh W B' C' Hh' W' : nat) :
  let r := training_step qm (x, y) g in
  let x_hat := fst (fst (snd (forward qm x g))) in
  size4 (encoder x) = (B, C, Hh, W) ->
  0 < B * Hh * W ->
  Steps.well_formed (fst r) ->
  has_shape4 B' C' Hh' W' x -> has_shape4 B' C' Hh' W' x_hat ->
  0 < B' * C' * Hh' * W' ->
  (0 <= mse_loss (elements4 x_hat) (elements4 x) <= snd r)%R.
Proof.
  intros r x_hat Hs _. unfold r, x_hat.
  rewrite training_step_parts. rewrite steps_forward_parts.
  cbn [fst snd]. intros Hwf _ _ _.
  pose proof (quantize_diff_nonneg qm g Hs Hwf) as Hd. cbv zeta in Hd.
  pose proof (mse_loss_nonneg
                (elements4 (decoder (fst (fst (snd (quantize qm (encoder x) g))))))
                (elements4 x)) as Hm.
  lra.
Qed.

End StepsReal.

Lemma validation_cluster_use_bounds_witness :
  let r := Steps.validation_step example_randperm example_kmeans2
             example_gumbel_softmax (fun x => x) (fun z => z)
             (VQVAE.Soft (example_gumbel (A := R))) (example_grid, tt) tt in
  1 <= Steps.val_cluster_use (snd r)
    <= Nat.min (Steps.n_embed (fst r)) (1 * 1 * 2).
Proof.
  intros r.
  apply (@validation_cluster_use_bounds unit example_randperm example_kmeans2
           example_gumbel_softmax (fun x => x) (fun z => z) unit
           (VQVAE.Soft example_gumbel) example_grid tt tt 1 2 1 2).
  - reflexivity.
  - lia.
  - cbv [Steps.validation_step Steps.forward VQVAE.quantize
           GumbelQuantize.forward fst Steps.well_formed].
    unfold GumbelQuantize.well_formed, has_shape2. simpl.
    repeat split; try lia. repeat constructor.
Defined.

Lemma training_loss_bounds_witness :
  let qm := VQVAE.Soft (example_gumbel (A := R)) in
  let r := Steps.training_step example_randperm example_kmeans2
             example_gumbel_softmax (fun x => x) (fun z => z)
             qm (example_grid, tt) tt in
  let x_hat := fst (fst (snd (Steps.forward example_randperm example_kmeans2
                                example_gumbel_softmax (fun x => x)
                                (fun z => z) qm example_grid tt))) in
  (0 <= mse_loss (elements4 x_hat) (elements4 example_grid) <= snd r)%R.
Proof.
  intros qm r x_hat.
  apply (@training_loss_bounds unit example_randperm example_kmeans2
           example_gumbel_softmax (fun x => x) (fun z => z) unit
           qm example_grid tt tt 1 2 1 2 1 2 1 2).
  - reflexivity.
  - lia.
  - cbv [Steps.training_step Steps.forward VQVAE.quantize
           GumbelQuantize.forward fst Steps.well_formed qm].
    unfold GumbelQuantize.well_formed, has_shape2. simpl.
    repeat split; try lia. repeat constructor.
  - unfold has_shape4, has_shape3, has_shape2. simpl.
    repeat split; repeat constructor.
  - cbv [Steps.forward VQVAE.quantize qm fst snd].
    apply (@soft_forward_shape R _ _ unit example_gumbel_softmax
             example_gumbel example_grid tt 1 2 1 2).
    reflexivity.
  - lia.
Defined.

(** ** The soft quantizer mixes codes *)

Lemma weighted_sum_bounds (p a : nat -> R) (lo hi : R) (l : list nat) :
  (forall k, In k l -> (0 <= p k)%R /\ (lo <= a k <= hi)%R) ->
  (lo * s_sum (map p l) <= s_sum (map (fun k => p k * a k) l)
   <= hi * s_sum (map p l))%R.
Proof.
  induction l as [|k l IH]; intros Hl; [simpl; lra|].
  assert (Hk : (0 <= p k)%R /\ (lo <= a k <= hi)%R)
    by (apply Hl; left; reflexivity).
  assert (Hrest : (lo * s_sum (map p l) <= s_sum (map (fun k => p k * a k) l)
                   <= hi * s_sum (map p l))%R)
    by (apply IH; intros j Hj; apply Hl; right; exact Hj).
  cbn [map s_sum].
  set (sp := s_sum (map p l)) in *.
  set (sa := s_sum (map (fun k => (p k * a k)%R) l)) in *.
  clearbody sp sa. simpl.
  destruct Hk as [Hp [Hlo Hhi]].
  assert (H1 : (0 <= p k * (a k - lo))%R) by (apply Rmult_le_pos; lra).
  assert (H2 : (0 <= p k * (hi - a k))%R) by (apply Rmult_le_pos; lra).
  lra.
Qed.

(** Over the reals, where the sample at a location is a probability
    vector over the categories, every channel of the returned vector is a
    weighted mean of that channel of the codebook rows, so it lies between
    the smallest and the largest entry of the channel. *)
Lemma gumbel_output_mixes_codes (Rng : Type)
  (gumbel_softmax : Rng -> T4 R -> R -> bool -> T4 R)
  (q : GumbelQuantize.t) (z : T4 R) (g : Rng) (B C Hh W b d h w : nat)
  (lo hi : R) :
  let res := GumbelQuantize.forward gumbel_softmax q z g in
  let sample :=
    column (GumbelQuantize.soft_one_hot gumbel_softmax q z g)
      (GumbelQuantize.n_embed q) b h w in
  size4 z = (B, C, Hh, W) ->
  GumbelQuantize.well_formed q ->
  b < B -> d < GumbelQuantize.embedding_dim q -> h < Hh -> w < W ->
  Forall (fun p => 0 <= p)%R sample ->
  s_sum sample = 1%R ->
  (forall k, k < GumbelQuantize.n_embed q ->
     (lo <= nth d (nth k (GumbelQuantize.embed_weight q) []) 0 <= hi)%R) ->
  (lo <= get4 0%R (fst (fst res)) b d h w <= hi)%R.
Proof.
  intros res sample Hs (Hout & _ & Hpos) Hb Hd Hh' Hw Hnn Hone Hrange.
  unfold res, GumbelQuantize.forward. cbn [fst].
  unfold GumbelQuantize.logits_shape. rewrite Hs, Hout.
  set (s := GumbelQuantize.soft_one_hot gumbel_softmax q z g) in *.
  set (N := GumbelQuantize.n_embed q) in *.
  set (E := GumbelQuantize.embed_weight q) in *.
  assert (Hv : get4 0%R
                 (einsum_bnhw_nd (B, N, Hh, W)
                    (GumbelQuantize.embedding_dim q) s E) b d h w
               = s_sum (map (fun n => (get4 0 s b n h w * nth d (nth n E []) 0)%R)
                          (seq 0 N))).
  { unfold einsum_bnhw_nd, get4 at 1.
    rewrite (nth_tabulate _ _ Hb), (nth_tabulate _ _ Hd),
      (nth_tabulate _ _ Hh'), (nth_tabulate _ _ Hw).
    reflexivity. }
  rewrite Hv. clear Hv.
  unfold sample, column, tabulate in Hnn, Hone.
  cbn [s_mul s_zero R_scalar] in *.
  pose proof (@weighted_sum_bounds
                (fun n => get4 (s_zero (A := R)) s b n h w)
                (fun n => nth d (nth n E [])
                            (s_zero (A := R)))
                lo hi (seq 0 N)) as Hbounds.
  cbv beta in Hbounds. rewrite Hone in Hbounds.
  assert (Hside : forall k, In k (seq 0 N) ->
            (0 <= get4 (s_zero (A := R)) s b k h w)%R /\
            (lo <= nth d (nth k E [])
                     (s_zero (A := R)) <= hi)%R).
  { intros k Hk. split.
    - rewrite Forall_forall in Hnn. apply Hnn.
      apply in_map_iff. exists k. split; [reflexivity | exact Hk].
    - apply Hrange. apply in_seq in Hk. lia. }
  specialize (Hbounds Hside). simpl in Hbounds |- *. lra.
Qed.

Lemma gumbel_output_mixes_codes_witness :
  let q := GumbelQuantize.train false (example_gumbel (A := R)) in
  let res := GumbelQuantize.forward example_gumbel_softmax q example_grid tt in
  (0 <= get4 0%R (fst (fst res)) 0 1 0 1 <= 5)%R.
Proof.
  intros q res.
  apply (@gumbel_output_mixes_codes unit example_gumbel_softmax q
           example_grid tt 1 2 1 2 0 1 0 1 0%R 5%R).
  - reflexivity.
  - unfold GumbelQuantize.well_formed, has_shape2. simpl.
    repeat split; try lia. repeat constructor.
  - lia.
  - simpl. lia.
  - lia.
  - lia.
  - vm_compute. repeat constructor; lra.
  - vm_compute. lra.
  - intros k Hk. simpl in Hk.
    destruct k as [|[|[|k]]]; simpl; try lra. lia.
Defined.

(** ** The perplexity diagnostic *)









Lemma Forall_eq_repeat {X : Type} (c : X) (l : list X) :
  Forall (eq c) l -> l = repeat c (length l).
Proof.
  induction 1 as [|x l <- _ IH]; simpl; [reflexivity | now rewrite <- IH].
Qed.

Section Absorbed.
Context {A : Type} `{Scalar A} `{Transcendental A}.

(** With a single code in use the perplexity is exactly 1 in every dtype
    whose rounding absorbs the floor. *)
Lemma perplexity_single_code_absorbed (n c : nat) (ind : T3 nat) :
  Forall (eq c) (elements3 ind) ->
  absorbs_floor (length (elements3 ind)) ->
  VQVAE.perplexity n ind = s_one.
Proof.
  intros Hall (Hones & Hzeros & Hfloor & Hlog & Hhot & Hcold & Hexp).
  pose proof (Forall_eq_repeat Hall) as Hrep.
  set (N := length (elements3 ind)) in *.
  assert (Havg : VQVAE.avg_probs n ind
                 = tabulate n (fun k => if k =? c then s_one else s_zero)).
  { unfold VQVAE.avg_probs, VQVAE.mean0, VQVAE.encodings.
    apply tabulate_ext. intros k Hk. rewrite Hrep, !map_map.
    assert (Hcol : forall M,
              map (fun i => nth k (VQVAE.one_hot n i) s_zero) (repeat c M)
              = repeat (if k =? c then s_one else s_zero) M).
    { induction M as [|M IH]; [reflexivity|]. cbn [repeat map]. rewrite IH.
      f_equal. unfold VQVAE.one_hot. rewrite (nth_tabulate _ _ Hk).
      reflexivity. }
    rewrite Hcol. destruct (k =? c); assumption. }
  unfold VQVAE.perplexity, VQVAE.perplexity_of.
  rewrite Havg, map_tabulate.
  assert (Hsum : forall l : list nat,
            s_sum (map (fun k =>
                     s_mul (if k =? c then s_one else s_zero)
                       (s_log (s_add (if k =? c then s_one else s_zero)
                                 log_floor))) l) = s_zero).
  { induction l as [|k l IH]; [reflexivity|].
    cbn [map s_sum]. rewrite IH. destruct (k =? c).
    - rewrite Hfloor, Hlog. exact Hhot.
    - exact Hcold. }
  unfold tabulate. rewrite Hsum. exact Hexp.
Qed.

End Absorbed.

(** binary32 absorbs the floor. *)
Lemma absorbs_floor_binary32 :
  @absorbs_floor float32 float32_scalar example_transcendental 4.
Proof. vm_compute. repeat split; reflexivity. Qed.

(** In binary32 the perplexity of a grid that uses one code is exactly 1. *)
Lemma perplexity_single_code_binary32 :
  @VQVAE.perplexity float32 float32_scalar example_transcendental 3
    [[[1; 1]; [1; 1]]] = s_one.
Proof.
  apply (@perplexity_single_code_absorbed float32 float32_scalar
           example_transcendental 3 1 [[[1; 1]; [1; 1]]]).
  - repeat constructor.
  - exact absorbs_floor_binary32.
Qed.


